(** * c9: a minimal distributed object store

  Shallow embedding of the coordination layer of c9
  (storage node, registry, manager, placement, wire protocol) and the
  properties its specification states about it.

  Layout:
  - [Py]         Python text and byte strings as the code uses them
  - [Exn]        exceptions and the result type
  - [Middleware] c9/lib/middleware.py  (Connection, Status, ContentType)
  - [Api]        c9/buckets/api.py     (StatusCode, Spec, File, Client)
  - [Node]       c9/buckets/__init__.py (the bucket server)
  - [Server]     c9/manager/server.py  (DISTANCE_MATRIX, Context, Response)
  - [Handlers]   c9/manager/handlers.py
  - [Registry]   c9/buckets/api.py     (Observer, Subject)
  - [Mgr]        c9/manager/__init__.py
  followed by the theorems. *)

From Stdlib Require Import ZArith NArith List String Bool Lia DecimalString
  DecimalPos.
From Stdlib.Strings Require Import Byte.
From stdpp Require Import gmap list.

Local Open Scope Z_scope.

(* ===================================================================== *)
(** ** Python values                                                      *)
(* ===================================================================== *)

Module Py.

(** A Python [str] is a sequence of Unicode code points; a [bytes] value
    is a sequence of octets.  [len] counts code points on the first and
    octets on the second. *)
Abbreviation str := (list N) (only parsing).
Abbreviation bytes := (list byte) (only parsing).

Definition of_string (s : string) : str :=
  List.map Byte.to_N (list_byte_of_string s).

Definition len {A} (s : list A) : Z := Z.of_nat (length s).

Definition byte_of (n : N) : byte :=
  match Byte.of_N n with Some b => b | None => x00 end.

Definition SPACE : N := 32.

(** [str.isspace] on a single code point. *)
Definition isspace (c : N) : bool :=
  ((9 <=? c) && (c <=? 13) || (28 <=? c) && (c <=? 32)
   || (c =? 133) || (c =? 160) || (c =? 5760)
   || (8192 <=? c) && (c <=? 8202)
   || (c =? 8232) || (c =? 8233) || (c =? 8239) || (c =? 8287)
   || (c =? 12288))%N.

Fixpoint lstrip (s : str) : str :=
  match s with
  | c :: s' => if isspace c then lstrip s' else s
  | [] => []
  end.

Definition rstrip (s : str) : str := rev (lstrip (rev s)).

(** [s.strip()] *)
Definition strip (s : str) : str := rstrip (lstrip s).

(** [s.split(sep)] for a one-character separator: never the empty list. *)
Fixpoint split (sep : N) (s : str) : list str :=
  match s with
  | [] => [[]]
  | c :: s' =>
      if (c =? sep)%N then [] :: split sep s'
      else match split sep s' with
           | w :: ws => (c :: w) :: ws
           | [] => [[c]]
           end
  end.

(** [sep.join(parts)] *)
Fixpoint join (sep : str) (parts : list str) : str :=
  match parts with
  | [] => []
  | [p] => p
  | p :: ps => p ++ sep ++ join sep ps
  end.

(** [s.lower()], on the ASCII letters.  No code point outside ASCII
    lower-cases to a string that is a verb of the bucket protocol, so the
    dispatch of [Node.run] is not affected by the restriction. *)
Definition lower_char (c : N) : N :=
  if ((65 <=? c) && (c <=? 90))%N then (c + 32)%N else c.
Definition lower (s : str) : str := List.map lower_char s.

(** [s.ljust(width)]: pad on the right with spaces up to [width]
    code points; longer strings are returned unchanged. *)
Definition ljust (s : str) (width : Z) : str :=
  s ++ repeat SPACE (Z.to_nat (width - len s)).

(** [c in s] *)
Definition contains (c : N) (s : str) : bool :=
  existsb (N.eqb c) s.

(** *** UTF-8 *)

Definition is_surrogate (c : N) : bool := ((55296 <=? c) && (c <=? 57343))%N.

Definition cont (n : N) : byte := byte_of (128 + n mod 64)%N.

(** The octets of one code point; [None] for a lone surrogate or a value
    beyond U+10FFFF, which [str.encode] refuses. *)
Definition encode_char (c : N) : option bytes :=
  if (c <? 128)%N then Some [byte_of c]
  else if (c <? 2048)%N then Some [byte_of (192 + c / 64)%N; cont c]
  else if is_surrogate c then None
  else if (c <? 65536)%N then
    Some [byte_of (224 + c / 4096)%N; cont (c / 64); cont c]
  else if (c <? 1114112)%N then
    Some [byte_of (240 + c / 262144)%N; cont (c / 4096); cont (c / 64); cont c]
  else None.

(** [s.encode("utf-8")] *)
Fixpoint encode (s : str) : option bytes :=
  match s with
  | [] => Some []
  | c :: s' =>
      match encode_char c, encode s' with
      | Some bs, Some rest => Some (bs ++ rest)
      | _, _ => None
      end
  end.

Definition is_cont (b : N) : bool := ((128 <=? b) && (b <? 192))%N.

(** [b.decode("utf-8")], strict: overlong forms, surrogates, truncated
    sequences and stray continuation octets are errors. *)
Fixpoint decode_N (bs : list N) : option str :=
  match bs with
  | [] => Some []
  | b0 :: r0 =>
      if (b0 <? 128)%N then option_map (cons b0) (decode_N r0)
      else if (b0 <? 194)%N then None
      else if (b0 <? 224)%N then
        match r0 with
        | b1 :: r1 =>
            if is_cont b1
            then option_map (cons ((b0 - 192) * 64 + (b1 - 128))%N) (decode_N r1)
            else None
        | _ => None
        end
      else if (b0 <? 240)%N then
        match r0 with
        | b1 :: b2 :: r2 =>
            let c := ((b0 - 224) * 4096 + (b1 - 128) * 64 + (b2 - 128))%N in
            if is_cont b1 && is_cont b2 && (2048 <=? c)%N && negb (is_surrogate c)
            then option_map (cons c) (decode_N r2)
            else None
        | _ => None
        end
      else if (b0 <? 245)%N then
        match r0 with
        | b1 :: b2 :: b3 :: r3 =>
            let c := ((b0 - 240) * 262144 + (b1 - 128) * 4096
                      + (b2 - 128) * 64 + (b3 - 128))%N in
            if is_cont b1 && is_cont b2 && is_cont b3
               && (65536 <=? c)%N && (c <? 1114112)%N
            then option_map (cons c) (decode_N r3)
            else None
        | _ => None
        end
      else None
  end.

Definition decode (b : bytes) : option str :=
  decode_N (List.map Byte.to_N b).

(** *** Integers *)

Definition isdigit (c : N) : bool := ((48 <=? c) && (c <=? 57))%N.

(** The white space of C's [isspace]: what [int] skips around a number. *)
Definition is_c_space (c : N) : bool :=
  ((9 <=? c) && (c <=? 13) || (c =? 32))%N.

(** The digit zero of every decimal number system beyond ASCII (Unicode
    15.0, the tables of Python 3.12); the nine code points that follow a
    zero are its digits one to nine. *)
Definition DECIMAL_ZEROS : list N :=
  [1632; 1776; 1984; 2406; 2534; 2662; 2790; 2918; 3046; 3174; 3302; 3430;
   3558; 3664; 3792; 3872; 4160; 4240; 6112; 6160; 6470; 6608; 6784; 6800;
   6992; 7088; 7232; 7248; 42528; 43216; 43264; 43472; 43504; 43600; 44016;
   65296; 66720; 68912; 69734; 69872; 69942; 70096; 70384; 70736; 70864;
   71248; 71360; 71472; 71904; 72016; 72784; 73040; 73120; 73552; 92768;
   92864; 93008; 120782; 120792; 120802; 120812; 120822; 123200; 123632;
   124144; 125264; 130032]%N.

(** The decimal value of a code point beyond ASCII, if it is a digit. *)
Definition decimal (c : N) : option N :=
  option_map (fun zero => (c - zero)%N)
    (List.find (fun zero => ((zero <=? c) && (c <? zero + 10))%N)
               DECIMAL_ZEROS).

(** What [int] makes of a code point before it reads the number: ASCII is
    kept, white space beyond ASCII becomes a space, a decimal digit beyond
    ASCII becomes the ASCII digit, and anything else is refused. *)
Definition to_ascii_char (c : N) : option N :=
  if (c <? 128)%N then Some c
  else if isspace c then Some SPACE
  else option_map (N.add 48) (decimal c).

Fixpoint to_ascii (s : str) : option str :=
  match s with
  | [] => Some []
  | c :: s' =>
      match to_ascii_char c, to_ascii s' with
      | Some a, Some rest => Some (a :: rest)
      | _, _ => None
      end
  end.

Fixpoint lstrip_c (s : str) : str :=
  match s with
  | c :: s' => if is_c_space c then lstrip_c s' else s
  | [] => []
  end.

Definition strip_c (s : str) : str := rev (lstrip_c (rev (lstrip_c s))).

(** Digits with single underscores between them, as [int] accepts. *)
Fixpoint digits (acc : Z) (after_digit : bool) (s : str) : option Z :=
  match s with
  | [] => if after_digit then Some acc else None
  | c :: s' =>
      if isdigit c then digits (10 * acc + Z.of_N (c - 48)) true s'
      else if (c =? 95)%N && after_digit then digits acc false s'
      else None
  end.

(** The most digits [int] converts ([sys.get_int_max_str_digits()], as
    CPython sets it). *)
Definition INT_MAX_STR_DIGITS : Z := 4300.

(** [int(s)] in base ten; [None] is [ValueError].  White space is skipped
    at the two ends: the six characters of C's [isspace], and beyond ASCII
    the white space of Unicode; U+001C to U+001F, which [str.strip]
    removes, are not among them.  One sign may come first. *)
Definition int (s : str) : option Z :=
  match to_ascii s with
  | None => None
  | Some text =>
      let number := strip_c text in
      if len (List.filter isdigit number) >? INT_MAX_STR_DIGITS then None
      else match number with
           | 45%N :: s' => option_map Z.opp (digits 0 false s')
           | 43%N :: s' => digits 0 false s'
           | s' => digits 0 false s'
           end
  end.

(** [str(n)] for an integer.  CPython refuses to convert an integer of
    more than 4300 digits; such integers are not modelled. *)
Definition str_of_int (n : Z) : str :=
  of_string (NilZero.string_of_int (Z.to_int n)).

End Py.

Import Py.

(* ===================================================================== *)
(** ** Exceptions and effects                                             *)
(* ===================================================================== *)

Module Exn.

(** The exception classes the modelled code can raise. *)
Inductive exn : Type :=
| IndexError
| KeyError
| ValueError
| TypeError
| AttributeError
| RuntimeError
| OSError
| UnicodeError
| NotFoundError.

Inductive result (A : Type) : Type :=
| Ok (a : A)
| Raise (e : exn).
Arguments Ok {A} a.
Arguments Raise {A} e.

(** Code that mutates a state [S] and either returns or raises; what was
    mutated before the exception stays mutated. *)
Definition M (S A : Type) : Type := S -> S * result A.

#[global] Instance M_ret {S} : MRet (M S) := fun A a s => (s, Ok a).
#[global] Instance M_bind {S} : MBind (M S) := fun A B f m s =>
  match m s with
  | (s', Ok a) => f a s'
  | (s', Raise e) => (s', Raise e)
  end.

Definition raise {S A} (e : exn) : M S A := fun s => (s, Raise e).
Definition gets {S A} (f : S -> A) : M S A := fun s => (s, Ok (f s)).
Definition modify {S} (f : S -> S) : M S unit := fun s => (f s, Ok tt).

(** [None] raises [e]. *)
Definition or_raise {S A} (e : exn) (o : option A) : M S A :=
  match o with Some a => mret a | None => raise e end.

(** Run [m] on the component of the state selected by [get]/[set]. *)
Definition zoom {S T A} (get : S -> T) (set : T -> S -> S) (m : M T A) : M S A :=
  fun s => let '(t, r) := m (get s) in (set t s, r).

(** [try: m  except Exception as e: h e] *)
Definition try_except {S A} (m : M S A) (h : exn -> M S A) : M S A :=
  fun s => match m s with
           | (s', Ok a) => (s', Ok a)
           | (s', Raise e) => h e s'
           end.

End Exn.
Import Exn.

(* ===================================================================== *)
(** ** Paths and files                                                    *)
(* ===================================================================== *)

Module Paths.

Definition SLASH : N := 47.
Definition DOT : str := [46%N].
Definition DOTDOT : str := [46%N; 46%N].

(** The parts of a path as [pathlib] keeps them: the text between the
    slashes, without the empty parts and the parts [.]. *)
Definition parts (s : str) : list str :=
  List.filter (fun p => negb (bool_decide (p = []) || bool_decide (p = DOT)))
              (split SLASH s).

Definition is_absolute (s : str) : bool :=
  match s with
  | c :: _ => (c =? SLASH)%N
  | [] => false
  end.

(** [str(Path(s))]: the root (two slashes exactly are kept as they are),
    then the parts with one slash between them; the empty path is [.]. *)
Definition normal (s : str) : str :=
  let root :=
    match s with
    | 47%N :: 47%N :: 47%N :: _ => [SLASH]
    | 47%N :: 47%N :: _ => [SLASH; SLASH]
    | 47%N :: _ => [SLASH]
    | _ => []
    end in
  match root, parts s with
  | [], [] => DOT
  | _, ps => root ++ join [SLASH] ps
  end.

(** [str(Path(base) / other)] *)
Definition joinpath (base other : str) : str :=
  if is_absolute other then normal other
  else match last base with
       | Some 47%N | None => normal (base ++ other)
       | Some _ => normal (base ++ [SLASH] ++ other)
       end.

(** [os.fsencode]: UTF-8 in which the code points U+DC80 to U+DCFF stand
    for the octets 128 to 255. *)
Definition fsencode_char (c : N) : option bytes :=
  if ((56448 <=? c) && (c <=? 56575))%N then Some [byte_of (c - 56320)%N]
  else encode_char c.

Fixpoint fsencode (s : str) : option bytes :=
  match s with
  | [] => Some []
  | c :: s' =>
      match fsencode_char c, fsencode s' with
      | Some bs, Some rest => Some (bs ++ rest)
      | _, _ => None
      end
  end.

(** The longest name of a directory entry, in octets, as on the common
    file systems. *)
Definition NAME_MAX : Z := 255.

Definition too_long (part : str) : bool :=
  match fsencode part with
  | Some b => len b >? NAME_MAX
  | None => false
  end.

(** What a path that is resolved from a directory denotes, when that
    directory holds regular files only and there are no symbolic links:
    - [Entry name]: the entry [name] of the directory, present or not;
    - [Directory]: the directory itself, or one above it;
    - [Missing]: a path through an entry of the directory, which is not a
      directory: nothing is there and nothing can be created there;
    - [Refused e]: a text that is no path: it cannot be encoded, or it
      holds the character NUL;
    - [TooLong]: a path with a part of more than [NAME_MAX] octets;
    - [Outside key]: a path that leaves the directory, [key] being its
      normal form. *)
Inductive Target : Type :=
| Entry (name : str)
| Directory
| Missing
| Refused (e : exn)
| TooLong
| Outside (key : str).

Definition climbs (ps : list str) : bool :=
  match ps with
  | p :: _ => bool_decide (p = DOTDOT)
  | [] => false
  end.

(** What [directory / filename] denotes, [directory] being a [Path]. *)
Definition target (filename : str) : Target :=
  match fsencode filename with
  | None => Refused UnicodeError
  | Some _ =>
      if contains 0%N filename then Refused ValueError
      else
        let ps := parts filename in
        if is_absolute filename || climbs ps then
          if forallb (fun p => bool_decide (p = DOTDOT)) ps then Directory
          else if existsb too_long ps then TooLong
          else Outside ((if is_absolute filename then [SLASH] else [])
                        ++ join [SLASH] ps)
        else
          match ps with
          | [] => Directory
          | name :: more =>
              if too_long name then TooLong
              else match more with
                   | [] => Entry name
                   | _ => Missing
                   end
          end
  end.


(** The files a process reaches from a directory: the regular files of
    the directory by name; the regular files outside of it by the normal
    form of their path; and the size that [stat] reports for a directory.
    Outside the directory the model does not follow directories: a path
    that is not in [beyond] is taken to be free, and two spellings of one
    file, or a path that leads back into the directory, are beyond it. *)
Record Volume : Type := mkVolume {
  inside : gmap str bytes;
  beyond : gmap str bytes;
  st_size_directory : N;
}.

Definition set_inside (d : gmap str bytes) (v : Volume) : Volume :=
  {| inside := d; beyond := beyond v;
     st_size_directory := st_size_directory v |}.
Definition set_beyond (d : gmap str bytes) (v : Volume) : Volume :=
  {| inside := inside v; beyond := d;
     st_size_directory := st_size_directory v |}.

(** [path.exists()]: [stat] with the errors of a missing path turned into
    [False], as [pathlib] does. *)
Definition path_exists (path : Target) : M Volume bool := fun v =>
  match path with
  | Entry name => (v, Ok (bool_decide (is_Some (inside v !! name))))
  | Directory => (v, Ok true)
  | Missing => (v, Ok false)
  | Refused _ => (v, Ok false)
  | TooLong => (v, Raise OSError)
  | Outside key => (v, Ok (bool_decide (is_Some (beyond v !! key))))
  end.

(** [open(path, "rb")] and [file.read()] *)
Definition read_bytes (path : Target) : M Volume bytes := fun v =>
  match path with
  | Entry name => or_raise OSError (inside v !! name) v
  | Directory => (v, Raise OSError)
  | Missing => (v, Raise OSError)
  | Refused e => (v, Raise e)
  | TooLong => (v, Raise OSError)
  | Outside key => or_raise OSError (beyond v !! key) v
  end.

(** [open(path, "wb")] and [file.write(content)] *)
Definition write_bytes (path : Target) (content : bytes) : M Volume unit :=
  fun v =>
  match path with
  | Entry name => (set_inside (<[name := content]> (inside v)) v, Ok tt)
  | Directory => (v, Raise OSError)
  | Missing => (v, Raise OSError)
  | Refused e => (v, Raise e)
  | TooLong => (v, Raise OSError)
  | Outside key => (set_beyond (<[key := content]> (beyond v)) v, Ok tt)
  end.

(** [path.stat().st_size] *)
Definition st_size (path : Target) : M Volume Z := fun v =>
  match path with
  | Entry name => or_raise OSError (len <$> inside v !! name) v
  | Directory => (v, Ok (Z.of_N (st_size_directory v)))
  | Missing => (v, Raise OSError)
  | Refused e => (v, Raise e)
  | TooLong => (v, Raise OSError)
  | Outside key => or_raise OSError (len <$> beyond v !! key) v
  end.

(** [path.unlink()] *)
Definition unlink (path : Target) : M Volume unit := fun v =>
  match path with
  | Entry name =>
      match inside v !! name with
      | Some _ => (set_inside (delete name (inside v)) v, Ok tt)
      | None => (v, Raise OSError)
      end
  | Directory => (v, Raise OSError)
  | Missing => (v, Raise OSError)
  | Refused e => (v, Raise e)
  | TooLong => (v, Raise OSError)
  | Outside key =>
      match beyond v !! key with
      | Some _ => (set_beyond (delete key (beyond v)) v, Ok tt)
      | None => (v, Raise OSError)
      end
  end.

End Paths.
Import Paths.

(* ===================================================================== *)
(** ** c9/lib/middleware.py                                               *)
(* ===================================================================== *)

Module Middleware.

Definition CHUNK_SIZE : Z := 1024.

(** A [Connection] wraps one stream socket.  The socket is modelled by
    what it has still to deliver and what was written to it:
    - [incoming]: what the peer sends before it shuts its side down, in
      the segments in which it becomes readable; a send of no octets
      delivers nothing, so an empty segment is skipped.  [recv(n)] returns
      at most [n] octets of the first segment and leaves the rest of it
      readable; once everything was read it returns the empty byte string,
      which is what [recv] returns when the peer has shut down.  A peer
      that keeps the connection open and stays silent, on which [recv]
      would not return, is not modelled;
    - [sent]: the argument of every [sendall], in order;
    - [closed]: whether [close] was called on it. *)
Record Connection : Type := mkConnection {
  incoming : list bytes;
  sent : list bytes;
  closed : bool;
}.

Definition set_incoming (i : list bytes) (c : Connection) : Connection :=
  {| incoming := i; sent := sent c; closed := closed c |}.
Definition set_sent (o : list bytes) (c : Connection) : Connection :=
  {| incoming := incoming c; sent := o; closed := closed c |}.

(** The segments that hold something to read. *)
Fixpoint pending (segments : list bytes) : list bytes :=
  match segments with
  | [] :: later => pending later
  | _ => segments
  end.

(** [socket.recv(bufsize)] *)
Definition recv (bufsize : Z) : M Connection bytes := fun c =>
  if closed c then (c, Raise OSError)
  else match pending (incoming c) with
       | [] => (c, Ok [])
       | seg :: rest =>
           let n := Z.to_nat bufsize in
           (set_incoming (match drop n seg with
                          | [] => rest
                          | more => more :: rest
                          end) c,
            Ok (take n seg))
       end.

(** [socket.sendall(content)] *)
Definition sendall (content : bytes) : M Connection unit := fun c =>
  if closed c then (c, Raise OSError)
  else (set_sent (sent c ++ [content]) c, Ok tt).

(** [Connection.send] with a [bytes] argument. *)
Definition send (data : bytes) : M Connection unit := sendall data.

(** [Connection.send] with a [str] argument: encoded first. *)
Definition send_str (data : str) : M Connection unit :=
  content ← or_raise UnicodeError (encode data);
  sendall content.

(** [Connection.receive] *)
Definition receive : M Connection bytes := recv CHUNK_SIZE.

(** [Connection.receive_chunk] *)
Definition receive_chunk : M Connection str :=
  data ← receive;
  text ← or_raise UnicodeError (decode data);
  mret (strip text).

(** [Connection.close] *)
Definition close : M Connection unit := fun c =>
  ({| incoming := incoming c; sent := sent c; closed := true |}, Ok tt).

(** [Connection.send_chunk] *)
Definition send_chunk (content : str) : M Connection unit :=
  if len content >? CHUNK_SIZE then raise ValueError
  else
    data ← or_raise UnicodeError (encode (ljust content CHUNK_SIZE));
    send data.

Inductive Status : Type := Status_OK | Status_ERROR | Status_NOT_FOUND.

Definition Status_value (s : Status) : str :=
  match s with
  | Status_OK => of_string "OK"
  | Status_ERROR => of_string "ERROR"
  | Status_NOT_FOUND => of_string "NOT_FOUND"
  end.

Inductive ContentType : Type := NO_CONTENT | TEXT_PLAIN | BYTES.

Definition ContentType_value (t : ContentType) : str :=
  match t with
  | NO_CONTENT => of_string "no-content"
  | TEXT_PLAIN => of_string "text/plain"
  | BYTES => of_string "application/bytes"
  end.

End Middleware.
Import Middleware.

(* ===================================================================== *)
(** ** c9/buckets/api.py: the data model                                  *)
(* ===================================================================== *)

Module Api.

Inductive StatusCode : Type := OK | NOT_FOUND | ERROR | INSUFFICIENT_SPACE.

Definition StatusCode_value (s : StatusCode) : str :=
  match s with
  | OK => of_string "OK"
  | NOT_FOUND => of_string "NOT_FOUND"
  | ERROR => of_string "ERROR"
  | INSUFFICIENT_SPACE => of_string "INSUFFICIENT_SPACE"
  end.

(** [Region] is a [Literal] of seven strings; nothing checks it at run
    time, so a region is the string that was received. *)
Abbreviation Region := (list N) (only parsing).

Record Spec : Type := mkSpec {
  files_count : Z;
  available_space : Z;
  used_space : Z;
}.

Record File : Type := mkFile {
  name : str;
  content : bytes;
}.

Definition size (f : File) : Z := len (content f).

(** The manager-side handle of a storage node ([class Client]). *)
Record Client : Type := mkClient {
  base_path : str;
  host : str;
  port : Z;
  region : Region;
  id : str;
  files : list str;
  spec : option Spec;
}.

(** [Client.__init__] *)
Definition Client_init (host : str) (port : Z) (base_path : str) (id : str)
    (region : Region) : Client :=
  {| base_path := base_path; host := host; port := port; region := region;
     id := id; files := []; spec := None |}.

(** The [spec] setter. *)
Definition set_spec (value : Spec) (c : Client) : Client :=
  {| base_path := base_path c; host := host c; port := port c;
     region := region c; id := id c; files := files c; spec := Some value |}.

(** [self.files.append(name)] *)
Definition files_append (n : str) (c : Client) : Client :=
  {| base_path := base_path c; host := host c; port := port c;
     region := region c; id := id c; files := files c ++ [n]; spec := spec c |}.

End Api.
Import Api.

(* ===================================================================== *)
(** ** c9/buckets/__init__.py: the storage node                           *)
(* ===================================================================== *)

Module Node.

(** The attributes of a [Bucket] instance. *)
Record Bucket : Type := mkBucket {
  _host : str;
  _port : Z;
  _region : Region;
  _id : str;
  _path : str;
  _subjects : list (str * Z);
  _spec : Spec;
}.

Definition DEFAULT_SPACE : Z := 250000000.

(** [Bucket.__init__]; the identifier drawn by [uuid4] is an argument. *)
Definition Bucket_init (base_path host : str) (port : Z) (region : Region)
    (uuid : str) (subjects : list (str * Z)) : Bucket :=
  {| _host := host; _port := port; _region := region; _id := uuid;
     _path := joinpath base_path uuid;
     _subjects := subjects;
     _spec := {| files_count := 0; available_space := DEFAULT_SPACE;
                 used_space := 0 |} |}.

(** The state a request runs in:
    - [self]: the instance;
    - [disk]: the regular files of its directory [self._path], file name
      to content; the directory holds nothing else, as it does when the
      node has created it;
    - [client]: the connection of the request;
    - [pushed]: what was sent to the registries (host, port, message);
    and what the node finds around it:
    - [outside]: the regular files outside of the directory that a
      request has reached, by the normal form of their path;
    - [dir_size]: the size [stat] reports for a directory;
    - [listening]: whether a registry accepts connections at a host and
      port. *)
Record State : Type := mkState {
  self : Bucket;
  disk : gmap str bytes;
  client : Connection;
  pushed : list (str * Z * str);
  outside : gmap str bytes;
  dir_size : N;
  listening : str -> Z -> bool;
}.

Definition set_self (b : Bucket) (s : State) : State :=
  {| self := b; disk := disk s; client := client s; pushed := pushed s;
     outside := outside s; dir_size := dir_size s; listening := listening s |}.
Definition set_disk (d : gmap str bytes) (s : State) : State :=
  {| self := self s; disk := d; client := client s; pushed := pushed s;
     outside := outside s; dir_size := dir_size s; listening := listening s |}.
Definition set_client (c : Connection) (s : State) : State :=
  {| self := self s; disk := disk s; client := c; pushed := pushed s;
     outside := outside s; dir_size := dir_size s; listening := listening s |}.
Definition set_pushed (p : list (str * Z * str)) (s : State) : State :=
  {| self := self s; disk := disk s; client := client s; pushed := p;
     outside := outside s; dir_size := dir_size s; listening := listening s |}.
Definition set_outside (d : gmap str bytes) (s : State) : State :=
  {| self := self s; disk := disk s; client := client s; pushed := pushed s;
     outside := d; dir_size := dir_size s; listening := listening s |}.

(** The files the node reaches from its directory. *)
Definition volume (s : State) : Volume :=
  {| inside := disk s; beyond := outside s; st_size_directory := dir_size s |}.

(** Operations on the files. *)
Definition on_files {A} (m : M Volume A) : M State A :=
  zoom volume (fun v s => set_outside (beyond v) (set_disk (inside v) s)) m.

Definition with_spec (f : Spec -> Spec) (b : Bucket) : Bucket :=
  {| _host := _host b; _port := _port b; _region := _region b; _id := _id b;
     _path := _path b; _subjects := _subjects b; _spec := f (_spec b) |}.

Definition update_spec (f : Spec -> Spec) : M State unit :=
  modify (fun s => set_self (with_spec f (self s)) s).

(** Operations on the connection of the request. *)
Definition on_client {A} (m : M Connection A) : M State A :=
  zoom client set_client m.

(** [get_directory_size(self._path)] of c9/buckets/utils.py: the sizes of
    the regular files below the directory, added up. *)
Definition get_directory_size (d : gmap str bytes) : Z :=
  map_fold (fun _ c total_size => total_size + len c) 0 d.

(** [Bucket.spec_message] *)
Definition spec_message (b : Bucket) : str :=
  str_of_int (files_count (_spec b)) ++ of_string " "
  ++ str_of_int (available_space (_spec b)) ++ of_string " "
  ++ str_of_int (used_space (_spec b)).

(** [for host, port in self._subjects] with a body that connects to the
    subject and sends it [message]: a subject that does not listen, or a
    message that cannot be encoded, raises and ends the loop. *)
Fixpoint send_to_each (message : str) (subjects : list (str * Z))
    : M State unit :=
  match subjects with
  | [] => mret tt
  | (host, port) :: later =>
      up ← gets (fun s => listening s host port);
      if up : bool then
        _ ← or_raise UnicodeError (encode message);
        modify (fun s => set_pushed (pushed s ++ [(host, port, message)]) s);;
        send_to_each message later
      else raise OSError
  end.

(** [Bucket.try_update]: one [update] message to every subject. *)
Definition try_update : M State unit :=
  b ← gets self;
  send_to_each (of_string "update " ++ _id b ++ of_string " "
                ++ spec_message b)
               (_subjects b).

(** [args[0]] *)
Definition first_arg (args : list str) : M State str :=
  or_raise IndexError (head args).

(** [Bucket.handle_get] *)
Definition handle_get (args : list str) : M State StatusCode :=
  filename ← first_arg args;
  let path := target filename in
  found ← on_files (path_exists path);
  if found : bool then
    content ← on_files (read_bytes path);
    let status := OK in
    on_client (send_str (StatusCode_value status));;
    on_client (send_str (filename ++ of_string " " ++ str_of_int (len content)));;
    on_client (send content);;
    mret status
  else
    let status := NOT_FOUND in
    on_client (send_str (StatusCode_value status));;
    mret status.

(** [Bucket.handle_put] *)
Definition handle_put (args : list str) : M State StatusCode :=
  filename ← first_arg args;
  content ← on_client receive;
  avail ← gets (fun s => available_space (_spec (self s)));
  if len content >? avail then
    let status := INSUFFICIENT_SPACE in
    on_client (send_str (StatusCode_value status));;
    mret status
  else
    let path := target filename in
    on_files (write_bytes path content);;
    update_spec (fun sp =>
      {| files_count := files_count sp;
         available_space := available_space sp - len content;
         used_space := used_space sp |});;
    d ← gets disk;
    update_spec (fun sp =>
      {| files_count := files_count sp;
         available_space := available_space sp;
         used_space := get_directory_size d |});;
    update_spec (fun sp =>
      {| files_count := files_count sp + 1;
         available_space := available_space sp;
         used_space := used_space sp |});;
    let status := OK in
    on_client (send_str (StatusCode_value status));;
    mret status.

(** [Bucket.handle_delete] *)
Definition handle_delete (args : list str) : M State StatusCode :=
  filename ← first_arg args;
  let path := target filename in
  found ← on_files (path_exists path);
  if found : bool then
    size ← on_files (st_size path);
    update_spec (fun sp =>
      {| files_count := files_count sp;
         available_space := available_space sp + size;
         used_space := used_space sp |});;
    on_files (unlink path);;
    let status := OK in
    on_client (send_str (StatusCode_value OK));;
    mret status
  else
    let status := NOT_FOUND in
    on_client (send_str (StatusCode_value NOT_FOUND));;
    mret status.

(** [Bucket.handle_list] *)
Definition handle_list (_ : list str) : M State StatusCode :=
  d ← gets disk;
  let files := (map_to_list d).*1 in
  let status := OK in
  on_client (send_str (StatusCode_value status));;
  on_client (send_str (join (of_string " ") files));;
  mret status.

(** [Bucket.handle_spec] *)
Definition handle_spec (_ : list str) : M State StatusCode :=
  let status := OK in
  on_client (send_str (StatusCode_value status));;
  b ← gets self;
  on_client (send_str (spec_message b));;
  mret status.

(** [getattr(self, f"handle_{name}")]: the five methods of that prefix. *)
Definition getattr_handle (name : str)
    : option (list str -> M State StatusCode) :=
  if decide (name = of_string "get") then Some handle_get
  else if decide (name = of_string "put") then Some handle_put
  else if decide (name = of_string "delete") then Some handle_delete
  else if decide (name = of_string "list") then Some handle_list
  else if decide (name = of_string "spec") then Some handle_spec
  else None.

(** [command, *args = line]; [split] never returns the empty list. *)
Definition unpack (parts : list str) : str * list str :=
  match parts with
  | command :: args => (command, args)
  | [] => ([], [])
  end.

(** The body of [with client_connection.accept() as client] in
    [Bucket.run]. *)
Definition serve : M State StatusCode :=
  data ← on_client receive;
  text ← or_raise UnicodeError (decode data);
  let '(command, args) := unpack (split SPACE (strip text)) in
  handler ← or_raise AttributeError (getattr_handle (lower command));
  handler args.

(** [with ... as client: body]: the connection is closed on every way out
    and an exception of the body goes on. *)
Definition with_client {A} (body : M State A) : M State A := fun s =>
  let '(s', r) := body s in ((on_client close s').1, r).

(** One turn of the [while True] of [Bucket.run] on the accepted
    connection. *)
Definition run_once (accepted : Connection) : M State unit :=
  modify (set_client accepted);;
  with_client serve;;
  try_update.

(** [Bucket.run] on the connections that arrive, in order.  The loop has no
    exit of its own: it serves every connection, or an exception ends it. *)
Fixpoint run (arrivals : list Connection) : M State unit :=
  match arrivals with
  | [] => mret tt
  | accepted :: later => run_once accepted;; run later
  end.

End Node.
Import Node.

(* ===================================================================== *)
(** ** Python dictionaries                                                *)
(* ===================================================================== *)

Module Dict.

(** A [dict] with string keys: the items in insertion order, no key
    twice. *)
Definition dict (V : Type) : Type := list (str * V).

(** [d.get(k)]; [None] where [d[k]] raises [KeyError]. *)
Fixpoint get {V} (k : str) (d : dict V) : option V :=
  match d with
  | [] => None
  | (k', v) :: d' => if decide (k = k') then Some v else get k d'
  end.

(** [d[k] = v]: a present key keeps its place, a new key goes last. *)
Fixpoint set {V} (k : str) (v : V) (d : dict V) : dict V :=
  match d with
  | [] => [(k, v)]
  | (k', v') :: d' =>
      if decide (k = k') then (k, v) :: d' else (k', v') :: set k v d'
  end.

(** [d.pop(k, None)] *)
Fixpoint pop {V} (k : str) (d : dict V) : dict V :=
  match d with
  | [] => []
  | (k', v') :: d' => if decide (k = k') then d' else (k', v') :: pop k d'
  end.

(** [list(d.values())] *)
Definition values {V} (d : dict V) : list V := d.*2.

End Dict.

(* ===================================================================== *)
(** ** c9/manager/server.py                                               *)
(* ===================================================================== *)

Module Server.

Definition row (l : list (string * Z)) : Dict.dict Z :=
  List.map (fun '(k, v) => (of_string k, v)) l.

Definition DISTANCE_MATRIX : Dict.dict (Dict.dict Z) :=
  [ (of_string "us-east",
      row [("us-west", 2500); ("eu", 4000); ("asia", 7000);
           ("latin-america", 1500); ("africa", 6000); ("australia", 9000)]%string);
    (of_string "us-west",
      row [("us-east", 2500); ("eu", 3500); ("asia", 6500);
           ("latin-america", 2000); ("africa", 5500); ("australia", 8500)]%string);
    (of_string "eu",
      row [("us-east", 4000); ("us-west", 3500); ("asia", 6000);
           ("latin-america", 5000); ("africa", 2000); ("australia", 8000)]%string);
    (of_string "asia",
      row [("us-east", 7000); ("us-west", 6500); ("eu", 6000);
           ("latin-america", 11000); ("africa", 5000); ("australia", 3000)]%string);
    (of_string "latin-america",
      row [("us-east", 1500); ("us-west", 2000); ("eu", 5000);
           ("asia", 11000); ("africa", 4000); ("australia", 12000)]%string);
    (of_string "africa",
      row [("us-east", 6000); ("us-west", 5500); ("eu", 2000);
           ("asia", 5000); ("latin-america", 4000); ("australia", 7000)]%string);
    (of_string "australia",
      row [("us-east", 9000); ("us-west", 8500); ("eu", 8000);
           ("asia", 3000); ("latin-america", 12000); ("africa", 7000)]%string) ].

(** [DISTANCE_MATRIX[a][b]]; [None] where either subscript raises
    [KeyError]. *)
Definition distance (a b : Region) : option Z :=
  match Dict.get a DISTANCE_MATRIX with
  | Some r => Dict.get b r
  | None => None
  end.

Record Context : Type := mkContext {
  region : Region;
  buckets : list Client;
  connection : Connection;
}.

Definition set_connection (c : Connection) (ctx : Context) : Context :=
  {| region := region ctx; buckets := buckets ctx; connection := c |}.

(** A [Response]; its [context] is the one of the handler that built it. *)
Record Response : Type := mkResponse {
  status : Status;
  content_type : ContentType;
  data : option bytes;
}.

(** [if self.data]: neither [None] nor the empty byte string. *)
Definition truthy (d : option bytes) : option bytes :=
  match d with
  | Some (b :: bs) => Some (b :: bs)
  | _ => None
  end.

(** [Response.send] on the connection of its context. *)
Definition Response_send (r : Response) : M Connection unit :=
  send_chunk (Status_value (status r));;
  send_chunk (ContentType_value (content_type r));;
  match truthy (data r) with
  | Some d => send d
  | None => mret tt
  end.

End Server.
Import Server.

(* ===================================================================== *)
(** ** c9/manager/handlers.py                                             *)
(* ===================================================================== *)

Module Handlers.

(** The storage nodes as a handle reaches them: what the successive
    [receive] calls of [Client.put] and [Client.get] return for a request,
    or the socket error that ends the exchange. *)
Record Remote : Type := mkRemote {
  put_reply : Client -> File -> result (list bytes);
  get_reply : Client -> str -> result (list bytes);
}.

(** What a handler runs in: its context, the PUT requests issued to the
    storage nodes (handle and file, in order), and the names appended to
    the [files] of a handle (handle id and name). *)
Record World : Type := mkWorld {
  context : Context;
  requests : list (Client * File);
  appended : list (str * str);
}.

Definition set_context (c : Context) (w : World) : World :=
  {| context := c; requests := requests w; appended := appended w |}.

Definition on_connection {A} (m : M Connection A) : M World A :=
  zoom (fun w => connection (context w))
       (fun c w => set_context (set_connection c (context w)) w) m.

Definition decoded (b : option bytes) : M World str :=
  text ← or_raise UnicodeError (decode (default [] b));
  mret (strip text).

(** [Client.put] *)
Definition Client_put (remote : Remote) (self : Client) (file : File)
    : M World unit :=
  modify (fun w => {| context := context w;
                      requests := requests w ++ [(self, file)];
                      appended := appended w |});;
  replies ← (fun w => (w, put_reply remote self file));
  status ← decoded (replies !! 0%nat);
  if decide (status = StatusCode_value OK) then
    modify (fun w => {| context := context w; requests := requests w;
                        appended := appended w ++ [(id self, name file)] |})
  else
    _ ← decoded (replies !! 1%nat);
    raise RuntimeError.

(** [Client.get] *)
Definition Client_get (remote : Remote) (self : Client) (filename : str)
    : M World File :=
  replies ← (fun w => (w, get_reply remote self filename));
  status ← decoded (replies !! 0%nat);
  if decide (status = StatusCode_value OK) then
    line ← decoded (replies !! 1%nat);
    match split SPACE line with
    | [name; _] =>
        let content := default [] (replies !! 2%nat) in
        modify (fun w => {| context := context w; requests := requests w;
                            appended := appended w ++ [(id self, name)] |});;
        mret {| name := name; content := content |}
    | _ => raise ValueError
    end
  else if decide (status = StatusCode_value NOT_FOUND) then
    raise NotFoundError
  else
    _ ← decoded (replies !! 1%nat);
    raise RuntimeError.

(** The keyword arguments a [select_bucket] is called with. *)
Record Kwargs : Type := mkKwargs {
  kw_size : option Z;
  kw_filename : option str;
}.

(** [Handler.parse_parameters]; [args] and [kwargs] are what the loop has
    collected so far. *)
Fixpoint parse_parameters_from (args : list str) (kwargs : Dict.dict str)
    (parameters : list str) : result (list str * Dict.dict str) :=
  match parameters with
  | [] => Ok (args, kwargs)
  | parameter :: later =>
      if contains 61%N parameter then
        match split 61%N parameter with
        | [key; value] =>
            parse_parameters_from args (Dict.set key value kwargs) later
        | _ => Raise ValueError
        end
      else parse_parameters_from (args ++ [parameter]) kwargs later
  end.

Definition parse_parameters (parameters : list str)
    : result (list str * Dict.dict str) :=
  parse_parameters_from [] [] parameters.

(** [UploadHandler.get_bucket_available_space] *)
Definition get_bucket_available_space (bucket : Client) : Z :=
  match spec bucket with
  | None => 0
  | Some s => available_space s
  end.

(** *** [sorted(items, key=...)]

    The keys are computed first, one call per item in list order, and an
    exception of a call ends the sort; the items are then put in ascending
    key order, items of equal key in their original order.  A stable sort
    is determined by that, so insertion stands for the one of the
    interpreter. *)

Fixpoint keyed {A} (key : A -> option Z) (items : list A)
    : option (list (Z * A)) :=
  match items with
  | [] => Some []
  | x :: rest =>
      match key x, keyed key rest with
      | Some k, Some ks => Some ((k, x) :: ks)
      | _, _ => None
      end
  end.

Fixpoint insert {A} (x : Z * A) (l : list (Z * A)) : list (Z * A) :=
  match l with
  | [] => [x]
  | y :: l' => if x.1 <=? y.1 then x :: y :: l' else y :: insert x l'
  end.

Definition sort_keyed {A} (l : list (Z * A)) : list (Z * A) :=
  foldr insert [] l.

Definition sorted {A} (items : list A) (key : A -> option Z)
    : option (list A) :=
  match keyed key items with
  | Some ks => Some (sort_keyed ks).*2
  | None => None
  end.

(** [UploadHandler.select_bucket] *)
Definition UploadHandler_select_bucket (ctx : Context) (buckets : list Client)
    (kwargs : Kwargs) : result (option Client) :=
  match kw_size kwargs with
  | None => Raise ValueError
  | Some size =>
      let available_buckets :=
        List.filter (fun bucket => get_bucket_available_space bucket >=? size)
                    buckets in
      match available_buckets with
      | [] => Ok None
      | _ =>
          match sorted available_buckets
                       (fun bucket => distance (region ctx) (Api.region bucket)) with
          | Some (first :: _) => Ok (Some first)
          | Some [] => Raise IndexError
          | None => Raise KeyError
          end
      end
  end.

(** [for bucket in [main_bucket, backup_bucket]: if isinstance(...)] *)
Fixpoint put_each (remote : Remote) (targets : list (option Client))
    (file : File) : M World unit :=
  match targets with
  | [] => mret tt
  | Some bucket :: later =>
      Client_put remote bucket file;; put_each remote later file
  | None :: later => put_each remote later file
  end.

(** The [try] block of [UploadHandler._handle]. *)
Definition UploadHandler_body (remote : Remote) (filename : str)
    : M World Response :=
  content ← on_connection receive;
  ctx ← gets context;
  main ← (fun w => (w, UploadHandler_select_bucket ctx (buckets ctx)
                         {| kw_size := Some (len content);
                            kw_filename := None |}));
  main_bucket ← or_raise RuntimeError main;
  backup_bucket ← (fun w =>
    (w, UploadHandler_select_bucket ctx
          (List.filter (fun bucket => bool_decide (id bucket ≠ id main_bucket))
                       (buckets ctx))
          {| kw_size := Some (len content); kw_filename := Some filename |}));
  put_each remote [Some main_bucket; backup_bucket]
           {| name := filename; content := content |};;
  mret {| status := Status_OK; content_type := NO_CONTENT; data := None |}.

(** [UploadHandler._handle(self, _, filename)]: the response and the
    exception that was caught, if any. *)
Definition UploadHandler_handle (remote : Remote) (_ filename : str)
    : M World (Response * option exn) :=
  try_except
    (r ← UploadHandler_body remote filename; mret (r, None))
    (fun error =>
       mret ({| status := Status_ERROR; content_type := NO_CONTENT;
                data := None |}, Some error)).

(** [DownloadHandler.select_bucket] *)
Definition DownloadHandler_select_bucket (buckets : list Client)
    (kwargs : Kwargs) : result (option Client) :=
  match kw_filename kwargs with
  | None => Raise ValueError
  | Some filename =>
      Ok (List.find (fun bucket => bool_decide (filename ∈ files bucket))
                    buckets)
  end.

(** [DownloadHandler._handle(self, filename)] *)
Definition DownloadHandler_handle (remote : Remote) (filename : str)
    : M World (Response * option exn) :=
  try_except
    (ctx ← gets context;
     found ← (fun w => (w, DownloadHandler_select_bucket (buckets ctx)
                             {| kw_size := None;
                                kw_filename := Some filename |}));
     bucket ← or_raise NotFoundError found;
     file ← Client_get remote bucket filename;
     mret ({| status := Status_OK; content_type := BYTES;
              data := Some (content file) |}, None))
    (fun error =>
       match error with
       | NotFoundError =>
           mret ({| status := Status_NOT_FOUND; content_type := NO_CONTENT;
                    data := None |}, None)
       | _ =>
           mret ({| status := Status_ERROR; content_type := TEXT_PLAIN;
                    data := encode (of_string "Unknown error") |}, Some error)
       end).

(** The classes [HandlerRegistry] holds, under their [name]. *)
Inductive HandlerClass : Type := UploadHandler | DownloadHandler.

Definition handlers : Dict.dict HandlerClass :=
  [ (of_string "upload", UploadHandler);
    (of_string "download", DownloadHandler) ].

(** [HandlerRegistry.get] *)
Definition HandlerRegistry_get (command : str) : option HandlerClass :=
  Dict.get command handlers.

End Handlers.
Import Handlers.

(* ===================================================================== *)
(** ** c9/buckets/api.py: the registry                                    *)
(* ===================================================================== *)

Module Registry.

(** [class Observer(Protocol)]: each method runs on the observer's own
    state and may raise. *)
Class Observer (O : Type) : Type := {
  registered : Client -> M O unit;
  unregistered : str -> M O unit;
  updated : str -> Spec -> M O unit;
}.

(** A call of an observer method. *)
Inductive Call : Type :=
| Registered (client : Client)
| Unregistered (id : str)
| Updated (id : str) (spec : Spec).

Definition invoke {O} `{Observer O} (c : Call) : M O unit :=
  match c with
  | Registered client => registered client
  | Unregistered i => unregistered i
  | Updated i sp => updated i sp
  end.

(** The state of a [Subject] turn: the subscribed observers in
    subscription order, the accepted connection, and the observer calls
    made so far (position of the observer in [_observers], call). *)
Record State (O : Type) : Type := mkState {
  _observers : list O;
  bucket_server : Connection;
  calls : list (nat * Call);
}.
Arguments mkState {O}.
Arguments _observers {O}.
Arguments bucket_server {O}.
Arguments calls {O}.

(** [Subject.subscribe] *)
Definition subscribe {O} (observer : O) (s : State O) : State O :=
  {| _observers := _observers s ++ [observer];
     bucket_server := bucket_server s; calls := calls s |}.

(** [for observer in self._observers: body], from position [i] on: [arg]
    is the part of the body that builds the argument, evaluated once per
    observer, and the call follows. *)
Fixpoint for_observers {O} `{Observer O} (i : nat) (arg : result Call)
    (observers : list O) : list O * list (nat * Call) * result unit :=
  match observers with
  | [] => ([], [], Ok tt)
  | observer :: later =>
      match arg with
      | Raise e => (observer :: later, [], Raise e)
      | Ok c =>
          match invoke c observer with
          | (observer', Ok _) =>
              let '(later', cs, r) := for_observers (S i) arg later in
              (observer' :: later', (i, c) :: cs, r)
          | (observer', Raise e) => (observer' :: later, [(i, c)], Raise e)
          end
      end
  end.

Definition notify {O} `{Observer O} (arg : result Call) : M (State O) unit :=
  fun s =>
    let '(observers, cs, r) := for_observers 0 arg (_observers s) in
    ({| _observers := observers; bucket_server := bucket_server s;
        calls := calls s ++ cs |}, r).

Definition to_int (s : str) : result Z :=
  match int s with Some n => Ok n | None => Raise ValueError end.

(** The spec dictionary built from three fields. *)
Definition spec_of (files_count available_space used_space : str)
    : result Spec :=
  match to_int files_count, to_int available_space, to_int used_space with
  | Ok f, Ok a, Ok u =>
      Ok {| files_count := f; available_space := a; used_space := u |}
  | Raise e, _, _ | Ok _, Raise e, _ | Ok _, Ok _, Raise e => Raise e
  end.

(** The handle built for a [register] event; its path is [Path(path)],
    which holds the text in its normal form. *)
Definition handle_of (id host port region path files_count available_space
    used_space : str) : result Call :=
  match to_int port with
  | Raise e => Raise e
  | Ok p =>
      let client := Client_init host p (normal path) id region in
      match spec_of files_count available_space used_space with
      | Ok sp => Ok (Registered (set_spec sp client))
      | Raise e => Raise e
      end
  end.

(** [match command] of [Subject.listen]. *)
Definition dispatch {O} `{Observer O} (command : str) (args : list str)
    : M (State O) unit :=
  if decide (command = of_string "register") then
    match args with
    | [id; host; port; region; path; files_count; available_space; used_space] =>
        notify (handle_of id host port region path
                          files_count available_space used_space)
    | _ => raise ValueError
    end
  else if decide (command = of_string "unregister") then
    match args with
    | id :: _ => notify (Ok (Unregistered id))
    | [] => raise IndexError
    end
  else if decide (command = of_string "update") then
    match args with
    | [id; files_count; available_space; used_space] =>
        notify (match spec_of files_count available_space used_space with
                | Ok sp => Ok (Updated id sp)
                | Raise e => Raise e
                end)
    | _ => raise ValueError
    end
  else mret tt.

Definition on_bucket_server {O A} (m : M Connection A) : M (State O) A :=
  zoom bucket_server
       (fun c s => {| _observers := _observers s; bucket_server := c;
                      calls := calls s |}) m.

(** One turn of the [while True] of [Subject.listen] on the accepted
    connection, which is closed on every way out. *)
Definition listen_once {O} `{Observer O} (accepted : Connection)
    : M (State O) unit :=
  fun s0 =>
    let s := {| _observers := _observers s0; bucket_server := accepted;
                calls := calls s0 |} in
    let '(s', r) :=
      (data ← on_bucket_server receive;
       text ← or_raise UnicodeError (decode data);
       let '(command, args) := unpack (split SPACE (strip text)) in
       dispatch command args) s in
    ((on_bucket_server close s').1, r).

(** [Subject.listen] on the connections that arrive, in order; an
    exception of a turn ends the loop. *)
Fixpoint listen {O} `{Observer O} (arrivals : list Connection)
    : M (State O) unit :=
  match arrivals with
  | [] => mret tt
  | accepted :: later => listen_once accepted;; listen later
  end.

End Registry.
Import Registry.

(* ===================================================================== *)
(** ** c9/manager/__init__.py                                             *)
(* ===================================================================== *)

Module Mgr.

Definition REGION : Region := of_string "latin-america".

Record Manager : Type := mkManager {
  _host : str;
  _port : Z;
  _buckets : Dict.dict Client;
}.

Definition set_buckets (b : Dict.dict Client) (m : Manager) : Manager :=
  {| _host := _host m; _port := _port m; _buckets := b |}.

(** [Manager.registered] *)
Definition Manager_registered (bucket : Client) : M Manager unit :=
  modify (fun m => set_buckets (Dict.set (id bucket) bucket (_buckets m)) m).

(** [Manager.unregistered] *)
Definition Manager_unregistered (id : str) : M Manager unit :=
  modify (fun m => set_buckets (Dict.pop id (_buckets m)) m).

(** [Manager.updated] *)
Definition Manager_updated (id : str) (spec : Spec) : M Manager unit :=
  fun m =>
    match Dict.get id (_buckets m) with
    | Some bucket =>
        (set_buckets (Dict.set id (set_spec spec bucket) (_buckets m)) m, Ok tt)
    | None => (m, Raise KeyError)
    end.

#[global] Instance Manager_Observer : Observer Manager := {|
  registered := Manager_registered;
  unregistered := Manager_unregistered;
  updated := Manager_updated;
|}.

(** A started handler thread: the handler class, its context and the
    arguments of the call. *)
Record Job : Type := mkJob {
  handler_class : HandlerClass;
  job_context : Context;
  job_args : list str;
  job_kwargs : Dict.dict str;
}.

(** The state of the accept loop: the manager, the threads started, the
    errors logged by the [except] clause, and the connections of the turns
    that ended in it, as they were left. *)
Record State : Type := mkState {
  self : Manager;
  started : list Job;
  logged : list exn;
  left_behind : list Connection;
}.

(** The [try] block of [Manager.run]. *)
Definition dispatch (m : Manager) : M Connection Job :=
  data ← receive;
  text ← or_raise UnicodeError (decode data);
  let '(command, parameters) := unpack (split SPACE (strip text)) in
  handler_class ← or_raise RuntimeError (HandlerRegistry_get command);
  '(args, kwargs) ← (fun c => (c, parse_parameters parameters));
  server ← gets (fun c => c);
  mret {| handler_class := handler_class;
          job_context := {| region := REGION;
                            buckets := Dict.values (_buckets m);
                            connection := server |};
          job_args := args; job_kwargs := kwargs |}.

(** One turn of the [while True] of [Manager.run] on the accepted
    connection [server]. *)
Definition run_once (server : Connection) (s : State) : State :=
  match dispatch (self s) server with
  | (_, Ok job) =>
      {| self := self s; started := started s ++ [job];
         logged := logged s; left_behind := left_behind s |}
  | (server', Raise e) =>
      {| self := self s; started := started s;
         logged := logged s ++ [e];
         left_behind := left_behind s ++ [server'] |}
  end.

(** [Manager.run] on the connections that arrive, in order. *)
Definition run (arrivals : list Connection) (s : State) : State :=
  foldl (fun s server => run_once server s) s arrivals.

(** The positional values that a call with [args] and [kwargs] unpacked
    binds to the parameters [params]; [None] is [TypeError]. *)
Definition bind_call (params : list str) (args : list str)
    (kwargs : Dict.dict str) : option (list str) :=
  let rest := drop (length args) params in
  if (length args <=? length params)%nat
     && forallb (fun kv => bool_decide (kv.1 ∈ rest)) kwargs
  then option_map (app args) (mapM (fun p => Dict.get p kwargs) rest)
  else None.

(** The call of the handler with [args] and [kwargs] unpacked. *)
Definition call_handler (remote : Remote) (job : Job)
    : M World (Response * option exn) :=
  match handler_class job with
  | UploadHandler =>
      match bind_call [of_string "_"; of_string "filename"]
                      (job_args job) (job_kwargs job) with
      | Some [a; filename] => UploadHandler_handle remote a filename
      | _ => raise TypeError
      end
  | DownloadHandler =>
      match bind_call [of_string "filename"] (job_args job) (job_kwargs job) with
      | Some [filename] => DownloadHandler_handle remote filename
      | _ => raise TypeError
      end
  end.

(** The [wrapper] of [Manager.thread_wrapper], run by the thread. *)
Definition send_and_close (response : Response) : M World unit := fun w =>
  let '(w', _) := on_connection (Response_send response) w in
  on_connection close w'.

Definition wrapper (remote : Remote) (job : Job) : M World unit :=
  '(response, error) ← call_handler remote job;
  send_and_close response.

(** The run of a started thread from its context. *)
Definition thread (remote : Remote) (job : Job) : World * result unit :=
  wrapper remote job
    {| context := job_context job; requests := []; appended := [] |}.

End Mgr.

(* ===================================================================== *)
(** ** Vocabulary of the statements                                       *)
(* ===================================================================== *)

(** Code points that [encode] accepts. *)
Definition encodable (s : str) : Prop :=
  Forall (fun c => is_Some (encode_char c)) s.

(** What one [receive] returns on an open connection. *)
Definition received (c : Connection) : bytes :=
  take (Z.to_nat CHUNK_SIZE) (hd [] (pending (incoming c))).

(** Everything the peer has sent and this end has not read. *)
Definition unread (c : Connection) : bytes := concat (incoming c).

(** The octets of a status line. *)
Definition status_bytes (st : StatusCode) : bytes :=
  default [] (encode (StatusCode_value st)).

Definition avail (s : Node.State) : Z := available_space (_spec (self s)).
Definition count (s : Node.State) : Z := files_count (_spec (self s)).

(** The state after a PUT that stored [content] as the entry [name] of
    the directory and answered on [c]. *)
Definition stored (s : Node.State) (name : str) (content : bytes)
    (c : Connection) : Node.State :=
  let d := <[name := content]> (disk s) in
  {| self := with_spec (fun _ =>
               {| files_count := count s + 1;
                  available_space := avail s - len content;
                  used_space := get_directory_size d |}) (self s);
     disk := d;
     client := set_sent (sent c ++ [status_bytes OK]) c;
     pushed := pushed s;
     outside := outside s;
     dir_size := dir_size s;
     listening := listening s |}.

(** The line that precedes the content in the answer to a GET. *)
Definition metadata (filename : str) (content : bytes) : bytes :=
  default [] (encode (filename ++ of_string " " ++ str_of_int (len content))).

(** The regular file that a file name denotes for the node, in its
    directory or outside of it, if there is one. *)
Definition file_at (s : Node.State) (filename : str) : option bytes :=
  match target filename with
  | Entry name => disk s !! name
  | Outside key => outside s !! key
  | _ => None
  end.

Definition is_ascii (s : str) : Prop := Forall (fun c => (c < 128)%N) s.

(** The first item of least key. *)
Fixpoint first_min {A} (l : list (Z * A)) : option (Z * A) :=
  match l with
  | [] => None
  | x :: l' =>
      match first_min l' with
      | Some m => if x.1 <=? m.1 then Some x else Some m
      | None => Some x
      end
  end.

(** The buckets that have room for [size] bytes, in list order. *)
Definition candidates (size : Z) (buckets : list Client) : list Client :=
  List.filter (fun bucket => get_bucket_available_space bucket >=? size) buckets.

(** Every bucket of [l] has an entry in the row of [ctx]'s region. *)
Definition reachable (ctx : Context) (l : list Client) : Prop :=
  Forall (fun b => is_Some (distance (region ctx) (Api.region b))) l.

(** [b] is the first bucket of [l] at the least distance from [from]. *)
Definition nearest (from : Region) (l : list Client) (b : Client) : Prop :=
  exists d before after,
    l = before ++ b :: after
    /\ distance from (Api.region b) = Some d
    /\ Forall (fun y => exists d', distance from (Api.region y) = Some d' /\ d < d')
              before
    /\ Forall (fun y => exists d', distance from (Api.region y) = Some d' /\ d <= d')
              after.

Definition for_size (size : Z) : Kwargs :=
  {| kw_size := Some size; kw_filename := None |}.

(** The placement claim as the specification words it: with no candidate
    the selection is [None], otherwise it is the nearest candidate. *)
Definition placement_as_stated (ctx : Context) (buckets : list Client)
    (size : Z) : Prop :=
  match candidates size buckets with
  | [] => UploadHandler_select_bucket ctx buckets (for_size size) = Ok None
  | _ => exists b,
           UploadHandler_select_bucket ctx buckets (for_size size) = Ok (Some b)
           /\ nearest (region ctx) (candidates size buckets) b
  end.

(** Whether the exchange of [Client.put] ends with the status OK. *)
Definition put_succeeds (remote : Remote) (b : Client) (f : File) : bool :=
  match put_reply remote b f with
  | Ok replies =>
      match decode (default [] (replies !! 0%nat)) with
      | Some text => bool_decide (strip text = StatusCode_value OK)
      | None => false
      end
  | Raise _ => false
  end.

(** What [handle] leaves behind when it has issued [new] requests and
    appended [names]. *)
Definition after (w : World) (c : Connection) (new : list (Client * File))
    (names : list (str * str)) : World :=
  {| context := set_connection c (context w);
     requests := requests w ++ new;
     appended := appended w ++ names |}.

Definition ok_response : Response :=
  {| status := Status_OK; content_type := NO_CONTENT; data := None |}.
Definition error_response : Response :=
  {| status := Status_ERROR; content_type := NO_CONTENT; data := None |}.

(** The requests of the loop over the primary and the backup. *)
Definition attempts (remote : Remote) (main : Client)
    (backup : option Client) (f : File)
    : list (Client * File) :=
  (main, f) ::
  match backup with
  | Some b => if put_succeeds remote main f then [(b, f)] else []
  | None => []
  end.

Definition all_stored (remote : Remote) (main : Client)
    (backup : option Client) (f : File)
    : bool :=
  put_succeeds remote main f
  && match backup with Some b => put_succeeds remote b f | None => true end.

(** The handle a [register] line with the given fields stands for: its
    path is [Path(path)]. *)
Definition handle_for (id host : str) (port : Z) (region path : str)
    (sp : Spec) : Client :=
  {| base_path := normal path; host := host; port := port;
     Api.region := region; id := id; files := []; spec := Some sp |}.

(** ** Sample inputs *)

Module Sample.

(** The octets of a text written in ASCII. *)
Definition ascii (s : string) : bytes := List.map byte_of (of_string s).

(** An open connection on which the given segments arrive. *)
Definition request (segments : list string) : Connection :=
  {| incoming := List.map ascii segments; sent := []; closed := false |}.

(** A storage node as [main] of c9/buckets creates it, before any
    request. *)
Definition bucket : Bucket :=
  Bucket_init (of_string ".data") (of_string "localhost") 3001
              (of_string "eu") (of_string "b1")
              [(of_string "localhost", 3000)].

(** The node on a connection: an empty directory, nothing known outside
    of it, and every registry listening. *)
Definition node (c : Connection) : Node.State :=
  {| self := bucket; disk := ∅; client := c; pushed := [];
     outside := ∅; dir_size := 4096; listening := fun _ _ => true |}.

(** The files of a client: [a.txt] of five bytes in the working
    directory, nothing known outside of it. *)
Definition volume : Volume :=
  {| inside := {[ of_string "a.txt" := ascii "hello" ]}; beyond := ∅;
     st_size_directory := 4096 |}.

End Sample.

Module SampleHandles.

(** A registered handle with the given id, region and free space. *)
Definition handle (i r : string) (room : Z) : Client :=
  set_spec {| files_count := 0; available_space := room; used_space := 0 |}
           (Client_init (of_string "localhost") 3001 (of_string "/data")
                        (of_string i) (of_string r)).

(** The scenario of the specification: three buckets with ample space, in
    [us-east], [eu] and [asia], seen from [latin-america]. *)
Definition three : list Client :=
  [ handle "a" "asia" DEFAULT_SPACE;
    handle "e" "eu" DEFAULT_SPACE;
    handle "u" "us-east" DEFAULT_SPACE ]%string.

Definition ctx (buckets : list Client) (c : Connection) : Context :=
  {| region := Mgr.REGION; buckets := buckets; connection := c |}.

Definition world (buckets : list Client) (c : Connection) : World :=
  {| context := ctx buckets c; requests := []; appended := [] |}.

(** Storage nodes that answer OK to every PUT. *)
Definition willing : Remote :=
  {| put_reply := fun _ _ => Ok [Sample.ascii "OK"];
     get_reply := fun _ _ => Ok [Sample.ascii "NOT_FOUND"] |}.

(** Storage nodes of which the one with the id [e] alone can be reached:
    it answers a GET with OK, a metadata line and five bytes. *)
Definition only_e : Remote :=
  {| put_reply := fun _ _ => Raise OSError;
     get_reply := fun b _ =>
       if decide (id b = of_string "e")
       then Ok [Sample.ascii "OK"; Sample.ascii "f 5"; Sample.ascii "hello"]
       else Raise OSError |}.

(** Three handles of which the second and the third list the file [f]. *)
Definition listing : list Client :=
  [ handle "a" "asia" 10;
    files_append (of_string "f") (handle "e" "eu" 10);
    files_append (of_string "f") (handle "u" "us-east" 10) ]%string.

(** A bucket in the region of the manager itself. *)
Definition home : Client := handle "h" "latin-america" DEFAULT_SPACE.

End SampleHandles.

Module SampleRegistry.

Definition manager : Mgr.Manager :=
  {| Mgr._host := of_string "localhost"; Mgr._port := 8000; Mgr._buckets := [] |}.

(** A registry with two managers subscribed. *)
Definition subject : Registry.State Mgr.Manager :=
  subscribe manager
    (subscribe manager
       {| _observers := []; bucket_server := Sample.request []; calls := [] |}).


(** A second manager, on another port. *)
Definition second : Mgr.Manager :=
  {| Mgr._host := of_string "localhost"; Mgr._port := 8001; Mgr._buckets := [] |}.


End SampleRegistry.

Definition fresh_manager : Mgr.State :=
  {| Mgr.self := SampleRegistry.manager; Mgr.started := [];
     Mgr.logged := []; Mgr.left_behind := [] |}.

(** ** Words and numbers on the wire *)

(** A text that neither starts nor ends with white space. *)
Definition trimmed (s : str) : Prop :=
  match s with [] => True | c :: _ => isspace c = false end
  /\ match rev s with [] => True | z :: _ => isspace z = false end.

(** A word: no space inside. *)
Definition word (s : str) : Prop := Forall (fun c => c <> SPACE) s.

Definition digit_chars (u : Decimal.uint) : str :=
  of_string (NilEmpty.string_of_uint u).

(** The value of a digit string read from the left, after [acc]. *)
Fixpoint horner (acc : Z) (u : Decimal.uint) : Z :=
  match u with
  | Decimal.Nil => acc
  | Decimal.D0 l => horner (10 * acc) l
  | Decimal.D1 l => horner (10 * acc + 1) l
  | Decimal.D2 l => horner (10 * acc + 2) l
  | Decimal.D3 l => horner (10 * acc + 3) l
  | Decimal.D4 l => horner (10 * acc + 4) l
  | Decimal.D5 l => horner (10 * acc + 5) l
  | Decimal.D6 l => horner (10 * acc + 6) l
  | Decimal.D7 l => horner (10 * acc + 7) l
  | Decimal.D8 l => horner (10 * acc + 8) l
  | Decimal.D9 l => horner (10 * acc + 9) l
  end.


(* ===================================================================== *)
(** ** c9/buckets/__init__.py: the events a storage node pushes           *)
(* ===================================================================== *)

Module Events.

(** The message of [Bucket.register]; [resolved] is the text of
    [self._path.resolve().as_posix()]. *)
Definition register_message (b : Bucket) (resolved : str) : str :=
  of_string "register " ++ _id b ++ of_string " " ++ _host b ++ of_string " "
  ++ str_of_int (_port b) ++ of_string " " ++ _region b ++ of_string " "
  ++ resolved ++ of_string " " ++ spec_message b.

(** The message of [Bucket.try_update]. *)
Definition update_message (b : Bucket) : str :=
  of_string "update " ++ _id b ++ of_string " " ++ spec_message b.

End Events.

(* ===================================================================== *)
(** ** c9/buckets/api.py: what a handle writes to its storage node        *)
(* ===================================================================== *)

Module Requests.

(** The command line of [Client.put]; the content follows in a send of
    its own. *)
Definition put_request (file : File) : str :=
  of_string "PUT " ++ name file ++ of_string " " ++ str_of_int (size file).

(** A connection on which the given frames arrive, each as a segment of
    its own. *)
Definition delivered (frames : list bytes) : Connection :=
  {| incoming := frames; sent := []; closed := false |}.

End Requests.

(* ===================================================================== *)
(** ** c9/commands.py: the commands of the client                         *)
(* ===================================================================== *)

Module Commands.



(** What a command runs in: its connection and the files that the
    process reaches from its working directory, all of which it may read
    and write. *)
Record Local : Type := mkLocal {
  client : Connection;
  files : Volume;
}.

Definition on_client {A} (m : M Connection A) : M Local A :=
  zoom client (fun c l => {| client := c; files := files l |}) m.

Definition on_files {A} (m : M Volume A) : M Local A :=
  zoom files (fun v l => {| client := client l; files := v |}) m.

(** [Command._prepare_header]; absent arguments and options are empty. *)
Definition prepare_header (name : str) (arguments : list str)
    (options : Dict.dict str) : str :=
  name ++ of_string " "
  ++ join (of_string " ")
          (arguments
           ++ List.map (fun '(key, value) => key ++ of_string "=" ++ value)
                       options).

(** [content_type != ContentType.NO_CONTENT] with a [str] on the left and
    an [Enum] member on the right: the two are never equal. *)
Definition differs (content_type : str) (member : ContentType) : bool := true.

(** [Command._receive_response] *)
Definition receive_response : M Connection (str * str * option bytes) :=
  status ← receive_chunk;
  content_type ← receive_chunk;
  if differs content_type NO_CONTENT then
    data ← receive;
    mret (status, content_type, Some data)
  else mret (status, content_type, None).






End Commands.

(* ===================================================================== *)
(** ** Vocabulary of the further statements                               *)
(* ===================================================================== *)

(** The seven regions of the distance table. *)
Definition regions : list (list N) :=
  List.map of_string
    ["us-east"; "us-west"; "eu"; "asia"; "latin-america"; "africa";
     "australia"]%string.

(** The frame [send_chunk] writes for a text of ASCII characters. *)
Definition chunk (content : str) : bytes :=
  List.map byte_of (ljust content CHUNK_SIZE).

(** The frames [Response.send] writes. *)
Definition response_frames (r : Response) : list bytes :=
  [chunk (Status_value (status r)); chunk (ContentType_value (content_type r))]
  ++ match truthy (data r) with Some d => [d] | None => [] end.

(** The value that the last parameter [key=value] of the list gives to
    [key], if there is such a parameter. *)
Fixpoint assigned (key : str) (parameters : list str) : option str :=
  match parameters with
  | [] => None
  | parameter :: later =>
      match assigned key later with
      | Some value => Some value
      | None =>
          match split 61%N parameter with
          | [k; value] => if decide (k = key) then Some value else None
          | _ => None
          end
      end
  end.

(** How often [sep] occurs in [s]. *)
Definition occurrences (sep : N) (s : str) : nat :=
  length (List.filter (fun c => (c =? sep)%N) s).

(** The parameters of [_handle] in a handler class, after [self]. *)
Definition parameters_of (h : HandlerClass) : list (list N) :=
  match h with
  | UploadHandler => [of_string "_"; of_string "filename"]
  | DownloadHandler => [of_string "filename"]
  end.

(** The values the call of a job binds to the parameters of its handler;
    [None] when the arguments do not fit them. *)
Definition bound (job : Mgr.Job) : option (list (list N)) :=
  Mgr.bind_call (parameters_of (Mgr.handler_class job))
                (Mgr.job_args job) (Mgr.job_kwargs job).

(** The world a started thread begins in. *)
Definition thread_start (job : Mgr.Job) : World :=
  {| context := Mgr.job_context job; requests := []; appended := [] |}.

(** What the manager holds: every handle under its own id, no id twice. *)
Definition well_keyed (m : Mgr.Manager) : Prop :=
  NoDup (Mgr._buckets m).*1
  /\ Forall (fun kc => id kc.2 = kc.1) (Mgr._buckets m).

(** The manager after the observer calls [cs], in order, a call that
    raises leaving it as it is. *)
Definition after_calls (cs : list Call) (m : Mgr.Manager) : Mgr.Manager :=
  foldl (fun m c => (invoke c m).1) m cs.

Definition not_found_response : Response :=
  {| status := Status_NOT_FOUND; content_type := NO_CONTENT; data := None |}.



(** The subjects that are reached when they are tried in order: those
    before the first that does not listen. *)
Fixpoint heard (listening : list N -> Z -> bool)
    (subjects : list (list N * Z)) : list (list N * Z) :=
  match subjects with
  | [] => []
  | (host, port) :: later =>
      if listening host port then (host, port) :: heard listening later
      else []
  end.

(** Whether every subject listens. *)
Definition all_listen (listening : list N -> Z -> bool)
    (subjects : list (list N * Z)) : bool :=
  forallb (fun '(host, port) => listening host port) subjects.

(** The update message of node [b], once to each of [subjects]. *)
Definition updates_to (b : Bucket) (subjects : list (list N * Z))
    : list (list N * Z * list N) :=
  List.map (fun '(h, p) => (h, p, Events.update_message b)) subjects.

(** What every handler keeps: it pushes nothing, leaves the identity, the
    subjects and the registries alone, keeps [available_space] from
    falling below zero and never lowers [files_count]. *)
Definition kept (s s' : Node.State) : Prop :=
  pushed s' = pushed s
  /\ _subjects (self s') = _subjects (self s)
  /\ _id (self s') = _id (self s)
  /\ listening s' = listening s
  /\ (0 <= avail s -> 0 <= avail s')
  /\ count s <= count s'.

(* ===================================================================== *)
(** * Properties                                                          *)
(* ===================================================================== *)

(** ** Text and connections *)

Section Encoding.

Lemma encodable_encode (s : str) : encodable s -> is_Some (encode s).
Proof.
  induction 1 as [|c s [bs Hc] _ [rest IH]]; simpl; [by eexists|].
  rewrite Hc, IH. by eexists.
Qed.

Lemma encode_encodable (s : str) : is_Some (encode s) -> encodable s.
Proof.
  induction s as [|c s IH]; simpl; intros [bs H]; [constructor|].
  destruct (encode_char c) eqn:Hc; [|discriminate].
  destruct (encode s) eqn:Hs; [|discriminate].
  constructor; [by eexists | apply IH; by eexists].
Qed.

Lemma encodable_app (s t : str) : encodable s -> encodable t -> encodable (s ++ t).
Proof. apply Forall_app_2. Qed.

(** Text written in the source, and the decimal form of a number, consist
    of code points below 256. *)
Lemma encodable_of_string (s : string) : encodable (of_string s).
Proof.
  unfold encodable, of_string. apply Forall_forall. intros c Hc.
  apply list_elem_of_In, in_map_iff in Hc as (b & <- & _).
  pose proof (Byte.to_N_bounded b) as Hb.
  unfold encode_char.
  destruct (N.ltb_spec (to_N b) 128); [by eexists|].
  destruct (N.ltb_spec (to_N b) 2048); [by eexists|lia].
Qed.

Lemma encode_char_scalar (c : N) :
  (c < 1114112)%N -> is_surrogate c = false -> is_Some (encode_char c).
Proof.
  intros Hc Hs. unfold encode_char. rewrite Hs.
  destruct (c <? 128)%N; [eauto|]. destruct (c <? 2048)%N; [eauto|].
  destruct (c <? 65536)%N; [eauto|].
  destruct (N.ltb_spec c 1114112); [eauto|lia].
Qed.

Ltac bounds :=
  repeat match goal with
         | H : _ && _ = true |- _ => apply andb_true_iff in H as [? ?]
         | H : negb _ = true |- _ => apply negb_true_iff in H
         | H : is_cont _ = true |- _ => unfold is_cont in H
         | H : (_ <=? _)%N = true |- _ => apply N.leb_le in H
         | H : (_ <? _)%N = true |- _ => apply N.ltb_lt in H
         | H : (_ <? _)%N = false |- _ => apply N.ltb_ge in H
         end.

(** Text decoded from the wire can be encoded again. *)
Lemma decode_N_encodable (n : nat) (bs : list N) (t : str) :
  (length bs <= n)%nat -> decode_N bs = Some t -> encodable t.
Proof.
  revert bs t. induction n as [|n IH]; intros [|b0 r0] t Hn; simpl in *;
    try (intros [= <-]; constructor); try lia.
  destruct (b0 <? 128)%N eqn:H0.
  { destruct (decode_N r0) as [t'|] eqn:Hd; intros [= <-].
    constructor; [|apply (IH r0); [lia|done]].
    apply encode_char_scalar; [bounds; lia|].
    unfold is_surrogate. bounds. apply andb_false_iff. left.
    apply N.leb_gt. lia. }
  destruct (b0 <? 194)%N eqn:H1; [discriminate|].
  destruct (b0 <? 224)%N eqn:H2.
  { destruct r0 as [|b1 r1]; [discriminate|].
    destruct (is_cont b1) eqn:Hc1; [|discriminate].
    destruct (decode_N r1) as [t'|] eqn:Hd; intros [= <-].
    constructor; [|apply (IH r1); [simpl in Hn; lia|done]].
    bounds. apply encode_char_scalar; [lia|].
    unfold is_surrogate. apply andb_false_iff. left. apply N.leb_gt. lia. }
  destruct (b0 <? 240)%N eqn:H3.
  { destruct r0 as [|b1 [|b2 r2]]; try discriminate.
    match goal with |- context [if ?g then _ else _] => destruct g eqn:Hg end;
      [|discriminate].
    destruct (decode_N r2) as [t'|] eqn:Hd; intros [= <-].
    constructor; [|apply (IH r2); [simpl in Hn; lia|done]].
    bounds. apply encode_char_scalar; [lia|done]. }
  destruct (b0 <? 245)%N eqn:H4; [|discriminate].
  destruct r0 as [|b1 [|b2 [|b3 r3]]]; try discriminate.
  match goal with |- context [if ?g then _ else _] => destruct g eqn:Hg end;
    [|discriminate].
  destruct (decode_N r3) as [t'|] eqn:Hd; intros [= <-].
  constructor; [|apply (IH r3); [simpl in Hn; lia|done]].
  bounds. apply encode_char_scalar; [lia|].
  unfold is_surrogate. apply andb_false_iff. right. apply N.leb_gt. lia.
Qed.

Lemma decode_encodable (b : bytes) (t : str) :
  decode b = Some t -> encodable t.
Proof. unfold decode. by apply (decode_N_encodable _ _ _ (le_n _)). Qed.

Lemma lstrip_encodable (s : str) : encodable s -> encodable (lstrip s).
Proof.
  induction 1 as [|c s Hc Hs IH]; simpl; [constructor|].
  destruct (isspace c); [done|by constructor].
Qed.

Lemma strip_encodable (s : str) : encodable s -> encodable (strip s).
Proof.
  intros Hs. unfold strip, rstrip.
  apply Forall_rev, lstrip_encodable, Forall_rev. by apply lstrip_encodable.
Qed.

Lemma split_encodable (sep : N) (s : str) :
  encodable s -> Forall encodable (split sep s).
Proof.
  induction 1 as [|c s Hc Hs IH]; simpl; [by repeat constructor|].
  destruct (c =? sep)%N; [by repeat constructor|].
  destruct (split sep s) as [|w ws]; [by repeat constructor|].
  apply Forall_cons in IH as [Hw Hws]. constructor; [by constructor|done].
Qed.

(** Every word of a command line that was decoded from the wire, the
    file name of a request among them, can be encoded. *)
Lemma command_line_encodable (data : bytes) (text : str) :
  decode data = Some text -> Forall encodable (split SPACE (strip text)).
Proof.
  intros Hd. by apply split_encodable, strip_encodable, (decode_encodable data).
Qed.

End Encoding.

Section Connections.

Lemma receive_closed (c : Connection) :
  closed c = true -> receive c = (c, Raise OSError).
Proof. intros H. unfold receive, recv. by rewrite H. Qed.

Lemma concat_pending (segments : list bytes) :
  concat (pending segments) = concat segments.
Proof.
  induction segments as [|[|b seg] later IH]; [done| |done]. exact IH.
Qed.

Lemma receive_open (c : Connection) :
  closed c = false ->
  exists c', receive c = (c', Ok (received c))
             /\ sent c' = sent c /\ closed c' = false
             /\ unread c = received c ++ unread c'.
Proof.
  intros H. unfold receive, recv, received, unread. rewrite H.
  rewrite <- (concat_pending (incoming c)).
  destruct (pending (incoming c)) as [|seg rest] eqn:Hin.
  - exists c. simpl. rewrite <- (concat_pending (incoming c)), Hin.
    by repeat split.
  - eexists. split; [reflexivity|]. simpl. repeat split; [done|].
    rewrite <- (take_drop (Z.to_nat CHUNK_SIZE) seg) at 1.
    rewrite <- app_assoc. f_equal.
    destruct (drop (Z.to_nat CHUNK_SIZE) seg); reflexivity.
Qed.

Lemma received_length (c : Connection) : len (received c) <= CHUNK_SIZE.
Proof.
  unfold received, len. rewrite length_take. unfold CHUNK_SIZE. lia.
Qed.

Lemma received_prefix (c : Connection) :
  closed c = false -> received c `prefix_of` unread c.
Proof.
  intros H. destruct (receive_open c H) as (c' & _ & _ & _ & ->).
  by eexists.
Qed.

Lemma sendall_open (c : Connection) (b : bytes) :
  closed c = false -> sendall b c = (set_sent (sent c ++ [b]) c, Ok tt).
Proof. intros H. unfold sendall. by rewrite H. Qed.

Lemma sendall_closed (c : Connection) (b : bytes) :
  closed c = true -> sendall b c = (c, Raise OSError).
Proof. intros H. unfold sendall. by rewrite H. Qed.

Lemma encode_status (st : StatusCode) :
  encode (StatusCode_value st) = Some (status_bytes st).
Proof. by destruct st. Qed.

Lemma send_status_open (c : Connection) (st : StatusCode) :
  closed c = false ->
  send_str (StatusCode_value st) c
  = (set_sent (sent c ++ [status_bytes st]) c, Ok tt).
Proof.
  intros H. unfold send_str, mbind, M_bind. rewrite encode_status. simpl.
  unfold mret, M_ret. by apply sendall_open.
Qed.

End Connections.

(** ** The storage node *)

Section StorageNode.

(** Unfold the plumbing of [M] in the goal, leaving the calls on the
    connection and the map operations in place. *)
Ltac exec :=
  cbv beta iota delta [mbind M_bind mret M_ret or_raise gets modify raise
                       first_arg update_spec on_client zoom head fst snd].

#[local] Arguments send_str : simpl never.
#[local] Arguments receive : simpl never.
#[local] Arguments StatusCode_value : simpl never.

(** Reading the files gives the state back as it was. *)
Lemma files_restored (s : Node.State) :
  set_outside (outside s) (set_disk (disk s) s) = s.
Proof. by destruct s. Qed.

Lemma files_exists (s : Node.State) (path : Target) :
  on_files (path_exists path) s
  = (s, match path with
        | Entry name => Ok (bool_decide (is_Some (disk s !! name)))
        | Directory => Ok true
        | Missing | Refused _ => Ok false
        | TooLong => Raise OSError
        | Outside key => Ok (bool_decide (is_Some (outside s !! key)))
        end).
Proof.
  unfold on_files, zoom.
  destruct path; cbn [path_exists volume inside beyond];
    by rewrite files_restored.
Qed.

(** The content of the regular file that a file name denotes, if it
    denotes one. *)
Lemma files_read (s : Node.State) (path : Target) (content : bytes) :
  match path with
  | Entry name => disk s !! name = Some content
  | Outside key => outside s !! key = Some content
  | _ => False
  end ->
  on_files (read_bytes path) s = (s, Ok content).
Proof.
  unfold on_files, zoom.
  destruct path; try done; cbn [read_bytes volume inside beyond];
    intros ->; cbn; by rewrite files_restored.
Qed.

Lemma files_write_entry (s : Node.State) (name : str) (content : bytes) :
  on_files (write_bytes (Entry name) content) s
  = (set_disk (<[name := content]> (disk s)) s, Ok tt).
Proof. by destruct s. Qed.

Lemma files_write_outside (s : Node.State) (key : str) (content : bytes) :
  on_files (write_bytes (Outside key) content) s
  = (set_outside (<[key := content]> (outside s)) s, Ok tt).
Proof. by destruct s. Qed.

Lemma handle_put_closed (s : Node.State) (filename : str) (rest : list str) :
  closed (client s) = true ->
  exists s', handle_put (filename :: rest) s = (s', Raise OSError).
Proof.
  intros H. unfold handle_put, mbind, M_bind, first_arg, or_raise; simpl.
  unfold mret, M_ret, on_client, zoom. rewrite (receive_closed _ H).
  by eexists.
Qed.

(** A PUT whose payload exceeds the space is rejected before the file
    name is looked at. *)
Lemma handle_put_rejected (s : Node.State) (filename : str) (rest : list str) :
  closed (client s) = false ->
  len (received (client s)) > avail s ->
  exists c, receive (client s) = (c, Ok (received (client s)))
    /\ sent c = sent (client s) /\ closed c = false
    /\ handle_put (filename :: rest) s
       = (set_client
            (set_sent (sent c ++ [status_bytes INSUFFICIENT_SPACE]) c) s,
          Ok INSUFFICIENT_SPACE).
Proof.
  intros H Hlen. destruct (receive_open _ H) as (c & Hr & Hs & Hc & Hu).
  exists c. repeat split; try done.
  unfold handle_put, mbind, M_bind, first_arg, or_raise; simpl.
  unfold mret, M_ret, on_client, zoom. rewrite Hr. unfold gets. simpl.
  fold (avail s).
  destruct (Z.gtb_spec (len (received (client s))) (avail s)); [|lia].
  simpl. rewrite (send_status_open c INSUFFICIENT_SPACE Hc). reflexivity.
Qed.

(** A PUT whose payload fits never replies INSUFFICIENT_SPACE: it replies
    OK, or the opening of the file raises. *)
Lemma handle_put_fits (s : Node.State) (filename : str) (rest : list str) :
  closed (client s) = false ->
  len (received (client s)) <= avail s ->
  (handle_put (filename :: rest) s).2 = Ok OK
  \/ exists e, (handle_put (filename :: rest) s).2 = Raise e.
Proof.
  intros H Hlen. destruct (receive_open _ H) as (c & Hr & Hs & Hc & Hu).
  unfold handle_put, mbind, M_bind, first_arg, or_raise; simpl.
  unfold mret, M_ret, on_client, zoom. rewrite Hr. unfold gets. simpl.
  fold (avail s).
  destruct (Z.gtb_spec (len (received (client s))) (avail s)); [lia|].
  destruct (target filename) as [name| | |e| |key].
  - rewrite files_write_entry. unfold modify, update_spec, modify. simpl.
    rewrite (send_status_open c OK Hc). by left.
  - right. by eexists.
  - right. by eexists.
  - right. by eexists.
  - right. by eexists.
  - rewrite files_write_outside. unfold modify, update_spec, modify. simpl.
    rewrite (send_status_open c OK Hc). by left.
Qed.

Lemma handle_put_open (s : Node.State) (filename name : str)
    (rest : list str) :
  closed (client s) = false ->
  target filename = Entry name ->
  exists c, receive (client s) = (c, Ok (received (client s)))
    /\ sent c = sent (client s) /\ closed c = false
    /\ unread (client s) = received (client s) ++ unread c
    /\ handle_put (filename :: rest) s =
       if len (received (client s)) >? avail s
       then (set_client
               (set_sent (sent c ++ [status_bytes INSUFFICIENT_SPACE]) c) s,
             Ok INSUFFICIENT_SPACE)
       else (stored s name (received (client s)) c, Ok OK).
Proof.
  intros H Ht. destruct (receive_open _ H) as (c & Hr & Hs & Hc & Hu).
  exists c. repeat split; try done.
  unfold handle_put, mbind, M_bind, first_arg, or_raise; simpl.
  unfold mret, M_ret, on_client, zoom. rewrite Hr. unfold gets. simpl.
  fold (avail s). destruct (len (received (client s)) >? avail s).
  - simpl. rewrite (send_status_open c INSUFFICIENT_SPACE Hc). reflexivity.
  - rewrite Ht, files_write_entry. unfold modify, update_spec, modify. simpl.
    rewrite (send_status_open c OK Hc). reflexivity.
Qed.

(** The regular file that a file name denotes for the node, if it denotes
    one that is there. *)
Lemma handle_put_OK (s s' : Node.State) (filename : str) (rest : list str) :
  handle_put (filename :: rest) s = (s', Ok OK) ->
  exists c, closed (client s) = false
    /\ sent c = sent (client s) /\ closed c = false
    /\ unread (client s) = received (client s) ++ unread c
    /\ len (received (client s)) <= avail s
    /\ avail s' = avail s - len (received (client s))
    /\ count s' = count s + 1
    /\ file_at s' filename = Some (received (client s))
    /\ client s' = set_sent (sent c ++ [status_bytes OK]) c
    /\ match target filename with
       | Entry name => s' = stored s name (received (client s)) c
       | Outside key => disk s' = disk s
       | _ => False
       end.
Proof.
  intros Hput. destruct (closed (client s)) eqn:Hcl.
  { destruct (handle_put_closed s filename rest Hcl) as [s1 H1]. congruence. }
  destruct (receive_open _ Hcl) as (c & Hr & Hs & Hc & Hu).
  exists c. revert Hput.
  unfold handle_put, mbind, M_bind, first_arg, or_raise; simpl.
  unfold mret, M_ret, on_client, zoom. rewrite Hr. unfold gets. simpl.
  fold (avail s).
  destruct (Z.gtb_spec (len (received (client s))) (avail s)).
  { simpl. rewrite (send_status_open c INSUFFICIENT_SPACE Hc). discriminate. }
  unfold file_at.
  destruct (target filename) as [name| | |e| |key]; try discriminate.
  - rewrite files_write_entry. unfold modify, update_spec, modify. simpl.
    rewrite (send_status_open c OK Hc). intros [= <-].
    repeat split; try done; try lia. simpl. apply lookup_insert_eq.
  - rewrite files_write_outside. unfold modify, update_spec, modify. simpl.
    rewrite (send_status_open c OK Hc). intros [= <-].
    repeat split; try done; try lia. simpl. apply lookup_insert_eq.
Qed.

Lemma encode_metadata (filename : str) (content : bytes) :
  encodable filename ->
  encode (filename ++ of_string " " ++ str_of_int (len content))
  = Some (metadata filename content).
Proof.
  intros Hf. unfold metadata.
  assert (encodable (filename ++ of_string " " ++ str_of_int (len content)))
    as He by (unfold str_of_int; repeat apply encodable_app;
               auto using encodable_of_string).
  by destruct (encodable_encode _ He) as [m ->].
Qed.

Lemma handle_get_found (s : Node.State) (filename : str) (rest : list str)
    (content : bytes) :
  closed (client s) = false -> encodable filename ->
  file_at s filename = Some content ->
  handle_get (filename :: rest) s
  = (set_client
       (set_sent (sent (client s)
                  ++ [status_bytes OK; metadata filename content; content])
                 (client s)) s,
     Ok OK).
Proof.
  intros Hc Hf Hd. unfold handle_get. exec.
  rewrite files_exists. unfold file_at in Hd.
  destruct (target filename) as [name| | |e| |key] eqn:Ht; try done;
    rewrite Hd, bool_decide_eq_true_2 by eauto;
    (rewrite (files_read s _ content) by (by rewrite ?Ht));
    cbn beta iota delta [client set_client];
    rewrite (send_status_open _ OK Hc);
    cbn beta iota delta [client set_client];
    unfold send_str at 1; exec; rewrite (encode_metadata _ _ Hf);
    rewrite sendall_open by done; cbn beta iota delta [client set_client];
    unfold send; rewrite sendall_open by done;
    unfold set_client, set_sent; simpl; by rewrite <- !app_assoc.
Qed.

(** A GET of a name that denotes an entry, or a path outside, at which
    there is no file: NOT_FOUND and nothing else. *)
Lemma handle_get_missing (s : Node.State) (filename : str) (rest : list str) :
  closed (client s) = false ->
  match target filename with
  | Entry _ | Outside _ => file_at s filename = None
  | Missing | Refused _ => True
  | _ => False
  end ->
  handle_get (filename :: rest) s
  = (set_client (set_sent (sent (client s) ++ [status_bytes NOT_FOUND])
                          (client s)) s,
     Ok NOT_FOUND).
Proof.
  intros Hc Hd. unfold handle_get. exec.
  rewrite files_exists. unfold file_at in Hd.
  destruct (target filename) as [name| | |e| |key] eqn:Ht; try done;
    rewrite ?Hd, ?bool_decide_eq_false_2 by (by intros [? ?]);
    by rewrite (send_status_open _ NOT_FOUND Hc).
Qed.

Lemma handle_delete_found (s : Node.State) (filename name : str)
    (rest : list str) (content : bytes) :
  closed (client s) = false ->
  target filename = Entry name ->
  disk s !! name = Some content ->
  handle_delete (filename :: rest) s
  = ({| self := with_spec (fun sp =>
                  {| files_count := files_count sp;
                     available_space := available_space sp + len content;
                     used_space := used_space sp |}) (self s);
        disk := delete name (disk s);
        client := set_sent (sent (client s) ++ [status_bytes OK]) (client s);
        pushed := pushed s;
        outside := outside s;
        dir_size := dir_size s;
        listening := listening s |},
     Ok OK).
Proof.
  intros Hc Ht Hd. unfold handle_delete. exec.
  rewrite files_exists, Ht, Hd, bool_decide_eq_true_2 by eauto.
  unfold on_files, zoom.
  cbn [st_size unlink volume inside beyond disk outside set_self set_disk
       set_outside set_client client self fmap option_fmap option_map].
  rewrite Hd. cbn. rewrite Hd. cbn.
  by rewrite (send_status_open _ OK Hc).
Qed.

Lemma handle_delete_OK (s s' : Node.State) (filename : str) (rest : list str) :
  handle_delete (filename :: rest) s = (s', Ok OK) ->
  exists content, file_at s filename = Some content
    /\ file_at s' filename = None
    /\ avail s' = avail s + len content /\ count s' = count s.
Proof.
  unfold handle_delete. exec. rewrite files_exists. unfold file_at.
  destruct (target filename) as [name| | |e| |key] eqn:Ht; try discriminate.
  - destruct (disk s !! name) as [content|] eqn:Hd.
    + rewrite bool_decide_eq_true_2 by eauto.
      unfold on_files, zoom.
      cbn [st_size unlink volume inside beyond disk outside set_self set_disk
           set_outside set_client client self fmap option_fmap option_map].
      rewrite Hd. cbn. rewrite Hd. cbn.
      destruct (send_str (StatusCode_value OK) (client s)) as [c [[]|e]];
        [|discriminate].
      intros [= <-]. exists content. cbn. rewrite lookup_delete_eq.
      repeat split; reflexivity.
    + rewrite bool_decide_eq_false_2 by (by intros [? ?]).
      destruct (send_str (StatusCode_value NOT_FOUND) (client s)) as [c [[]|e]];
        discriminate.
  - destruct (send_str (StatusCode_value NOT_FOUND) (client s)) as [c [[]|e0]];
      discriminate.
  - destruct (send_str (StatusCode_value NOT_FOUND) (client s)) as [c [[]|e0]];
      discriminate.
  - destruct (outside s !! key) as [content|] eqn:Hd.
    + rewrite bool_decide_eq_true_2 by eauto.
      unfold on_files, zoom.
      cbn [st_size unlink volume inside beyond disk outside set_self set_disk
           set_outside set_client client self fmap option_fmap option_map].
      rewrite Hd. cbn. rewrite Hd. cbn.
      destruct (send_str (StatusCode_value OK) (client s)) as [c [[]|e]];
        [|discriminate].
      intros [= <-]. exists content. cbn. rewrite lookup_delete_eq.
      repeat split; reflexivity.
    + rewrite bool_decide_eq_false_2 by (by intros [? ?]).
      destruct (send_str (StatusCode_value NOT_FOUND) (client s)) as [c [[]|e]];
        discriminate.
Qed.

Lemma file_at_set_client (c : Connection) (s : Node.State) (filename : str) :
  file_at (set_client c s) filename = file_at s filename.
Proof. reflexivity. Qed.

(** A successful PUT followed by a successful DELETE of the same file
    gives the space back and leaves the file counter one higher. *)
Lemma put_then_delete (s s1 s2 : Node.State) (filename : str)
    (rest rest' : list str) (next : Connection) :
  handle_put (filename :: rest) s = (s1, Ok OK) ->
  handle_delete (filename :: rest') (set_client next s1) = (s2, Ok OK) ->
  avail s2 = avail s /\ count s2 = count s + 1.
Proof.
  intros Hput Hdel.
  apply handle_put_OK in Hput as (c & _ & _ & _ & _ & _ & Ha & Hn & Hf & _).
  apply handle_delete_OK in Hdel as (content & Hd & _ & Ha2 & Hn2).
  rewrite file_at_set_client, Hf in Hd. injection Hd as <-.
  change (avail (set_client next s1)) with (avail s1) in Ha2.
  change (count (set_client next s1)) with (count s1) in Hn2. lia.
Qed.

End StorageNode.

(** ** Claims on the storage node *)

Section NodeClaims.

(** C1 as stated fails.  A payload of 1025 bytes is put as [a.txt] on a
    fresh node.  The PUT replies OK, but the node has read the payload
    with one receive of at most [CHUNK_SIZE] bytes: [available_space] has
    decreased by 1024, not by the size of the payload, and the GET that
    follows returns the 1024 bytes that were written, which are not the
    payload. *)
Lemma put_longer_than_a_receive :
  let payload := repeat "a"%byte 1025 in
  let s := Sample.node (Requests.delivered [payload]) in
  let put := handle_put [of_string "a.txt"] s in
  let get := handle_get [of_string "a.txt"]
                        (set_client (Sample.request []) put.1) in
  put.2 = Ok OK
  /\ len payload = 1025
  /\ avail put.1 = avail s - 1024
  /\ get.2 = Ok OK
  /\ sent (client get.1) !! 2%nat = Some (repeat "a"%byte 1024)
  /\ ~ (avail put.1 = avail s - len payload
        /\ sent (client get.1) !! 2%nat = Some payload).
Proof.
  vm_compute. repeat split; try reflexivity. intros [H _]. discriminate.
Qed.

(** C1, amended.  After a PUT that replies OK and whose payload the node
    has received whole in its one receive, [available_space] has
    decreased by exactly the size of the payload, [files_count] has
    increased by one, and a GET of the same file name on the next
    connection replies OK, then the metadata line, then exactly the
    payload. *)
Theorem put_then_get (s s1 : Node.State) (filename : str)
    (rest rest' : list str) (next : Connection) :
  encodable filename ->
  closed next = false ->
  handle_put (filename :: rest) s = (s1, Ok OK) ->
  let payload := unread (client s) in
  received (client s) = payload ->
  avail s1 = avail s - len payload
  /\ count s1 = count s + 1
  /\ exists s2,
       handle_get (filename :: rest') (set_client next s1) = (s2, Ok OK)
       /\ sent (client s2)
          = sent next ++ [status_bytes OK; metadata filename payload; payload].
Proof.
  intros Hf Hnext Hput payload Hwhole.
  apply handle_put_OK in Hput as (c & _ & _ & _ & _ & _ & Ha & Hn & Hd & _).
  rewrite Hwhole in Ha, Hd.
  repeat split; [done|done|].
  eexists. split.
  - apply handle_get_found; [exact Hnext | exact Hf |].
    rewrite file_at_set_client. exact Hd.
  - reflexivity.
Qed.

Lemma put_then_get_witness :
  let s := Sample.node (Sample.request ["hello"%string]) in
  let s1 := (handle_put [of_string "a.txt"] s).1 in
  avail s1 = DEFAULT_SPACE - 5
  /\ count s1 = 1
  /\ exists s2,
       handle_get [of_string "a.txt"]
                  (set_client (Sample.request []) s1) = (s2, Ok OK)
       /\ sent (client s2)
          = [status_bytes OK;
             metadata (of_string "a.txt") (Sample.ascii "hello");
             Sample.ascii "hello"].
Proof.
  intros s s1.
  apply (put_then_get s s1 (of_string "a.txt") [] [] (Sample.request [])).
  - apply encodable_of_string.
  - reflexivity.
  - vm_compute. reflexivity.
  - reflexivity.
Defined.

(** C4. A PUT whose payload was received replies INSUFFICIENT_SPACE if and
    only if the length of that payload is strictly greater than the
    current [available_space]; on the rejection that status is all that is
    sent, no file is written and the three spec fields are unchanged. *)
Theorem put_rejected_iff (s : Node.State) (filename : str) (rest : list str) :
  closed (client s) = false ->
  let content := received (client s) in
  let s' := (handle_put (filename :: rest) s).1 in
  let r := (handle_put (filename :: rest) s).2 in
  (r = Ok INSUFFICIENT_SPACE <-> len content > avail s)
  /\ (r = Ok INSUFFICIENT_SPACE ->
      sent (client s')
      = sent (client s) ++ [status_bytes INSUFFICIENT_SPACE]
      /\ disk s' = disk s /\ outside s' = outside s
      /\ _spec (self s') = _spec (self s)).
Proof.
  intros Hc content s' r. subst s' r.
  destruct (Z.gtb_spec (len content) (avail s)) as [Hgt|Hle].
  - destruct (handle_put_rejected s filename rest Hc) as (c & _ & Hs & _ & ->);
      [subst content; lia|].
    simpl. split; [split; [lia|done]|]. intros _. by rewrite Hs.
  - destruct (handle_put_fits s filename rest Hc Hle) as [Hok|[e He]].
    + fold content. rewrite Hok. split; [split; [discriminate|lia]|discriminate].
    + fold content. rewrite He. split; [split; [discriminate|lia]|discriminate].
Qed.

Lemma put_rejected_iff_witness :
  let s := set_self (with_spec (fun sp =>
                       {| files_count := files_count sp;
                          available_space := 3;
                          used_space := used_space sp |}) Sample.bucket)
                    (Sample.node (Sample.request ["hello"%string])) in
  let s' := (handle_put [of_string "a.txt"] s).1 in
  let r := (handle_put [of_string "a.txt"] s).2 in
  r = Ok INSUFFICIENT_SPACE
  /\ sent (client s') = [status_bytes INSUFFICIENT_SPACE]
  /\ disk s' = disk s /\ outside s' = outside s
  /\ _spec (self s') = _spec (self s).
Proof.
  intros s s' r.
  destruct (put_rejected_iff s (of_string "a.txt") [] eq_refl) as [Hiff Hkeep].
  assert (r = Ok INSUFFICIENT_SPACE) as Hr by (apply Hiff; by vm_compute).
  split; [exact Hr|]. exact (Hkeep Hr).
Defined.

(** C5, on the code: a PUT of [a.txt] with five bytes on a fresh node,
    then a DELETE of [a.txt], both replying OK.  [available_space] is back
    at its value before the PUT; [files_count] was 0 before the PUT and is
    1 after the DELETE, which does not touch it. *)
Theorem delete_keeps_files_count :
  let s := Sample.node (Sample.request ["hello"%string]) in
  let put := handle_put [of_string "a.txt"] s in
  let del := handle_delete [of_string "a.txt"]
                           (set_client (Sample.request []) put.1) in
  put.2 = Ok OK /\ del.2 = Ok OK
  /\ disk del.1 !! of_string "a.txt" = None
  /\ avail del.1 = avail s
  /\ count s = 0 /\ count del.1 = 1.
Proof. vm_compute. by repeat split. Qed.

End NodeClaims.

(** ** Claims on the wire protocol *)

Section Chunks.

Lemma encode_ascii (s : str) :
  is_ascii s -> encode s = Some (List.map byte_of s).
Proof.
  induction 1 as [|c s Hc _ IH]; [done|]. simpl. rewrite IH.
  unfold encode_char. by destruct (N.ltb_spec c 128); [|lia].
Qed.

Lemma ljust_ascii (s : str) (width : Z) : is_ascii s -> is_ascii (ljust s width).
Proof.
  intros H. apply Forall_app_2; [done|].
  apply Forall_forall. intros c Hc%list_elem_of_In%repeat_spec. by subst.
Qed.

Lemma ljust_length (s : str) (width : Z) :
  len s <= width -> len (ljust s width) = width.
Proof.
  unfold ljust, len. rewrite length_app, repeat_length. lia.
Qed.

(** On text of ASCII characters, where characters and octets coincide,
    [send_chunk] refuses exactly the text longer than a chunk and sends any
    other as one frame of [CHUNK_SIZE] octets. *)
Lemma send_chunk_ascii (content : str) (c : Connection) :
  is_ascii content -> closed c = false ->
  if len content >? CHUNK_SIZE
  then send_chunk content c = (c, Raise ValueError)
  else exists frame,
         send_chunk content c = (set_sent (sent c ++ [frame]) c, Ok tt)
         /\ len frame = CHUNK_SIZE.
Proof.
  intros Ha Hc. unfold send_chunk.
  destruct (Z.gtb_spec (len content) CHUNK_SIZE) as [Hlen|Hlen]; [done|].
  exists (List.map byte_of (ljust content CHUNK_SIZE)). split.
  - unfold mbind, M_bind, or_raise.
    rewrite (encode_ascii _ (ljust_ascii _ _ Ha)). unfold mret, M_ret, send.
    by apply sendall_open.
  - unfold len. rewrite length_map. by apply ljust_length.
Qed.

(** C9, on the code: the one-character text U+00E9 is padded to 1024
    characters and sent as one frame of 1025 octets, and a text of 600
    such characters, which is 1200 octets long, raises nothing and is
    sent as one frame of 1624 octets. *)
Theorem send_chunk_counts_characters :
  let c := Sample.request [] in
  let short := send_chunk [233%N] c in
  let long := send_chunk (repeat 233%N 600) c in
  short.2 = Ok tt /\ List.map len (sent short.1) = [1025]
  /\ option_map len (encode (repeat 233%N 600)) = Some 1200
  /\ long.2 = Ok tt /\ List.map len (sent long.1) = [1624].
Proof. vm_compute. by repeat split. Qed.

End Chunks.

(** ** Placement *)

Section Sorting.

Context {A : Type}.

Lemma head_insert (x : Z * A) (l : list (Z * A)) :
  head (insert x l)
  = match head l with
    | Some y => if x.1 <=? y.1 then Some x else Some y
    | None => Some x
    end.
Proof. destruct l as [|y l]; simpl; [done|]. by destruct (x.1 <=? y.1). Qed.

Lemma head_sort_keyed (l : list (Z * A)) : head (sort_keyed l) = first_min l.
Proof.
  induction l as [|x l IH]; simpl; [done|].
  by rewrite head_insert, IH.
Qed.

Lemma first_min_None (l : list (Z * A)) : first_min l = None -> l = [].
Proof.
  destruct l as [|x l]; [done|]. simpl.
  by destruct (first_min l) as [m|]; [destruct (x.1 <=? m.1)|].
Qed.

(** The first item of least key splits the list: strictly greater keys
    before it, keys at least as great after it. *)
Lemma first_min_split (l : list (Z * A)) (m : Z * A) :
  first_min l = Some m ->
  exists before after,
    l = before ++ m :: after
    /\ Forall (fun y => m.1 < y.1) before
    /\ Forall (fun y => m.1 <= y.1) after.
Proof.
  revert m. induction l as [|x l IH]; simpl; intros m; [discriminate|].
  destruct (first_min l) as [m'|] eqn:Hl.
  - destruct (IH m' eq_refl) as (before & after & -> & Hb & Ha).
    destruct (Z.leb_spec x.1 m'.1); intros [= <-].
    + exists [], (before ++ m' :: after). repeat split; [constructor|].
      apply Forall_app_2; [|constructor; [done|]].
      * eapply Forall_impl; [exact Hb|]. simpl. lia.
      * eapply Forall_impl; [exact Ha|]. simpl. lia.
    + exists (x :: before), after. repeat split; [|done].
      constructor; [lia|done].
  - intros [= <-]. apply first_min_None in Hl as ->.
    exists [], []. by repeat split.
Qed.

Variable key : A -> option Z.

Lemma keyed_Some (items : list A) (ks : list (Z * A)) :
  keyed key items = Some ks ->
  ks.*2 = items /\ Forall (fun kx => key kx.2 = Some kx.1) ks.
Proof.
  revert ks. induction items as [|x items IH]; simpl; intros ks.
  - intros [= <-]. by split.
  - destruct (key x) as [k|] eqn:Hk; [|discriminate].
    destruct (keyed key items) as [ks'|]; [|discriminate].
    intros [= <-]. destruct (IH ks' eq_refl) as [Heq HF].
    split; [by rewrite <- Heq | by constructor].
Qed.

Lemma keyed_is_Some (items : list A) :
  Forall (fun x => is_Some (key x)) items <-> is_Some (keyed key items).
Proof.
  induction items as [|x items IH]; simpl.
  - split; [by eexists|constructor].
  - split.
    + intros [[k Hk] [ks Hks]%IH]%Forall_cons. rewrite Hk, Hks. eauto.
    + intros [ks H]. destruct (key x) as [k|] eqn:Hk; [|discriminate].
      destruct (keyed key items) as [ks'|] eqn:Hks; [|discriminate].
      constructor; [by rewrite Hk|]. apply IH. eauto.
Qed.

(** [sorted(items, key)[0]] *)
Lemma sorted_head (items : list A) (l : list A) (first : A) :
  sorted items key = Some l -> head l = Some first ->
  exists d before after,
    items = before ++ first :: after
    /\ key first = Some d
    /\ Forall (fun y => exists d', key y = Some d' /\ d < d') before
    /\ Forall (fun y => exists d', key y = Some d' /\ d <= d') after.
Proof.
  unfold sorted. destruct (keyed key items) as [ks|] eqn:Hks; [|discriminate].
  intros [= <-] Hh.
  destruct (keyed_Some _ _ Hks) as [<- HF].
  assert (exists m, first_min ks = Some m /\ m.2 = first) as (m & Hm & <-).
  { rewrite <- head_sort_keyed. destruct (sort_keyed ks) as [|m l]; [done|].
    exists m. simpl in *. by injection Hh. }
  destruct (first_min_split _ _ Hm) as (before & after & -> & Hb & Ha).
  apply Forall_app in HF as [HFb HFa]. apply Forall_cons in HFa as [Hkm HFa].
  exists m.1, before.*2, after.*2. repeat split.
  - by rewrite fmap_app.
  - done.
  - apply Forall_fmap, Forall_forall. intros y Hy.
    rewrite Forall_forall in HFb, Hb. simpl.
    specialize (HFb y Hy). specialize (Hb y Hy). eauto.
  - apply Forall_fmap, Forall_forall. intros y Hy.
    rewrite Forall_forall in HFa, Ha. simpl.
    specialize (HFa y Hy). specialize (Ha y Hy). eauto.
Qed.

Lemma sorted_nonempty (items : list A) (l : list A) :
  sorted items key = Some l -> items <> [] -> l <> [].
Proof.
  unfold sorted. destruct (keyed key items) as [ks|] eqn:Hks; [|discriminate].
  intros [= <-] Hne Hnil. destruct (keyed_Some _ _ Hks) as [<- _].
  apply fmap_nil_inv in Hnil.
  assert (first_min ks = None) as Hm by (by rewrite <- head_sort_keyed, Hnil).
  apply first_min_None in Hm. by subst.
Qed.

End Sorting.

Section Placement.

Lemma select_bucket_ignores_filename (ctx : Context) (buckets : list Client)
    (size : Z) (f : option str) :
  UploadHandler_select_bucket ctx buckets {| kw_size := Some size; kw_filename := f |}
  = UploadHandler_select_bucket ctx buckets (for_size size).
Proof. reflexivity. Qed.

Lemma select_bucket_empty (ctx : Context) (buckets : list Client) (size : Z) :
  candidates size buckets = [] <->
  UploadHandler_select_bucket ctx buckets (for_size size) = Ok None.
Proof.
  unfold UploadHandler_select_bucket, candidates. simpl.
  destruct (List.filter _ buckets) as [|b l] eqn:Hc; [done|].
  split; [discriminate|].
  destruct (sorted (b :: l) _) as [[|first ?]|]; discriminate.
Qed.

Lemma select_bucket_Some (ctx : Context) (buckets : list Client) (size : Z)
    (b : Client) :
  UploadHandler_select_bucket ctx buckets (for_size size) = Ok (Some b) ->
  nearest (region ctx) (candidates size buckets) b.
Proof.
  unfold UploadHandler_select_bucket, candidates. simpl.
  destruct (List.filter _ buckets) as [|c l] eqn:Hc; [discriminate|].
  destruct (sorted (c :: l) _) as [[|first rest]|] eqn:Hs; try discriminate.
  intros [= ->].
  exact (sorted_head (fun y => distance (region ctx) (Api.region y))
                     _ _ _ Hs eq_refl).
Qed.

Lemma select_bucket_reachable (ctx : Context) (buckets : list Client) (size : Z) :
  reachable ctx (candidates size buckets) ->
  candidates size buckets <> [] ->
  exists b, UploadHandler_select_bucket ctx buckets (for_size size) = Ok (Some b).
Proof.
  intros Hr Hne. unfold UploadHandler_select_bucket. simpl.
  fold (candidates size buckets).
  destruct (candidates size buckets) as [|c l] eqn:Hc; [done|].
  apply keyed_is_Some in Hr as [ks Hks].
  destruct (sorted (c :: l) _) as [[|first rest]|] eqn:Hs.
  - by apply sorted_nonempty in Hs.
  - by eexists.
  - unfold sorted in Hs. by rewrite Hks in Hs.
Qed.

Lemma select_bucket_unreachable (ctx : Context) (buckets : list Client) (size : Z) :
  ~ reachable ctx (candidates size buckets) ->
  UploadHandler_select_bucket ctx buckets (for_size size) = Raise KeyError.
Proof.
  intros Hr. unfold UploadHandler_select_bucket. simpl.
  fold (candidates size buckets).
  destruct (candidates size buckets) as [|c l] eqn:Hc.
  - destruct Hr. constructor.
  - unfold sorted.
    destruct (keyed _ (c :: l)) as [ks|] eqn:Hks; [|done].
    destruct Hr. apply keyed_is_Some. by rewrite Hks.
Qed.

Lemma select_bucket_Ok_reachable (ctx : Context) (buckets : list Client)
    (size : Z) (o : option Client) :
  UploadHandler_select_bucket ctx buckets (for_size size) = Ok o ->
  reachable ctx (candidates size buckets).
Proof.
  unfold reachable. intros Hs. apply keyed_is_Some. revert Hs.
  unfold UploadHandler_select_bucket. simpl. fold (candidates size buckets).
  destruct (candidates size buckets) as [|c l]; [simpl; eauto|].
  unfold sorted. destruct (keyed _ (c :: l)); [eauto|discriminate].
Qed.

Lemma candidates_filter (size : Z) (P : Client -> bool) (buckets : list Client) :
  candidates size (List.filter P buckets) = List.filter P (candidates size buckets).
Proof.
  unfold candidates. induction buckets as [|b l IH]; simpl; [done|].
  destruct (P b) eqn:HP, (get_bucket_available_space b >=? size) eqn:Hb;
    simpl; rewrite ?HP, ?Hb, ?IH; done.
Qed.

(** Once the primary was selected, the second selection does not raise,
    and what it selects is another bucket. *)
Lemma select_backup (ctx : Context) (buckets : list Client) (size : Z)
    (main : Client) :
  UploadHandler_select_bucket ctx buckets (for_size size) = Ok (Some main) ->
  exists backup,
    UploadHandler_select_bucket ctx
      (List.filter (fun bucket => bool_decide (id bucket ≠ id main)) buckets)
      (for_size size) = Ok backup
    /\ match backup with
       | Some b =>
           id b ≠ id main
           /\ nearest (region ctx)
                (List.filter (fun bucket => bool_decide (id bucket ≠ id main))
                             (candidates size buckets)) b
       | None =>
           Forall (fun c => id c = id main) (candidates size buckets)
       end.
Proof.
  intros Hmain. apply select_bucket_Ok_reachable in Hmain.
  set (others := List.filter _ buckets).
  assert (reachable ctx (candidates size others)) as Hr.
  { unfold others. rewrite candidates_filter. unfold reachable in *.
    rewrite Forall_forall in Hmain |- *. intros b Hb%list_elem_of_In.
    apply filter_In in Hb as [Hb _]. by apply Hmain, list_elem_of_In. }
  destruct (candidates size others) as [|c l] eqn:Hc.
  - exists None. split; [by apply select_bucket_empty|].
    unfold others in Hc. rewrite candidates_filter in Hc.
    apply Forall_forall. intros b Hb%list_elem_of_In.
    destruct (decide (id b = id main)) as [|Hne]; [done|].
    assert (In b []) as []. rewrite <- Hc. apply filter_In.
    split; [done|]. by apply bool_decide_eq_true.
  - destruct (select_bucket_reachable ctx others size) as [b Hb];
      [by rewrite Hc|by rewrite Hc|].
    exists (Some b). split; [done|].
    apply select_bucket_Some in Hb. unfold others in Hb.
    rewrite candidates_filter in Hb. split; [|done].
    destruct Hb as (d & before & after & Heq & _).
    assert (In b (List.filter (fun bucket => bool_decide (id bucket ≠ id main))
                              (candidates size buckets))) as Hin.
    { rewrite Heq. apply in_app_iff. right. by left. }
    apply filter_In in Hin as [_ Hin]. by apply bool_decide_eq_true in Hin.
Qed.

End Placement.

(** ** The upload handler *)

Section Upload.

Variable remote : Remote.

Ltac exec_world :=
  cbv beta iota delta [mbind M_bind mret M_ret or_raise gets modify raise
                       on_connection zoom try_except decoded fst snd].

Lemma Client_put_spec (b : Client) (f : File) (w : World) :
  exists r,
    Client_put remote b f w
    = ({| context := context w;
          requests := requests w ++ [(b, f)];
          appended := appended w
                      ++ (if put_succeeds remote b f then [(id b, name f)] else []) |},
       r)
    /\ (r = Ok tt <-> put_succeeds remote b f = true).
Proof.
  unfold Client_put, put_succeeds. exec_world.
  destruct (put_reply remote b f) as [replies|e].
  - destruct (decode (default [] (replies !! 0%nat))) as [text|].
    + destruct (decide (strip text = StatusCode_value OK)) as [He|He].
      * rewrite bool_decide_eq_true_2 by done. by eexists.
      * rewrite bool_decide_eq_false_2 by done.
        destruct (decode (default [] (replies !! 1%nat)));
          (eexists; split; [by rewrite app_nil_r|done]).
    + eexists; split; [by rewrite app_nil_r|done].
  - eexists; split; [by rewrite app_nil_r|done].
Qed.

Lemma put_each_spec (main : Client) (backup : option Client) (f : File)
    (w : World) :
  exists names r,
    put_each remote [Some main; backup] f w
    = ({| context := context w;
          requests := requests w ++ attempts remote main backup f;
          appended := appended w ++ names |}, r)
    /\ (r = Ok tt <-> all_stored remote main backup f = true).
Proof.
  unfold put_each, attempts, all_stored. exec_world.
  destruct (Client_put_spec main f w) as (r1 & -> & H1).
  destruct r1 as [[]|e].
  - rewrite (proj1 H1 eq_refl). simpl. destruct backup as [b|].
    + match goal with |- context [Client_put remote b f ?w1] =>
        destruct (Client_put_spec b f w1) as (r2 & -> & H2) end.
      simpl. rewrite <- !app_assoc. simpl.
      destruct r2 as [[]|e]; (do 2 eexists; split; [reflexivity|]).
      * by rewrite (proj1 H2 eq_refl).
      * split; [discriminate|]. intros H%H2. discriminate.
    + do 2 eexists. split; [reflexivity|done].
  - destruct (put_succeeds remote main f) eqn:Hm.
    { by specialize (proj2 H1 eq_refl). }
    simpl. do 2 eexists. split; [|done].
    by destruct backup.
Qed.

(** The outcome of [_handle] on an open connection, by what the two
    selections give. *)
Lemma UploadHandler_handle_open (a filename : str) (w : World) :
  let ctx := context w in
  let content := received (connection ctx) in
  let f := {| name := filename; content := content |} in
  closed (connection ctx) = false ->
  exists c,
    receive (connection ctx) = (c, Ok content)
    /\ match UploadHandler_select_bucket ctx (buckets ctx)
               (for_size (len content)) with
       | Raise e =>
           UploadHandler_handle remote a filename w
           = (after w c [] [], Ok (error_response, Some e))
       | Ok None =>
           UploadHandler_handle remote a filename w
           = (after w c [] [], Ok (error_response, Some RuntimeError))
       | Ok (Some main) =>
           exists backup names,
             UploadHandler_select_bucket ctx
               (List.filter (fun bucket => bool_decide (id bucket ≠ id main))
                            (buckets ctx))
               (for_size (len content)) = Ok backup
             /\ exists r,
                  UploadHandler_handle remote a filename w
                  = (after w c (attempts remote main backup f) names, Ok r)
                  /\ (r = (ok_response, None) <-> all_stored remote main backup f = true)
                  /\ (r.1 = ok_response \/ r.1 = error_response)
       end.
Proof.
  intros ctx content f Hc.
  destruct (receive_open _ Hc) as (c & Hr & _). exists c. split; [done|].
  unfold UploadHandler_handle, UploadHandler_body. exec_world.
  fold ctx. rewrite Hr. cbv beta iota. simpl context. simpl buckets.
  fold content.
  change (UploadHandler_select_bucket (set_connection c ctx))
    with (UploadHandler_select_bucket ctx).
  change {| kw_size := Some (len content); kw_filename := None |}
    with (for_size (len content)).
  destruct (UploadHandler_select_bucket ctx (buckets ctx) (for_size (len content)))
    as [[main|]|e] eqn:Hmain.
  - destruct (select_backup _ _ _ _ Hmain) as (backup & Hb & _).
    rewrite (select_bucket_ignores_filename _ _ _ (Some filename)), Hb.
    match goal with |- context [put_each remote _ _ ?w1] =>
      destruct (put_each_spec main backup f w1) as (names & r & Hp & Hr') end.
    exists backup, names. split; [done|]. fold f. rewrite Hp.
    unfold after. simpl.
    destruct r as [[]|e]; eexists; (split; [reflexivity|]).
    + split; [|by left]. split; [intros _; by apply Hr'|done].
    + split; [|by right]. split; [discriminate|]. intros H%Hr'. discriminate.
  - unfold after. simpl. by rewrite !app_nil_r.
  - unfold after. simpl. by rewrite !app_nil_r.
Qed.

Lemma UploadHandler_handle_closed (a filename : str) (w : World) :
  closed (connection (context w)) = true ->
  UploadHandler_handle remote a filename w
  = (w, Ok (error_response, Some OSError)).
Proof.
  intros Hc. unfold UploadHandler_handle, UploadHandler_body. exec_world.
  rewrite (receive_closed _ Hc). cbv beta iota.
  destruct w as [[? ? ?] ? ?]. reflexivity.
Qed.

End Upload.

(** ** Claims on the manager's handlers *)

Section HandlerClaims.

(** C2 as stated fails: with one bucket that has room and lies in the
    manager's own region, for which the table has no entry, the selection
    raises [KeyError] and selects nothing. *)
Lemma placement_fails_in_own_region :
  ~ placement_as_stated
      (SampleHandles.ctx [SampleHandles.home] (Sample.request []))
      [SampleHandles.home] 10.
Proof.
  unfold placement_as_stated.
  change (candidates 10 [SampleHandles.home]) with [SampleHandles.home].
  intros (b & Hb & _). vm_compute in Hb. discriminate.
Qed.

(** C2, amended.  When every bucket with room for the required size has
    an entry in the distance row of the manager's region, the selection is
    [None] if no bucket has room and otherwise the first bucket, in list
    order, at the least distance among exactly the buckets with room; and
    an upload for whose payload no bucket has room issues no request and
    returns the ERROR response with the capacity error. *)
Theorem select_bucket_nearest (ctx : Context) (known : list Client) (size : Z) :
  reachable ctx (candidates size known) ->
  placement_as_stated ctx known size
  /\ forall (remote : Remote) (a filename : str) (w : World),
       closed (connection (context w)) = false ->
       candidates (len (received (connection (context w))))
                  (buckets (context w)) = [] ->
       exists c,
         UploadHandler_handle remote a filename w
         = (after w c [] [], Ok (error_response, Some RuntimeError)).
Proof.
  intros Hr. split.
  - unfold placement_as_stated.
    destruct (candidates size known) as [|c l] eqn:Hc.
    + by apply select_bucket_empty.
    + destruct (select_bucket_reachable ctx known size) as [b Hb];
        [by rewrite Hc|by rewrite Hc|].
      exists b. split; [done|]. rewrite <- Hc. by apply select_bucket_Some.
  - intros remote a filename w Hopen Hnone.
    destruct (UploadHandler_handle_open remote a filename w Hopen) as (c & _ & H).
    apply select_bucket_empty with (ctx := context w) in Hnone.
    rewrite Hnone in H. by exists c.
Qed.

Lemma select_bucket_nearest_witness :
  placement_as_stated
    (SampleHandles.ctx SampleHandles.three (Sample.request []))
    SampleHandles.three 10
  /\ UploadHandler_select_bucket
       (SampleHandles.ctx SampleHandles.three (Sample.request []))
       SampleHandles.three (for_size 10)
     = Ok (Some (SampleHandles.handle "u" "us-east" DEFAULT_SPACE)).
Proof.
  split; [|reflexivity].
  apply (select_bucket_nearest
           (SampleHandles.ctx SampleHandles.three (Sample.request []))
           SampleHandles.three 10).
  repeat constructor; vm_compute; eauto.
Defined.

(** C3. In every upload whose payload was received and for which a
    primary was selected, the second selection runs over the known buckets
    without the primary's id and does not raise; a backup it selects has
    an id different from the primary's; the PUT to the primary is the
    first request, the PUT to the backup follows it once the primary's has
    succeeded, and with no backup the PUT to the primary is the only
    request and its success makes the upload succeed. *)
Theorem backup_is_another_bucket (remote : Remote) (a filename : str)
    (w : World) :
  let ctx := context w in
  let content := received (connection ctx) in
  let f := {| name := filename; content := content |} in
  let out := UploadHandler_handle remote a filename w in
  closed (connection ctx) = false ->
  match UploadHandler_select_bucket ctx (buckets ctx) (for_size (len content)) with
  | Ok (Some main) =>
      exists backup,
        UploadHandler_select_bucket ctx
          (List.filter (fun bucket => bool_decide (id bucket ≠ id main))
                       (buckets ctx))
          (for_size (len content)) = Ok backup
        /\ match backup with
           | Some b =>
               id b ≠ id main
               /\ requests out.1
                  = requests w
                    ++ (main, f) :: (if put_succeeds remote main f
                                     then [(b, f)] else [])
           | None =>
               requests out.1 = requests w ++ [(main, f)]
               /\ (put_succeeds remote main f = true ->
                   out.2 = Ok (ok_response, None))
           end
  | _ => requests out.1 = requests w
  end.
Proof.
  intros ctx content f out Hopen. subst out.
  destruct (UploadHandler_handle_open remote a filename w Hopen) as (c & _ & H).
  fold ctx content in H.
  destruct (UploadHandler_select_bucket ctx (buckets ctx) (for_size (len content)))
    as [[main|]|e] eqn:Hmain.
  - destruct H as (backup & names & Hb & r & -> & Hr & _).
    exists backup. split; [done|].
    destruct (select_backup _ _ _ _ Hmain) as (backup' & Hb' & Hid).
    assert (backup' = backup) as -> by congruence.
    destruct backup as [b|]; simpl.
    + by destruct Hid.
    + split; [done|]. intros Hok. f_equal. apply Hr.
      apply andb_true_iff. split; [exact Hok|done].
  - rewrite H. simpl. by rewrite app_nil_r.
  - rewrite H. simpl. by rewrite app_nil_r.
Qed.

Lemma backup_is_another_bucket_witness :
  let w := SampleHandles.world SampleHandles.three
             (Sample.request ["0123456789"%string]) in
  let ctx := context w in
  let f := {| name := of_string "f"; content := Sample.ascii "0123456789" |} in
  let out := UploadHandler_handle SampleHandles.willing [] (of_string "f") w in
  match UploadHandler_select_bucket ctx (buckets ctx) (for_size 10) with
  | Ok (Some main) =>
      exists backup,
        UploadHandler_select_bucket ctx
          (List.filter (fun bucket => bool_decide (id bucket ≠ id main))
                       (buckets ctx))
          (for_size 10) = Ok backup
        /\ match backup with
           | Some b =>
               id b ≠ id main
               /\ requests out.1
                  = requests w
                    ++ (main, f) :: (if put_succeeds SampleHandles.willing main f
                                     then [(b, f)] else [])
           | None =>
               requests out.1 = requests w ++ [(main, f)]
               /\ (put_succeeds SampleHandles.willing main f = true ->
                   out.2 = Ok (ok_response, None))
           end
  | _ => requests out.1 = requests w
  end.
Proof.
  exact (backup_is_another_bucket SampleHandles.willing [] (of_string "f")
           (SampleHandles.world SampleHandles.three
              (Sample.request ["0123456789"%string]))
           eq_refl).
Defined.

(** The scenario of the specification: the primary is the bucket in
    [us-east], the backup the one in [eu], in that order. *)
Example upload_scenario :
  let w := SampleHandles.world SampleHandles.three
             (Sample.request ["0123456789"%string]) in
  let out := UploadHandler_handle SampleHandles.willing [] (of_string "f") w in
  List.map (fun bf => id bf.1) (requests out.1) = [of_string "u"; of_string "e"]
  /\ out.2 = Ok (ok_response, None).
Proof. vm_compute. by split. Qed.

(** C10. A PUT at the storage node and an upload at the manager read the
    payload with one [receive]: what is stored, and what every PUT
    request of the upload carries, is what that call returned, at most
    [CHUNK_SIZE] bytes; it is a prefix of what the client has sent, whose
    remainder stays unread, and a strict prefix whenever the client has
    sent more than the call returned. *)
Theorem one_receive_per_payload :
  (forall (s s' : Node.State) (filename : str) (rest : list str),
     handle_put (filename :: rest) s = (s', Ok OK) ->
     let content := received (client s) in
     file_at s' filename = Some content
     /\ len content <= CHUNK_SIZE
     /\ unread (client s) = content ++ unread (client s')
     /\ (len (unread (client s)) > len content ->
         content `prefix_of` unread (client s) /\ content ≠ unread (client s)))
  /\ (forall (remote : Remote) (a filename : str) (w : World),
        closed (connection (context w)) = false ->
        let content := received (connection (context w)) in
        let w' := (UploadHandler_handle remote a filename w).1 in
        exists new,
          requests w' = requests w ++ new
          /\ Forall (fun bf => bf.2 = {| name := filename; content := content |}) new
          /\ len content <= CHUNK_SIZE
          /\ unread (connection (context w))
             = content ++ unread (connection (context w'))
          /\ (len (unread (connection (context w))) > len content ->
              content `prefix_of` unread (connection (context w))
              /\ content ≠ unread (connection (context w)))).
Proof.
  assert (forall (content payload tail : list byte),
            payload = content ++ tail -> len payload > len content ->
            content `prefix_of` payload /\ content ≠ payload) as Hstrict.
  { intros content payload tail -> Hlen. split; [by exists tail|].
    intros Heq. rewrite <- Heq in Hlen. lia. }
  split.
  - intros s s' filename rest Hput content.
    apply handle_put_OK in Hput as (c & _ & _ & _ & Hu & _ & _ & _ & Hf & -> & _).
    split; [exact Hf|]. split; [apply received_length|].
    split; [done|]. by apply Hstrict with (tail := unread c).
  - intros remote a filename w Hopen content w'.
    destruct (UploadHandler_handle_open remote a filename w Hopen) as (c & Hr & H).
    destruct (receive_open _ Hopen) as (c' & Hr' & _ & _ & Hu).
    assert (c' = c) as -> by congruence.
    assert (exists new names,
              UploadHandler_handle remote a filename w
              = (after w c new names, (UploadHandler_handle remote a filename w).2)
              /\ Forall (fun bf => bf.2 = {| name := filename; content := content |}) new)
      as (new & names & Heq & Hnew).
    { destruct (UploadHandler_select_bucket _ _ _) as [[main|]|e].
      - destruct H as (backup & names & _ & r & -> & _).
        do 2 eexists. split; [reflexivity|]. unfold attempts.
        destruct backup; [destruct (put_succeeds _ _ _)|]; by repeat constructor.
      - rewrite H. by exists [], [].
      - rewrite H. by exists [], []. }
    exists new. subst w'. rewrite Heq. simpl.
    split; [done|]. split; [done|]. split; [apply received_length|].
    split; [done|]. by apply Hstrict with (tail := unread c).
Qed.

Lemma one_receive_per_payload_witness :
  let s := Sample.node (Sample.request ["hello"%string; "world"%string]) in
  let s' := (handle_put [of_string "a.txt"] s).1 in
  file_at s' (of_string "a.txt") = Some (Sample.ascii "hello")
  /\ unread (client s') = Sample.ascii "world"
  /\ Sample.ascii "hello" ≠ Sample.ascii "helloworld".
Proof.
  intros s s'.
  destruct (proj1 one_receive_per_payload s s' (of_string "a.txt") [])
    as (Hd & _ & Hu & Hs).
  - vm_compute. reflexivity.
  - split; [exact Hd|]. split; [vm_compute; reflexivity|].
    apply Hs. vm_compute. reflexivity.
Defined.

End HandlerClaims.

(** ** Claims on the registry and the accept loops *)

Section FanOut.

Context {O : Type} `{Observer O}.

(** A call that every observer of [observers] takes without raising goes
    to each of them once, in list order. *)
Lemma for_observers_all (c : Call) (observers : list O) (i : nat) :
  Forall (fun o => (invoke c o).2 = Ok tt) observers ->
  for_observers i (Ok c) observers
  = (List.map (fun o => (invoke c o).1) observers,
     List.map (fun j => (j, c)) (seq i (length observers)),
     Ok tt).
Proof.
  intros Hall. revert i.
  induction Hall as [|o l Ho _ IH]; intros i; simpl; [done|].
  destruct (invoke c o) as [o' r] eqn:Hi. simpl in Ho. subst r.
  by rewrite IH.
Qed.


End FanOut.

Section LoopClaims.


(** C7, on the code.  Neither accept loop has an exception handler.  A
    request with an unknown verb, or a PUT without a file name, ends
    [Bucket.run] with [AttributeError], respectively [IndexError]; an
    [update] for a bucket id the manager does not know, or a [register]
    with a field missing, ends [Subject.listen] with [KeyError],
    respectively [ValueError].  The connections that arrive later are not
    served: the outcome does not depend on them. *)
Theorem accept_loops_end_on_bad_request :
  let node := Sample.node (Sample.request []) in
  (exists s', forall later,
     Node.run (Sample.request ["FROB x"%string] :: later) node
     = (s', Raise AttributeError))
  /\ (exists s', forall later,
        Node.run (Sample.request ["PUT"%string] :: later) node
        = (s', Raise IndexError))
  /\ (exists s', forall later,
        listen (Sample.request ["update nobody 1 2 3"%string] :: later)
               SampleRegistry.subject
        = (s', Raise KeyError))
  /\ (exists s', forall later,
        listen (Sample.request ["register b1 localhost"%string] :: later)
               SampleRegistry.subject
        = (s', Raise ValueError)).
Proof.
  intros node. repeat split; eexists; intros later; vm_compute; reflexivity.
Qed.

End LoopClaims.

Section ManagerLoop.

(** A command line whose name has no registered handler: the turn of the
    accept loop logs the error and starts no thread, nothing is sent on
    the connection, and the connection is left as it was read, not
    closed. *)
Lemma run_once_unknown_command (s : Mgr.State) (server : Connection)
    (text : str) :
  closed server = false ->
  decode (received server) = Some text ->
  HandlerRegistry_get (unpack (split SPACE (strip text))).1 = None ->
  exists server',
    Mgr.run_once server s
    = {| Mgr.self := Mgr.self s;
         Mgr.started := Mgr.started s;
         Mgr.logged := Mgr.logged s ++ [RuntimeError];
         Mgr.left_behind := Mgr.left_behind s ++ [server'] |}
    /\ sent server' = sent server
    /\ closed server' = false.
Proof.
  intros Hopen Hdec Hget.
  destruct (receive_open _ Hopen) as (c & Hr & Hs & Hc & _).
  exists c. split; [|done].
  unfold Mgr.run_once, Mgr.dispatch.
  cbv beta iota delta [mbind M_bind mret M_ret or_raise raise].
  rewrite Hr. cbv beta iota. rewrite Hdec. cbv beta iota.
  destruct (unpack (split SPACE (strip text))) as [command parameters].
  simpl in Hget. by rewrite Hget.
Qed.

(** C8, on the code.  The manager receives [frobnicate x] and then an
    upload.  The first turn logs the error, sends nothing, and leaves the
    connection open: no [close] is called on it, the thread that would
    have closed it was never started.  The loop goes on and starts the
    handler thread of the upload. *)
Theorem unknown_command_leaves_connection_open :
  let s' := Mgr.run [Sample.request ["frobnicate x"%string];
                     Sample.request ["upload p f"%string; "data"%string]]
                    fresh_manager in
  Mgr.logged s' = [RuntimeError]
  /\ List.map sent (Mgr.left_behind s') = [[]]
  /\ List.map closed (Mgr.left_behind s') = [false]
  /\ List.map Mgr.handler_class (Mgr.started s') = [UploadHandler]
  /\ List.map Mgr.job_args (Mgr.started s') = [[of_string "p"; of_string "f"]].
Proof. vm_compute. by repeat split. Qed.

(** The thread of a started handler closes the connection whatever the
    response: the upload above, with no bucket registered, is answered
    with two chunks and its connection is closed. *)
Example started_thread_closes :
  let s' := Mgr.run [Sample.request ["upload p f"%string; "data"%string]]
                    fresh_manager in
  List.map (fun job =>
              let w := (Mgr.thread SampleHandles.willing job).1 in
              (List.map len (sent (connection (context w))),
               closed (connection (context w))))
           (Mgr.started s')
  = [([1024; 1024], true)].
Proof. vm_compute. reflexivity. Qed.

End ManagerLoop.

(* ===================================================================== *)
(** * Further properties of the code                                      *)
(* ===================================================================== *)

(** ** Text on the wire *)

Section Utf8.

Lemma to_N_byte_of (n : N) : (n < 256)%N -> Byte.to_N (byte_of n) = n.
Proof.
  intros Hn. unfold byte_of.
  destruct (Byte.of_N n) as [b|] eqn:Hb.
  - by apply Byte.to_of_N.
  - apply Byte.of_N_None_iff in Hb. lia.
Qed.

Lemma decode_N_char (c : N) (bs : bytes) (rest : list N) :
  encode_char c = Some bs ->
  decode_N (List.map Byte.to_N bs ++ rest) = option_map (cons c) (decode_N rest).
Proof.
  unfold encode_char, cont.
  pose proof (N.div_mod' c 64) as Hc. pose proof (N.mod_lt c 64 ltac:(lia)) as Hr.
  pose proof (N.div_mod' (c / 64) 64) as Hq.
  pose proof (N.mod_lt (c / 64) 64 ltac:(lia)) as Hqr.
  pose proof (N.div_mod' (c / 64 / 64) 64) as Hp.
  pose proof (N.mod_lt (c / 64 / 64) 64 ltac:(lia)) as Hpr.
  change 4096%N with (64 * 64)%N. change 262144%N with (64 * 64 * 64)%N.
  rewrite <- !N.Div0.div_div.
  set (q := (c / 64)%N) in *. set (r := (c mod 64)%N) in *.
  set (q2 := (q / 64)%N) in *. set (r2 := (q mod 64)%N) in *.
  set (q3 := (q2 / 64)%N) in *. set (r3 := (q2 mod 64)%N) in *.
  destruct (N.ltb_spec c 128) as [H1|H1].
  { intros [= <-]. cbn [List.map app]. rewrite to_N_byte_of by lia.
    cbn [decode_N]. by destruct (N.ltb_spec c 128); [|lia]. }
  destruct (N.ltb_spec c 2048) as [H2|H2].
  { intros [= <-]. cbn [List.map app]. rewrite !to_N_byte_of by lia.
    cbn [decode_N]. unfold is_cont.
    destruct (N.ltb_spec (192 + q) 128); [lia|].
    destruct (N.ltb_spec (192 + q) 194); [lia|].
    destruct (N.ltb_spec (192 + q) 224); [|lia].
    destruct (N.leb_spec 128 (128 + r)); [|lia].
    destruct (N.ltb_spec (128 + r) 192); [|lia].
    cbn [andb]. do 2 f_equal. lia. }
  destruct (is_surrogate c) eqn:Hs; [discriminate|].
  destruct (N.ltb_spec c 65536) as [H3|H3].
  { intros [= <-]. cbn [List.map app]. rewrite !to_N_byte_of by lia.
    cbn [decode_N]. unfold is_cont.
    destruct (N.ltb_spec (224 + q2) 128); [lia|].
    destruct (N.ltb_spec (224 + q2) 194); [lia|].
    destruct (N.ltb_spec (224 + q2) 224); [lia|].
    destruct (N.ltb_spec (224 + q2) 240); [|lia].
    destruct (N.leb_spec 128 (128 + r2)); [|lia].
    destruct (N.ltb_spec (128 + r2) 192); [|lia].
    destruct (N.leb_spec 128 (128 + r)); [|lia].
    destruct (N.ltb_spec (128 + r) 192); [|lia].
    replace ((224 + q2 - 224) * 4096 + (128 + r2 - 128) * 64 + (128 + r - 128))%N
      with c by lia.
    rewrite Hs. destruct (N.leb_spec 2048 c); [|lia]. done. }
  destruct (N.ltb_spec c 1114112) as [H4|H4]; [|discriminate].
  intros [= <-]. cbn [List.map app]. rewrite !to_N_byte_of by lia.
  cbn [decode_N]. unfold is_cont.
  destruct (N.ltb_spec (240 + q3) 128); [lia|].
  destruct (N.ltb_spec (240 + q3) 194); [lia|].
  destruct (N.ltb_spec (240 + q3) 224); [lia|].
  destruct (N.ltb_spec (240 + q3) 240); [lia|].
  destruct (N.ltb_spec (240 + q3) 245); [|lia].
  destruct (N.leb_spec 128 (128 + r3)); [|lia].
  destruct (N.ltb_spec (128 + r3) 192); [|lia].
  destruct (N.leb_spec 128 (128 + r2)); [|lia].
  destruct (N.ltb_spec (128 + r2) 192); [|lia].
  destruct (N.leb_spec 128 (128 + r)); [|lia].
  destruct (N.ltb_spec (128 + r) 192); [|lia].
  replace ((240 + q3 - 240) * 262144 + (128 + r3 - 128) * 4096
           + (128 + r2 - 128) * 64 + (128 + r - 128))%N with c by lia.
  destruct (N.leb_spec 65536 c); [|lia].
  destruct (N.ltb_spec c 1114112); [|lia]. done.
Qed.

(** Decoding what was encoded gives the text back. *)
Lemma decode_encode (s : str) (b : bytes) : encode s = Some b -> decode b = Some s.
Proof.
  unfold decode. revert b. induction s as [|c s IH]; simpl; intros b.
  - by intros [= <-].
  - destruct (encode_char c) as [bs|] eqn:Hc; [|discriminate].
    destruct (encode s) as [rest|]; [|discriminate]. intros [= <-].
    rewrite List.map_app, (decode_N_char c bs _ Hc), (IH rest eq_refl). done.
Qed.

End Utf8.

Section Words.

Lemma lstrip_head (c : N) (s : str) : isspace c = false -> lstrip (c :: s) = c :: s.
Proof. intros H. simpl. by rewrite H. Qed.

Lemma lstrip_spaces (k : nat) (t : str) : lstrip (repeat SPACE k ++ t) = lstrip t.
Proof. induction k as [|k IH]; [done|]. exact IH. Qed.

Lemma lstrip_app (s t : str) :
  lstrip (s ++ t) = match lstrip s with [] => lstrip t | l => l ++ t end.
Proof.
  induction s as [|c s IH]; simpl; [by destruct (lstrip t)|].
  by destruct (isspace c).
Qed.

Lemma rstrip_spaces (s : str) (k : nat) : rstrip (s ++ repeat SPACE k) = rstrip s.
Proof.
  unfold rstrip. rewrite rev_app_distr.
  replace (rev (repeat SPACE k)) with (repeat SPACE k).
  - by rewrite lstrip_spaces.
  - induction k as [|k IH]; [done|]. simpl. rewrite <- IH.
    clear IH. induction k as [|k IH]; [done|]. simpl. by rewrite <- IH.
Qed.

(** Padding on the right does not change what [strip] returns. *)
Lemma strip_padded (s : str) (k : nat) : strip (s ++ repeat SPACE k) = strip s.
Proof.
  unfold strip. rewrite lstrip_app.
  destruct (lstrip s) as [|c l] eqn:Hs.
  - replace (repeat SPACE k) with (repeat SPACE k ++ []) by apply app_nil_r.
    by rewrite lstrip_spaces.
  - rewrite <- Hs. rewrite Hs. apply rstrip_spaces.
Qed.

Lemma strip_trimmed (s : str) : trimmed s -> strip s = s.
Proof.
  intros [Hh Ht]. unfold strip, rstrip.
  assert (lstrip s = s) as -> by (destruct s; [done|by apply lstrip_head]).
  destruct (rev s) as [|z r] eqn:Hr.
  - simpl. by rewrite <- (rev_involutive s), Hr.
  - rewrite lstrip_head by done. by rewrite <- Hr, rev_involutive.
Qed.

Lemma trimmed_app (s t : str) (c z : N) :
  isspace c = false -> isspace z = false -> trimmed (c :: s ++ t ++ [z]).
Proof.
  intros Hc Hz. split; [done|].
  change (c :: s ++ t ++ [z]) with ((c :: s) ++ t ++ [z]).
  by rewrite !rev_app_distr.
Qed.

Lemma split_word (a : str) : word a -> split SPACE a = [a].
Proof.
  induction 1 as [|c a Hc _ IH]; [done|]. simpl.
  destruct (N.eqb_spec c SPACE); [done|]. by rewrite IH.
Qed.

Lemma split_word_app (a rest : str) :
  word a -> split SPACE (a ++ SPACE :: rest) = a :: split SPACE rest.
Proof.
  induction 1 as [|c a Hc _ IH]; [done|]. simpl.
  destruct (N.eqb_spec c SPACE); [done|]. by rewrite IH.
Qed.

Lemma word_of_string_no_32 (s : string) :
  forallb (fun c => negb (c =? SPACE)%N) (of_string s) = true -> word (of_string s).
Proof.
  intros H. apply Forall_forall. intros c Hc%list_elem_of_In.
  rewrite forallb_forall in H. specialize (H c Hc).
  apply negb_true_iff, N.eqb_neq in H. done.
Qed.

End Words.

Section Numbers.

Import Decimal.

Lemma digits_digit_chars (u : uint) (acc : Z) (after_digit : bool) :
  u <> Nil \/ after_digit = true ->
  digits acc after_digit (digit_chars u) = Some (horner acc u).
Proof.
  revert acc after_digit.
  induction u as [|u IH|u IH|u IH|u IH|u IH|u IH|u IH|u IH|u IH|u IH];
    intros acc b Hb;
    [destruct Hb as [Hn | ->]; done|..];
    unfold digit_chars, of_string in *; simpl;
    rewrite IH by (by right); f_equal; f_equal; lia.
Qed.

Lemma horner_pos (l : uint) (acc : positive) :
  horner (Z.pos acc) l = Z.pos (Pos.of_uint_acc l acc).
Proof.
  revert acc.
  induction l as [|l IH|l IH|l IH|l IH|l IH|l IH|l IH|l IH|l IH|l IH];
    intros acc; simpl; [done|..];
    rewrite <- IH; f_equal; lia.
Qed.

Lemma horner_0 (u : uint) : horner 0 u = Z.of_N (Pos.of_uint u).
Proof.
  induction u as [|u IH|u IH|u IH|u IH|u IH|u IH|u IH|u IH|u IH|u IH];
    simpl; [done|done|..]; apply (horner_pos u).
Qed.

Lemma digit_chars_digits (u : uint) : Forall (fun c => isdigit c = true) (digit_chars u).
Proof.
  induction u as [|u IH|u IH|u IH|u IH|u IH|u IH|u IH|u IH|u IH|u IH];
    [constructor|..]; (constructor; [done|exact IH]).
Qed.

Lemma isdigit_not_space (c : N) : isdigit c = true -> isspace c = false.
Proof.
  unfold isdigit, isspace. intros [H1 H2]%andb_true_iff.
  apply N.leb_le in H1. apply N.leb_le in H2.
  repeat (apply orb_false_iff; split);
    repeat match goal with
           | |- _ && _ = false => apply andb_false_iff
           | |- (_ <=? _)%N = false \/ _ =>
               first [left; apply N.leb_gt; lia | right; apply N.leb_gt; lia]
           | |- (_ =? _)%N = false => apply N.eqb_neq; lia
           end.
Qed.

(** The decimal form of a number: it is a word, it is trimmed, and [int]
    reads the number back. *)
Lemma str_of_int_shape (n : Z) :
  exists u, u <> Nil
    /\ str_of_int n = (if n <? 0 then [45%N] else []) ++ digit_chars u
    /\ horner 0 u = Z.abs n.
Proof.
  destruct n as [|p|p].
  - exists (D0 Nil). by repeat split.
  - exists (Pos.to_uint p). split; [apply DecimalPos.Unsigned.to_uint_nonnil|].
    split.
    + unfold str_of_int. simpl.
      pose proof (DecimalPos.Unsigned.to_uint_nonnil p).
      by destruct (Pos.to_uint p).
    + by rewrite horner_0, DecimalPos.Unsigned.of_to.
  - exists (Pos.to_uint p). split; [apply DecimalPos.Unsigned.to_uint_nonnil|].
    split.
    + unfold str_of_int. simpl.
      pose proof (DecimalPos.Unsigned.to_uint_nonnil p).
      by destruct (Pos.to_uint p).
    + by rewrite horner_0, DecimalPos.Unsigned.of_to.
Qed.

End Numbers.

Section NumbersOnTheWire.

Lemma no_space_trimmed (s : str) :
  Forall (fun c => isspace c = false) s -> trimmed s.
Proof.
  intros H. split.
  - by destruct H.
  - apply Forall_rev in H. by destruct H.
Qed.

Lemma no_space_word (s : str) :
  Forall (fun c => isspace c = false) s -> word s.
Proof.
  intros H. eapply Forall_impl; [exact H|]. intros c Hc ->. discriminate.
Qed.

Lemma str_of_int_no_space (n : Z) :
  Forall (fun c => isspace c = false) (str_of_int n).
Proof.
  destruct (str_of_int_shape n) as (u & _ & -> & _).
  apply Forall_app_2.
  - destruct (n <? 0); by repeat constructor.
  - eapply Forall_impl; [apply digit_chars_digits|]. apply isdigit_not_space.
Qed.

Lemma str_of_int_nonempty (n : Z) : str_of_int n <> [].
Proof.
  destruct (str_of_int_shape n) as (u & Hu & -> & _).
  destruct (n <? 0); [done|]. simpl. by destruct u.
Qed.

Lemma is_c_space_isspace (c : N) : is_c_space c = true -> isspace c = true.
Proof.
  unfold is_c_space, isspace. intros [H|H]%orb_true_iff.
  - by rewrite H.
  - apply N.eqb_eq in H as ->. reflexivity.
Qed.

Lemma strip_c_no_space (s : str) :
  Forall (fun c => isspace c = false) s -> strip_c s = s.
Proof.
  intros Hs.
  assert (forall t, Forall (fun c => isspace c = false) t -> lstrip_c t = t)
    as Hl.
  { intros t Ht. destruct Ht as [|c t Hc _]; [done|]. simpl.
    destruct (is_c_space c) eqn:E; [|done].
    apply is_c_space_isspace in E. congruence. }
  unfold strip_c. rewrite (Hl s Hs), (Hl (rev s)) by (by apply Forall_rev).
  apply rev_involutive.
Qed.

Lemma to_ascii_ascii (s : str) : is_ascii s -> to_ascii s = Some s.
Proof.
  induction 1 as [|c s Hc _ IH]; [done|]. simpl.
  unfold to_ascii_char. apply N.ltb_lt in Hc. by rewrite Hc, IH.
Qed.

Lemma str_of_int_ascii (n : Z) : is_ascii (str_of_int n).
Proof.
  destruct (str_of_int_shape n) as (u & _ & -> & _).
  apply Forall_app_2.
  - destruct (n <? 0); repeat constructor.
  - eapply Forall_impl; [apply digit_chars_digits|].
    intros c [_ H]%andb_true_iff. apply N.leb_le in H. lia.
Qed.

Lemma filter_length_le {A} (f : A -> bool) (l : list A) :
  len (List.filter f l) <= len l.
Proof.
  unfold len. induction l as [|x l IH]; simpl; [lia|].
  destruct (f x); simpl; lia.
Qed.

(** [int(str(n)) == n] for a number of no more digits than [int]
    converts. *)
Lemma int_str_of_int (n : Z) :
  len (str_of_int n) <= INT_MAX_STR_DIGITS -> int (str_of_int n) = Some n.
Proof.
  intros Hlen. unfold int.
  rewrite to_ascii_ascii by apply str_of_int_ascii.
  rewrite strip_c_no_space by apply str_of_int_no_space.
  destruct (Z.gtb_spec (len (List.filter isdigit (str_of_int n)))
                       INT_MAX_STR_DIGITS) as [Hgt|_].
  { pose proof (filter_length_le isdigit (str_of_int n)). lia. }
  destruct (str_of_int_shape n) as (u & Hu & -> & Hv).
  destruct (Z.ltb_spec n 0) as [Hn|Hn]; simpl.
  - rewrite digits_digit_chars by (by left). simpl. f_equal. lia.
  - assert (digits 0 false (digit_chars u) = Some n) as Hd.
    { rewrite digits_digit_chars by (by left). f_equal. lia. }
    destruct u; try done.
Qed.

(** A part of a joined text is no longer than the text. *)
Lemma join_length (sep : str) (ws : list str) (w : str) :
  w ∈ ws -> len w <= len (join sep ws).
Proof.
  unfold len. induction ws as [|x ws IH]; [by intros ?%elem_of_nil|].
  intros [->|Hin]%elem_of_cons.
  - destruct ws; simpl; [lia|]. rewrite !length_app. lia.
  - specialize (IH Hin). destruct ws as [|y ws]; [by apply elem_of_nil in Hin|].
    change (join sep (x :: y :: ws)) with (x ++ sep ++ join sep (y :: ws)).
    rewrite !length_app. lia.
Qed.

Lemma encode_length (s : str) (b : bytes) :
  encode s = Some b -> len s <= len b.
Proof.
  unfold len. revert b. induction s as [|c s IH]; intros b; simpl.
  - intros [= <-]. simpl. lia.
  - destruct (encode_char c) as [bs|] eqn:Hc; [|discriminate].
    destruct (encode s) as [r|]; [|discriminate]. intros [= <-].
    specialize (IH r eq_refl). rewrite length_app.
    assert (1 <= length bs)%nat; [|lia].
    unfold encode_char in Hc. repeat case_match; simplify_eq; simpl; lia.
Qed.

End NumbersOnTheWire.

(** ** The distance table and the selection *)

Section DistanceTable.

Ltac by_cases :=
  repeat match goal with
         | |- context [decide (?x = ?y)] =>
             is_var x; destruct (decide (x = y)) as [->|?]
         end.

Lemma distance_self (a : Region) : distance a a = None.
Proof.
  unfold distance, DISTANCE_MATRIX, row. cbn [Dict.get List.map].
  by_cases; try (vm_compute; reflexivity); done.
Qed.

(** X1. The distance table is symmetric: whatever the two regions, the
    lookup in one order raises or returns exactly as in the other. *)
Theorem distance_symmetric (a b : Region) : distance a b = distance b a.
Proof.
  unfold distance, DISTANCE_MATRIX, row. cbn [Dict.get List.map].
  by_cases; try (vm_compute; reflexivity); simpl; by_cases; done.
Qed.

(** X2. The table has no entry from a region to itself, and an entry,
    greater than zero, between any two different regions of the seven. *)
Theorem distance_off_diagonal (a b : Region) :
  distance a a = None
  /\ (a ∈ regions -> b ∈ regions -> a <> b ->
      exists d, distance a b = Some d /\ 0 < d).
Proof.
  split; [apply distance_self|].
  cbn [List.map]. intros Ha Hb Hne.
  repeat (apply elem_of_cons in Ha as [->|Ha]);
    try (by apply elem_of_nil in Ha);
    repeat (apply elem_of_cons in Hb as [->|Hb]);
    try (by apply elem_of_nil in Hb);
    try done;
    (eexists; split; [vm_compute; reflexivity|done]).
Qed.

Lemma distance_off_diagonal_witness :
  exists d, distance (of_string "latin-america") (of_string "eu") = Some d
            /\ 0 < d.
Proof.
  apply (distance_off_diagonal (of_string "latin-america") (of_string "eu"));
    [| |by vm_compute];
    unfold regions; cbn [List.map]; repeat constructor.
Defined.

End DistanceTable.

Section SelectionErrors.

(** X3. With a size given, [UploadHandler.select_bucket] raises exactly
    when some bucket with room for that size has no entry in the distance
    row of the context's region, as a bucket in that very region, and the
    exception is then [KeyError]; which buckets lack room does not
    matter. *)
Theorem select_bucket_raises_iff (ctx : Context) (known : list Client)
    (size : Z) (e : exn) :
  UploadHandler_select_bucket ctx known (for_size size) = Raise e
  <-> e = KeyError
      /\ exists b, b ∈ candidates size known
                   /\ distance (region ctx) (Api.region b) = None.
Proof.
  split.
  - intros Hr.
    destruct (decide (reachable ctx (candidates size known))) as [Hok|Hno].
    + destruct (candidates size known) as [|c l] eqn:Hc.
      * apply (select_bucket_empty ctx) in Hc. congruence.
      * destruct (select_bucket_reachable ctx known size) as [b Hb];
          [by rewrite Hc|by rewrite Hc|congruence].
    + rewrite (select_bucket_unreachable _ _ _ Hno) in Hr. injection Hr as <-.
      split; [done|]. apply not_Forall_Exists in Hno; [|apply _].
      apply Exists_exists in Hno as (b & Hb & Hd). exists b. split; [done|].
      destruct (distance (region ctx) (Api.region b)) eqn:Hz; [|done].
      destruct Hd. simpl. rewrite Hz. eauto.
  - intros (-> & b & Hb & Hd). apply select_bucket_unreachable.
    intros Hall. unfold reachable in Hall. rewrite Forall_forall in Hall.
    specialize (Hall b Hb). rewrite Hd in Hall. by destruct Hall.
Qed.

(** A bucket with room that lies in the region of the
    manager makes every selection over it fail, whatever else is known. *)
Theorem select_bucket_same_region (ctx : Context) (known : list Client)
    (size : Z) (b : Client) :
  b ∈ known ->
  get_bucket_available_space b >= size ->
  Api.region b = region ctx ->
  UploadHandler_select_bucket ctx known (for_size size) = Raise KeyError.
Proof.
  intros Hin Hroom Hreg. apply select_bucket_unreachable.
  intros Hall. unfold reachable in Hall. rewrite Forall_forall in Hall.
  assert (b ∈ candidates size known) as Hb.
  { apply list_elem_of_In, filter_In. split; [by apply list_elem_of_In|].
    apply Z.geb_le. lia. }
  specialize (Hall b Hb). rewrite Hreg, distance_self in Hall. by destruct Hall.
Qed.

Lemma select_bucket_same_region_witness :
  UploadHandler_select_bucket
    (SampleHandles.ctx (SampleHandles.three ++ [SampleHandles.home])
                       (Sample.request []))
    (SampleHandles.three ++ [SampleHandles.home]) (for_size 10)
  = Raise KeyError.
Proof.
  apply (select_bucket_same_region _ _ 10 SampleHandles.home).
  - unfold SampleHandles.three. simpl. repeat constructor.
  - by vm_compute.
  - reflexivity.
Defined.

End SelectionErrors.

(** ** Chunks and responses *)

Section ChunkRoundTrip.

Lemma chunk_length (content : str) :
  len content <= CHUNK_SIZE -> len (chunk content) = CHUNK_SIZE.
Proof.
  intros H. unfold chunk, len. rewrite length_map. by apply ljust_length.
Qed.

Lemma send_chunk_frame (content : str) (c : Connection) :
  is_ascii content -> len content <= CHUNK_SIZE -> closed c = false ->
  send_chunk content c = (set_sent (sent c ++ [chunk content]) c, Ok tt).
Proof.
  intros Ha Hlen Hc. unfold send_chunk.
  destruct (Z.gtb_spec (len content) CHUNK_SIZE); [lia|].
  unfold mbind, M_bind, or_raise.
  rewrite (encode_ascii _ (ljust_ascii _ _ Ha)). unfold mret, M_ret, send.
  by apply sendall_open.
Qed.

Lemma decode_chunk (content : str) :
  is_ascii content -> decode (chunk content) = Some (ljust content CHUNK_SIZE).
Proof.
  intros Ha. apply decode_encode, encode_ascii, ljust_ascii, Ha.
Qed.

(** A frame that fits a chunk is what the next [receive] returns. *)
Lemma receive_frame (c : Connection) (frame : bytes) (later : list bytes) :
  closed c = false -> incoming c = frame :: later ->
  frame <> [] -> len frame <= CHUNK_SIZE ->
  receive c = (set_incoming later c, Ok frame).
Proof.
  intros Hc Hi Hne Hlen. unfold receive, recv. rewrite Hc, Hi.
  destruct frame as [|b frame]; [done|]. cbn [pending].
  unfold len in Hlen.
  rewrite drop_ge, take_ge by lia. done.
Qed.

Lemma receive_chunk_frame (c : Connection) (content : str) (later : list bytes) :
  is_ascii content -> len content <= CHUNK_SIZE ->
  closed c = false -> incoming c = chunk content :: later ->
  receive_chunk c = (set_incoming later c, Ok (strip content)).
Proof.
  intros Ha Hlen Hc Hi. unfold receive_chunk, mbind, M_bind.
  rewrite (receive_frame c (chunk content) later); try done.
  - unfold or_raise. rewrite (decode_chunk _ Ha). unfold mret, M_ret.
    unfold ljust. by rewrite strip_padded.
  - intros Hnil. pose proof (chunk_length content Hlen) as Hl.
    rewrite Hnil in Hl. unfold CHUNK_SIZE in Hl. done.
  - by rewrite chunk_length.
Qed.

(** X4. A text of ASCII characters no longer than a chunk, written with
    [send_chunk] and read at the other end with [receive_chunk], comes
    back without the padding: as the text with the white space at its two
    ends removed. *)
Theorem send_chunk_receive_chunk (content : str) :
  is_ascii content -> len content <= CHUNK_SIZE ->
  let written := sent (send_chunk content (Requests.delivered [])).1 in
  receive_chunk (Requests.delivered written)
  = (Requests.delivered [], Ok (strip content)).
Proof.
  intros Ha Hlen written. subst written.
  rewrite (send_chunk_frame content (Requests.delivered []) Ha Hlen eq_refl).
  exact (receive_chunk_frame (Requests.delivered [chunk content]) content []
           Ha Hlen eq_refl eq_refl).
Qed.

Lemma send_chunk_receive_chunk_witness :
  receive_chunk
    (Requests.delivered
       (sent (send_chunk (of_string "upload p f") (Requests.delivered [])).1))
  = (Requests.delivered [], Ok (strip (of_string "upload p f"))).
Proof.
  apply (send_chunk_receive_chunk (of_string "upload p f")).
  - repeat constructor.
  - by vm_compute.
Defined.

Lemma Status_value_ascii (s : Status) :
  is_ascii (Status_value s) /\ len (Status_value s) <= CHUNK_SIZE
  /\ strip (Status_value s) = Status_value s.
Proof. destruct s; (split; [repeat constructor|split; by vm_compute]). Qed.

Lemma ContentType_value_ascii (t : ContentType) :
  is_ascii (ContentType_value t) /\ len (ContentType_value t) <= CHUNK_SIZE
  /\ strip (ContentType_value t) = ContentType_value t.
Proof. destruct t; (split; [repeat constructor|split; by vm_compute]). Qed.

Lemma Response_send_open (r : Response) (c : Connection) :
  closed c = false ->
  Response_send r c = (set_sent (sent c ++ response_frames r) c, Ok tt).
Proof.
  intros Hc. unfold Response_send, response_frames, mbind, M_bind.
  destruct (Status_value_ascii (status r)) as (Ha1 & Hl1 & _).
  destruct (ContentType_value_ascii (content_type r)) as (Ha2 & Hl2 & _).
  rewrite (send_chunk_frame _ c Ha1 Hl1 Hc).
  rewrite (send_chunk_frame _ _ Ha2 Hl2) by done.
  destruct (truthy (data r)) as [d|].
  - unfold send. rewrite sendall_open by done.
    unfold set_sent. simpl. by rewrite <- !app_assoc.
  - unfold mret, M_ret, set_sent. simpl. by rewrite <- !app_assoc.
Qed.

(** X5. On an open connection [Response.send] never fails and writes the
    status and the content type as two frames of exactly [CHUNK_SIZE]
    bytes each, followed by the payload as one frame if there is a
    payload and it is not empty, and by nothing otherwise. *)
Theorem Response_send_frames (r : Response) (c : Connection) :
  closed c = false ->
  exists status_frame type_frame,
    Response_send r c
    = (set_sent (sent c ++ [status_frame; type_frame]
                 ++ match data r with
                    | Some (b :: d) => [b :: d]
                    | _ => []
                    end) c,
       Ok tt)
    /\ len status_frame = CHUNK_SIZE /\ len type_frame = CHUNK_SIZE
    /\ decode status_frame = Some (ljust (Status_value (status r)) CHUNK_SIZE)
    /\ decode type_frame
       = Some (ljust (ContentType_value (content_type r)) CHUNK_SIZE).
Proof.
  intros Hc.
  destruct (Status_value_ascii (status r)) as (Ha1 & Hl1 & _).
  destruct (ContentType_value_ascii (content_type r)) as (Ha2 & Hl2 & _).
  exists (chunk (Status_value (status r))),
         (chunk (ContentType_value (content_type r))).
  split; [|by rewrite !chunk_length, !decode_chunk].
  rewrite (Response_send_open r c Hc). unfold response_frames, truthy.
  by destruct (data r) as [[|b d]|].
Qed.

Lemma Response_send_frames_witness :
  exists status_frame type_frame,
    Response_send ok_response (Sample.request [])
    = (set_sent ([] ++ [status_frame; type_frame] ++ []) (Sample.request []),
       Ok tt)
    /\ len status_frame = CHUNK_SIZE /\ len type_frame = CHUNK_SIZE
    /\ decode status_frame = Some (ljust (Status_value Status_OK) CHUNK_SIZE)
    /\ decode type_frame
       = Some (ljust (ContentType_value NO_CONTENT) CHUNK_SIZE).
Proof.
  exact (Response_send_frames ok_response (Sample.request []) eq_refl).
Defined.

(** X6. What [Response.send] writes, [Command._receive_response] reads
    back when each frame arrives as a segment of its own: the value of the
    status, the value of the content type, and as data the first
    [CHUNK_SIZE] bytes of the payload; for a response without payload the
    third [receive] is made all the same and the data are the empty byte
    string it returns. *)
Theorem receive_response_reads_response (r : Response) :
  exists c,
    Commands.receive_response (Requests.delivered (response_frames r))
    = (c, Ok (Status_value (status r), ContentType_value (content_type r),
              Some (take (Z.to_nat CHUNK_SIZE)
                         (default [] (truthy (data r)))))).
Proof.
  destruct (Status_value_ascii (status r)) as (Ha1 & Hl1 & Hs1).
  destruct (ContentType_value_ascii (content_type r)) as (Ha2 & Hl2 & Hs2).
  unfold Commands.receive_response, response_frames, mbind, M_bind.
  cbn [app].
  rewrite (receive_chunk_frame (Requests.delivered _) (Status_value (status r))
             (chunk (ContentType_value (content_type r))
              :: match truthy (data r) with Some d => [d] | None => [] end)
             Ha1 Hl1 eq_refl eq_refl).
  rewrite (receive_chunk_frame (set_incoming _ (Requests.delivered _))
             (ContentType_value (content_type r))
             (match truthy (data r) with Some d => [d] | None => [] end)
             Ha2 Hl2 eq_refl eq_refl).
  rewrite Hs1, Hs2. unfold Commands.differs.
  match goal with |- context [receive ?c0] =>
    destruct (receive_open c0 eq_refl) as (c' & -> & _) end.
  exists c'. unfold mret, M_ret, received, truthy. simpl.
  by destruct (data r) as [[|b d]|].
Qed.

End ChunkRoundTrip.

(** ** Parameters and handler threads *)

Section Parameters.

Lemma split_length (sep : N) (s : str) :
  length (split sep s) = S (occurrences sep s).
Proof.
  unfold occurrences. induction s as [|c s IH]; simpl; [done|].
  destruct (c =? sep)%N; simpl; [by rewrite IH|].
  destruct (split sep s) as [|w ws]; simpl in *; [done|]. exact IH.
Qed.

Lemma contains_occurrences (sep : N) (s : str) :
  contains sep s = true <-> (1 <= occurrences sep s)%nat.
Proof.
  unfold contains, occurrences. induction s as [|c s IH]; simpl.
  - split; [discriminate|lia].
  - rewrite (N.eqb_sym sep c). destruct (c =? sep)%N; simpl; [split; [lia|done]|].
    exact IH.
Qed.

Lemma Dict_set_keys {V} (k : list N) (v : V) (d : Dict.dict V) :
  (Dict.set k v d).*1 = if decide (k ∈ d.*1) then d.*1 else d.*1 ++ [k].
Proof.
  induction d as [|[k' v'] d IH].
  - cbn. rewrite decide_False; [done|]. apply not_elem_of_nil.
  - cbn [Dict.set]. rewrite !fmap_cons. cbn [fst].
    destruct (decide (k = k')) as [->|Hne].
    + rewrite fmap_cons. cbn [fst]. rewrite decide_True; [done|]. constructor.
    + rewrite fmap_cons, IH. cbn [fst].
      destruct (decide (k ∈ d.*1)) as [Hin|Hnin].
      * rewrite decide_True; [done|]. by constructor.
      * rewrite decide_False; [done|].
        intros [|]%elem_of_cons; done.
Qed.

Lemma Dict_set_NoDup {V} (k : list N) (v : V) (d : Dict.dict V) :
  NoDup d.*1 -> NoDup (Dict.set k v d).*1.
Proof.
  intros Hd. rewrite Dict_set_keys. destruct (decide (k ∈ d.*1)); [done|].
  apply NoDup_app. split; [done|]. split; [|apply NoDup_singleton].
  intros x Hx Hk%list_elem_of_singleton. by subst.
Qed.

Lemma Dict_get_set_eq {V} (k : list N) (v : V) (d : Dict.dict V) :
  Dict.get k (Dict.set k v d) = Some v.
Proof.
  induction d as [|[k' v'] d IH]; simpl.
  - by rewrite decide_True.
  - destruct (decide (k = k')) as [->|Hne]; simpl.
    + by rewrite decide_True.
    + by rewrite decide_False.
Qed.

Lemma Dict_get_set_ne {V} (k j : list N) (v : V) (d : Dict.dict V) :
  j <> k -> Dict.get j (Dict.set k v d) = Dict.get j d.
Proof.
  intros Hne. induction d as [|[k' v'] d IH]; simpl.
  - by rewrite decide_False.
  - destruct (decide (k = k')) as [->|Hk]; simpl.
    + by rewrite !decide_False.
    + by rewrite IH.
Qed.

Lemma parse_parameters_from_assigned (parameters args args' : list str)
    (kwargs kwargs' : Dict.dict str) (key : str) :
  parse_parameters_from args kwargs parameters = Ok (args', kwargs') ->
  Dict.get key kwargs'
  = match assigned key parameters with
    | Some value => Some value
    | None => Dict.get key kwargs
    end.
Proof.
  revert args kwargs. induction parameters as [|p ps IH]; intros args kwargs.
  - simpl. by intros [= _ <-].
  - simpl. destruct (contains 61%N p) eqn:Hc.
    + destruct (split 61%N p) as [|k [|v [|x l]]] eqn:Hs; try discriminate.
      intros Hparse. rewrite (IH _ _ Hparse).
      destruct (assigned key ps) as [value|]; [done|].
      destruct (decide (k = key)) as [->|Hne].
      * apply Dict_get_set_eq.
      * by apply Dict_get_set_ne.
    + intros Hparse. rewrite (IH _ _ Hparse).
      destruct (assigned key ps) as [value|]; [done|].
      pose proof (split_length 61 p) as Hlen.
      pose proof (contains_occurrences 61 p) as Hcon.
      destruct (split 61%N p) as [|k [|v [|x l]]]; try done.
      simpl in Hlen. assert (contains 61%N p = true) by (apply Hcon; lia).
      congruence.
Qed.

Lemma parse_parameters_from_spec (parameters args : list str)
    (kwargs : Dict.dict str) :
  NoDup kwargs.*1 ->
  if decide (Exists (fun p => (2 <= occurrences 61 p)%nat) parameters)
  then parse_parameters_from args kwargs parameters = Raise ValueError
  else exists kwargs',
         parse_parameters_from args kwargs parameters
         = Ok (args ++ List.filter (fun p => negb (contains 61%N p)) parameters,
               kwargs')
         /\ NoDup kwargs'.*1.
Proof.
  revert args kwargs. induction parameters as [|p ps IH]; intros args kwargs Hk.
  - destruct (decide (Exists _ [])) as [H|_]; [by apply Exists_nil in H|].
    exists kwargs. simpl. by rewrite app_nil_r.
  - simpl. pose proof (split_length 61 p) as Hlen.
    pose proof (contains_occurrences 61 p) as Hcon.
    destruct (contains 61%N p) eqn:Hc.
    + assert (1 <= occurrences 61 p)%nat as H1 by (by apply Hcon).
      destruct (split 61%N p) as [|key [|value [|x l]]] eqn:Hs;
        simpl in Hlen; try lia.
      * specialize (IH args (Dict.set key value kwargs) (Dict_set_NoDup _ _ _ Hk)).
        destruct (decide (Exists _ ps)) as [He|Hne].
        -- rewrite decide_True by (by right). done.
        -- rewrite decide_False; [done|].
           intros [H|H]%Exists_cons; [lia|done].
      * rewrite decide_True; [done|]. left. lia.
    + assert (occurrences 61 p = 0)%nat as H0.
      { destruct (occurrences 61 p); [done|].
        assert (false = true) by (apply Hcon; lia). done. }
      specialize (IH (args ++ [p]) kwargs Hk). simpl.
      destruct (decide (Exists _ ps)) as [He|Hne].
      -- rewrite decide_True by (by right). done.
      -- rewrite decide_False; [by rewrite <- app_assoc in IH|].
         intros [H|H]%Exists_cons; [lia|done].
Qed.

(** X7. [parse_parameters] raises exactly when some parameter holds the
    sign [=] twice or more, and the exception is [ValueError]. *)
Theorem parse_parameters_raises_iff (parameters : list str) (e : exn) :
  parse_parameters parameters = Raise e
  <-> e = ValueError
      /\ Exists (fun p => (2 <= occurrences 61 p)%nat) parameters.
Proof.
  unfold parse_parameters.
  pose proof (parse_parameters_from_spec parameters [] [] (NoDup_nil_2)) as H.
  destruct (decide (Exists _ parameters)) as [He|Hne].
  - rewrite H. split; [by intros [= <-]|by intros [-> _]].
  - destruct H as (kwargs' & -> & _). split; [discriminate|by intros [_ ?]].
Qed.

(** X8. When it returns, the positional arguments are the parameters
    without [=], in their order; no key occurs twice among the keyword
    arguments; and every key has the value that the last parameter
    [key=value] with that key gives it, a later one replacing an earlier
    one, and no value when there is no such parameter. *)
Theorem parse_parameters_positional (parameters args : list str)
    (kwargs : Dict.dict str) :
  parse_parameters parameters = Ok (args, kwargs) ->
  args = List.filter (fun p => negb (contains 61%N p)) parameters
  /\ NoDup kwargs.*1
  /\ forall key, Dict.get key kwargs = assigned key parameters.
Proof.
  unfold parse_parameters. intros Hparse.
  pose proof (parse_parameters_from_spec parameters [] [] (NoDup_nil_2)) as H.
  destruct (decide (Exists _ parameters)) as [He|Hne].
  - rewrite H in Hparse. discriminate.
  - destruct H as (kwargs' & Heq & Hk). rewrite Heq in Hparse.
    injection Hparse as <- <-. split; [done|]. split; [done|].
    intros key. rewrite (parse_parameters_from_assigned _ _ _ _ _ key Heq).
    by destruct (assigned key parameters).
Qed.

Lemma parse_parameters_positional_witness :
  let parameters :=
    [of_string "p"; of_string "k=v"; of_string "f"; of_string "k=w";
     of_string "j=x"] in
  let kwargs := [(of_string "k", of_string "w"); (of_string "j", of_string "x")] in
  [of_string "p"; of_string "f"]
  = List.filter (fun p => negb (contains 61%N p)) parameters
  /\ NoDup kwargs.*1
  /\ forall key, Dict.get key kwargs = assigned key parameters.
Proof.
  intros parameters kwargs.
  apply (parse_parameters_positional parameters).
  vm_compute. reflexivity.
Defined.

End Parameters.

Section Threads.

Variable remote : Remote.

Lemma UploadHandler_handle_returns (a filename : str) (w : World) :
  exists w' r, UploadHandler_handle remote a filename w = (w', Ok r).
Proof.
  unfold UploadHandler_handle, try_except, mbind, M_bind.
  destruct (UploadHandler_body remote filename w) as [w' [r|e]]; by do 2 eexists.
Qed.

Lemma DownloadHandler_handle_returns (filename : str) (w : World) :
  exists w' r, DownloadHandler_handle remote filename w = (w', Ok r).
Proof.
  unfold DownloadHandler_handle, try_except.
  match goal with |- context [match ?m w with _ => _ end] =>
    destruct (m w) as [w' [r|e]] end; [by do 2 eexists|].
  destruct e; by do 2 eexists.
Qed.

Lemma send_and_close_closes (r : Response) (w : World) :
  (Mgr.send_and_close r w).2 = Ok tt
  /\ closed (connection (context (Mgr.send_and_close r w).1)) = true.
Proof.
  unfold Mgr.send_and_close, on_connection, zoom.
  destruct (Response_send r (connection (context w))) as [c res]. done.
Qed.

Lemma Response_send_closed (r : Response) (c : Connection) :
  closed c = true -> exists e, Response_send r c = (c, Raise e).
Proof.
  intros Hc. unfold Response_send, mbind, M_bind, send_chunk.
  destruct (_ >? _); [by eexists|].
  unfold mbind, M_bind, or_raise.
  destruct (encode _); [|by eexists].
  unfold mret, M_ret, send. rewrite sendall_closed by done. by eexists.
Qed.

(** The wrapper after the handler has returned: the response is sent if
    the connection is open, and the connection is closed. *)
Lemma send_and_close_sent (r : Response) (w : World) :
  let out := Mgr.send_and_close r w in
  requests out.1 = requests w /\ appended out.1 = appended w
  /\ sent (connection (context out.1))
     = sent (connection (context w))
       ++ (if closed (connection (context w)) then [] else response_frames r).
Proof.
  unfold Mgr.send_and_close, on_connection, zoom.
  destruct (closed (connection (context w))) eqn:Hc.
  - destruct (Response_send_closed r _ Hc) as [e ->]. simpl.
    by rewrite app_nil_r.
  - by rewrite (Response_send_open r _ Hc).
Qed.

Lemma bind_call_length (params args : list str) (kwargs : Dict.dict str)
    (values : list str) :
  Mgr.bind_call params args kwargs = Some values ->
  length values = length params.
Proof.
  unfold Mgr.bind_call.
  destruct (_ <=? _)%nat eqn:Hle; [|discriminate]. apply Nat.leb_le in Hle.
  destruct (forallb _ _); [|discriminate]. simpl.
  destruct (mapM _ _) as [rest|] eqn:Hrest; [|discriminate].
  intros [= <-]. apply length_mapM in Hrest.
  rewrite length_app, <- Hrest, length_drop. lia.
Qed.

(** X9. A handler thread ends in one of two ways, and which one is
    decided by the call.  When the arguments fit the parameters of the
    handler, the handler returns a response whatever happens inside it;
    the thread then sends that response on the connection as the handler
    has left it, when it is open, sends nothing when it is closed, closes
    it, and ends without an exception.  When the arguments do not fit,
    the thread ends with [TypeError] before anything is sent, and the
    connection is left open. *)
Theorem thread_outcome (job : Mgr.Job) :
  let out := Mgr.thread remote job in
  match bound job with
  | Some _ =>
      exists w' response error,
        Mgr.call_handler remote job (thread_start job)
        = (w', Ok (response, error))
        /\ out.2 = Ok tt
        /\ closed (connection (context out.1)) = true
        /\ requests out.1 = requests w' /\ appended out.1 = appended w'
        /\ sent (connection (context out.1))
           = sent (connection (context w'))
             ++ (if closed (connection (context w')) then []
                 else response_frames response)
  | None => out = (thread_start job, Raise TypeError)
  end.
Proof.
  unfold Mgr.thread, Mgr.wrapper, mbind, M_bind. fold (thread_start job).
  unfold bound, Mgr.call_handler, parameters_of.
  destruct (Mgr.handler_class job).
  - destruct (Mgr.bind_call _ _ _) as [values|] eqn:Hb; [|done].
    pose proof (bind_call_length _ _ _ _ Hb) as Hlen.
    destruct values as [|a [|filename [|x l]]]; try done.
    destruct (UploadHandler_handle_returns a filename (thread_start job))
      as (w' & [response err] & ->).
    exists w', response, err. split; [done|].
    destruct (send_and_close_closes response w') as [-> ->].
    split; [done|]. split; [done|]. apply send_and_close_sent.
  - destruct (Mgr.bind_call _ _ _) as [values|] eqn:Hb; [|done].
    pose proof (bind_call_length _ _ _ _ Hb) as Hlen.
    destruct values as [|filename [|x l]]; try done.
    destruct (DownloadHandler_handle_returns filename (thread_start job))
      as (w' & [response err] & ->).
    exists w', response, err. split; [done|].
    destruct (send_and_close_closes response w') as [-> ->].
    split; [done|]. split; [done|]. apply send_and_close_sent.
Qed.

(** X10. An upload command line without keyword parameters starts a
    thread that ends with [TypeError], nothing sent and nothing closed,
    exactly when it does not carry two positional parameters. *)
Theorem upload_thread_arity (job : Mgr.Job) :
  Mgr.handler_class job = UploadHandler ->
  Mgr.job_kwargs job = [] ->
  (Mgr.thread remote job = (thread_start job, Raise TypeError)
   <-> length (Mgr.job_args job) <> 2%nat).
Proof.
  intros Hclass Hkw.
  unfold Mgr.thread, Mgr.wrapper, Mgr.call_handler, mbind, M_bind.
  fold (thread_start job). rewrite Hclass, Hkw.
  destruct (Mgr.job_args job) as [|a [|filename [|x l]]]; simpl;
    try (split; [intros _; lia|done]).
  destruct (UploadHandler_handle_returns a filename (thread_start job))
    as (w' & [response err] & ->).
  split; [|done]. intros Heq.
  pose proof (proj1 (send_and_close_closes response w')) as Hok.
  rewrite Heq in Hok. discriminate.
Qed.

Lemma UploadHandler_handle_shape (a filename : str) (w : World) :
  exists w' r err,
    UploadHandler_handle remote a filename w = (w', Ok (r, err))
    /\ ((r = ok_response /\ err = None)
        \/ (r = error_response /\ exists e, err = Some e)).
Proof.
  unfold UploadHandler_handle, try_except, mbind, M_bind.
  destruct (UploadHandler_body remote filename w) as [w' [r|e]] eqn:Hbody.
  - exists w', r, None. split; [done|]. left. split; [|done].
    revert Hbody. unfold UploadHandler_body, mbind, M_bind, mret, M_ret.
    repeat case_match; intros; simplify_eq; done.
  - exists w', error_response, (Some e). split; [done|]. right. eauto.
Qed.

(** X11. [UploadHandler._handle] never raises.  On a connection from
    which the payload can be read it answers OK without error exactly when
    a primary was selected and every PUT it issued succeeded; in every
    other case it answers ERROR with the exception it caught.  It never
    answers NOT_FOUND and never sends data. *)
Theorem upload_answers (a filename : str) (w : World) :
  let ctx := context w in
  let content := received (connection ctx) in
  let f := {| name := filename; content := content |} in
  closed (connection ctx) = false ->
  exists w' r err,
    UploadHandler_handle remote a filename w = (w', Ok (r, err))
    /\ ((r = ok_response /\ err = None
         /\ exists main backup,
              UploadHandler_select_bucket ctx (buckets ctx)
                (for_size (len content)) = Ok (Some main)
              /\ UploadHandler_select_bucket ctx
                   (List.filter (fun bucket => bool_decide (id bucket ≠ id main))
                                (buckets ctx))
                   (for_size (len content)) = Ok backup
              /\ all_stored remote main backup f = true)
        \/ (r = error_response /\ (exists e, err = Some e)
            /\ forall main backup,
                 UploadHandler_select_bucket ctx (buckets ctx)
                   (for_size (len content)) = Ok (Some main) ->
                 UploadHandler_select_bucket ctx
                   (List.filter (fun bucket => bool_decide (id bucket ≠ id main))
                                (buckets ctx))
                   (for_size (len content)) = Ok backup ->
                 all_stored remote main backup f = false)).
Proof.
  intros ctx content f Hopen.
  destruct (UploadHandler_handle_shape a filename w) as (w' & r & err & Heq & Hs).
  exists w', r, err. split; [done|].
  destruct (UploadHandler_handle_open remote a filename w Hopen) as (c & _ & H).
  fold ctx content f in H.
  destruct (UploadHandler_select_bucket ctx (buckets ctx) (for_size (len content)))
    as [[main|]|e] eqn:Hmain.
  - destruct H as (backup & names & Hb & r0 & Heq0 & Hok & _).
    rewrite Heq in Heq0. injection Heq0 as -> <-.
    destruct Hs as [[-> ->]|[-> [e ->]]].
    + left. repeat split. exists main, backup. repeat split; [done|].
      by apply Hok.
    + right. repeat split; [eauto|]. intros main' backup' [= <-] Hb'.
      assert (backup' = backup) as -> by congruence.
      destruct (all_stored remote main backup f) eqn:Hall; [|done].
      by specialize (proj2 Hok eq_refl).
  - rewrite Heq in H. injection H as -> -> ->.
    right. repeat split; [eauto|]. intros ? ? [=].
  - rewrite Heq in H. injection H as -> -> ->.
    right. repeat split; [eauto|]. intros ? ? [=].
Qed.

End Threads.

Lemma upload_thread_arity_witness :
  let job := {| Mgr.handler_class := UploadHandler;
                Mgr.job_context := SampleHandles.ctx [] (Sample.request []);
                Mgr.job_args := [of_string "f"];
                Mgr.job_kwargs := [] |} in
  Mgr.thread SampleHandles.willing job = (thread_start job, Raise TypeError).
Proof.
  intros job. apply (upload_thread_arity SampleHandles.willing job eq_refl eq_refl). simpl. lia.
Defined.

Lemma upload_answers_witness :
  exists w' r err,
    UploadHandler_handle SampleHandles.willing [] (of_string "f")
      (SampleHandles.world [] (Sample.request ["x"%string]))
    = (w', Ok (r, err))
    /\ r = error_response.
Proof.
  destruct (upload_answers SampleHandles.willing [] (of_string "f")
              (SampleHandles.world [] (Sample.request ["x"%string])) eq_refl)
    as (w' & r & err & Heq & [(_ & _ & main & backup & Hm & _)|(Hr & _)]).
  - vm_compute in Hm. discriminate.
  - by exists w', r, err.
Defined.

(** ** Downloads *)

Section Downloads.

Ltac run :=
  cbv beta iota delta [mbind M_bind mret M_ret or_raise gets modify raise
                       try_except decoded DownloadHandler_select_bucket].

Lemma find_tracking (filename : str) (before after : list Client) (b : Client) :
  Forall (fun x => filename ∉ files x) before ->
  filename ∈ files b ->
  List.find (fun bucket => bool_decide (filename ∈ files bucket))
            (before ++ b :: after) = Some b.
Proof.
  intros Hb Hin. induction Hb as [|x l Hx _ IH]; simpl.
  - by rewrite bool_decide_eq_true_2.
  - by rewrite bool_decide_eq_false_2.
Qed.

(** X12. A download of a name that no known handle lists among its
    [files] is answered NOT_FOUND, with no error and without a request to
    any storage node, whatever the nodes hold. *)
Theorem download_untracked (remote : Remote) (filename : str) (w : World) :
  Forall (fun b => filename ∉ files b) (buckets (context w)) ->
  DownloadHandler_handle remote filename w
  = (w, Ok (not_found_response, None)).
Proof.
  intros Hnone.
  unfold DownloadHandler_handle, try_except, mbind, M_bind, gets,
         DownloadHandler_select_bucket, or_raise.
  cbn [kw_filename].
  assert (List.find (fun bucket => bool_decide (filename ∈ files bucket))
                    (buckets (context w)) = None) as ->.
  { induction Hnone as [|b l Hb _ IH]; simpl; [done|].
    by rewrite bool_decide_eq_false_2. }
  reflexivity.
Qed.

(** X13. A download asks the first handle, in the order of the context,
    that lists the name.  When that node answers OK, a line of two words
    and the content, the response is OK with the content as data and the
    name of the line is appended to the handle's files; when it answers
    NOT_FOUND the response is NOT_FOUND with no error; handles further
    down the list are not asked in either case. *)
Theorem download_asks_first (remote : Remote) (filename : str) (w : World)
    (before after : list Client) (b : Client)
    (replies : list bytes) (answer : str) :
  buckets (context w) = before ++ b :: after ->
  Forall (fun x => filename ∉ files x) before ->
  filename ∈ files b ->
  get_reply remote b filename = Ok replies ->
  decode (default [] (replies !! 0%nat)) = Some answer ->
  (strip answer = StatusCode_value NOT_FOUND ->
   DownloadHandler_handle remote filename w
   = (w, Ok (not_found_response, None)))
  /\ (strip answer = StatusCode_value OK ->
      forall line name length_field,
        decode (default [] (replies !! 1%nat)) = Some line ->
        split SPACE (strip line) = [name; length_field] ->
        DownloadHandler_handle remote filename w
        = ({| context := context w; requests := requests w;
              appended := appended w ++ [(id b, name)] |},
           Ok ({| status := Status_OK; content_type := BYTES;
                  data := Some (default [] (replies !! 2%nat)) |}, None))).
Proof.
  intros Hbs Hbefore Hin Hreply Hdec.
  pose proof (find_tracking filename before after b Hbefore Hin) as Hfind.
  rewrite <- Hbs in Hfind.
  split.
  - intros Hnf. unfold DownloadHandler_handle, Client_get. run.
    cbn [kw_filename]. rewrite Hfind. run. rewrite Hreply. run.
    rewrite Hdec. run. rewrite Hnf.
    rewrite decide_False by (by vm_compute).
    rewrite decide_True by done. reflexivity.
  - intros Hok line name length_field Hline Hsplit.
    unfold DownloadHandler_handle, Client_get. run.
    cbn [kw_filename]. rewrite Hfind. run. rewrite Hreply. run.
    rewrite Hdec. run. rewrite Hok.
    rewrite decide_True by done. rewrite Hline. run. rewrite Hsplit.
    reflexivity.
Qed.

End Downloads.

Lemma download_asks_first_witness :
  let w := SampleHandles.world SampleHandles.listing (Sample.request []) in
  DownloadHandler_handle SampleHandles.only_e (of_string "f") w
  = ({| context := context w; requests := [];
        appended := [(of_string "e", of_string "f")] |},
     Ok ({| status := Status_OK; content_type := BYTES;
            data := Some (Sample.ascii "hello") |}, None))
  /\ DownloadHandler_handle SampleHandles.willing (of_string "f") w
     = (w, Ok (not_found_response, None)).
Proof.
  intros w. split.
  - refine (proj2 (download_asks_first SampleHandles.only_e (of_string "f") w
             [SampleHandles.handle "a" "asia" 10]
             [files_append (of_string "f")
                (SampleHandles.handle "u" "us-east" 10)]
             (files_append (of_string "f") (SampleHandles.handle "e" "eu" 10))
             [Sample.ascii "OK"; Sample.ascii "f 5"; Sample.ascii "hello"]
             (of_string "OK") _ _ _ _ _)
             _ (of_string "f 5") (of_string "f") (of_string "5") _ _);
      try (vm_compute; reflexivity).
    + repeat constructor. simpl. apply not_elem_of_nil.
    + simpl. repeat constructor.
  - refine (proj1 (download_asks_first SampleHandles.willing (of_string "f") w
             [SampleHandles.handle "a" "asia" 10]
             [files_append (of_string "f")
                (SampleHandles.handle "u" "us-east" 10)]
             (files_append (of_string "f") (SampleHandles.handle "e" "eu" 10))
             [Sample.ascii "NOT_FOUND"] (of_string "NOT_FOUND") _ _ _ _ _) _);
      try (vm_compute; reflexivity).
    + repeat constructor. simpl. apply not_elem_of_nil.
    + simpl. repeat constructor.
Defined.

Lemma download_untracked_witness :
  DownloadHandler_handle SampleHandles.willing (of_string "f")
    (SampleHandles.world SampleHandles.three (Sample.request []))
  = (SampleHandles.world SampleHandles.three (Sample.request []),
     Ok (not_found_response, None)).
Proof.
  apply (download_untracked SampleHandles.willing (of_string "f")
           (SampleHandles.world SampleHandles.three (Sample.request []))).
  repeat constructor; simpl; apply not_elem_of_nil.
Defined.

(** ** The manager as an observer *)

Section ManagerObserver.

Lemma Dict_get_None {V} (k : list N) (d : Dict.dict V) :
  Dict.get k d = None <-> k ∉ d.*1.
Proof.
  induction d as [|[k' v'] d IH]; simpl.
  - split; [intros _; apply not_elem_of_nil|done].
  - destruct (decide (k = k')) as [->|Hne].
    + split; [discriminate|]. intros []. constructor.
    + rewrite IH. split.
      * intros Hn [|]%elem_of_cons; done.
      * intros Hn Hin. apply Hn. by constructor.
Qed.

Lemma Dict_pop_keys {V} (k : list N) (d : Dict.dict V) :
  NoDup d.*1 ->
  NoDup (Dict.pop k d).*1 /\ (k ∉ (Dict.pop k d).*1)
  /\ (forall kv, kv ∈ Dict.pop k d -> kv ∈ d).
Proof.
  induction d as [|[k' v'] d IH]; simpl; intros Hd.
  - repeat split; [constructor|apply not_elem_of_nil|done].
  - apply NoDup_cons in Hd as [Hk' Hd]. destruct (decide (k = k')) as [->|Hne].
    + repeat split; [done|done|]. intros kv Hkv. by constructor.
    + destruct (IH Hd) as (Hn & Hk & Hsub). simpl. repeat split.
      * apply NoDup_cons. split; [|done]. intros Hin.
        apply list_elem_of_fmap in Hin as ([k2 v2] & -> & Hin).
        apply Hk'. apply list_elem_of_fmap. exists (k2, v2). split; [done|].
        by apply Hsub.
      * intros [|]%elem_of_cons; done.
      * intros kv [->|Hkv]%elem_of_cons; [constructor|].
        constructor. by apply Hsub.
Qed.

Lemma Dict_set_elem {V} (k : list N) (v : V) (d : Dict.dict V) (kv : list N * V) :
  kv ∈ Dict.set k v d -> kv = (k, v) \/ kv ∈ d.
Proof.
  induction d as [|[k' v'] d IH]; simpl.
  - intros ?%list_elem_of_singleton. by left.
  - destruct (decide (k = k')) as [->|Hne].
    + intros [->|H]%elem_of_cons; [by left|]. right. by constructor.
    + intros [->|H]%elem_of_cons; [right; constructor|].
      destruct (IH H) as [->|Hin]; [by left|]. right. by constructor.
Qed.

Lemma Dict_get_elem {V} (k : list N) (v : V) (d : Dict.dict V) :
  Dict.get k d = Some v -> (k, v) ∈ d.
Proof.
  induction d as [|[k' v'] d IH]; simpl; [discriminate|].
  destruct (decide (k = k')) as [->|Hne].
  - intros [= ->]. constructor.
  - intros H. constructor. by apply IH.
Qed.

Lemma invoke_well_keyed (c : Call) (m : Mgr.Manager) :
  well_keyed m -> well_keyed (invoke c m).1.
Proof.
  intros [Hnd Hid]. destruct c as [b|i|i sp]; simpl.
  - split; simpl.
    + by apply Dict_set_NoDup.
    + apply Forall_forall. intros kv [->|Hin]%Dict_set_elem; [done|].
      rewrite Forall_forall in Hid. by apply Hid.
  - destruct (Dict_pop_keys i (Mgr._buckets m) Hnd) as (Hn & _ & Hsub).
    split; simpl; [done|].
    apply Forall_forall. intros kv Hin%Hsub.
    rewrite Forall_forall in Hid. by apply Hid.
  - unfold Mgr.Manager_updated.
    destruct (Dict.get i (Mgr._buckets m)) as [b|] eqn:Hb; [|done].
    split; simpl.
    + by apply Dict_set_NoDup.
    + apply Forall_forall. intros kv [->|Hin]%Dict_set_elem.
      * simpl. apply Dict_get_elem in Hb.
        rewrite Forall_forall in Hid. exact (Hid _ Hb).
      * rewrite Forall_forall in Hid. by apply Hid.
Qed.

Lemma values_ids (d : Dict.dict Client) :
  Forall (fun kc => id kc.2 = kc.1) d -> List.map id (Dict.values d) = d.*1.
Proof.
  unfold Dict.values. induction 1 as [|[k c] l Hk _ IH]; [done|].
  simpl in *. f_equal; [exact Hk|exact IH].
Qed.

(** X14. Whatever sequence of [registered], [unregistered] and [updated]
    calls a manager receives, starting with no bucket, it holds every
    handle under the handle's own id and no id twice, so that the handles
    of a context have pairwise different ids. *)
Theorem manager_ids_unique (cs : list Call) (m : Mgr.Manager) :
  Mgr._buckets m = [] ->
  well_keyed (after_calls cs m)
  /\ NoDup (List.map id (Dict.values (Mgr._buckets (after_calls cs m)))).
Proof.
  intros Hempty.
  assert (well_keyed (after_calls cs m)) as Hwk.
  { assert (well_keyed m) as Hm.
    { unfold well_keyed. rewrite Hempty. split; constructor. }
    clear Hempty. revert m Hm. unfold after_calls.
    induction cs as [|c cs IH]; intros m Hm; simpl; [done|].
    apply IH. by apply invoke_well_keyed. }
  split; [done|]. destruct Hwk as [Hnd Hid]. by rewrite values_ids.
Qed.

Lemma manager_ids_unique_witness :
  let cs := [Registered (SampleHandles.handle "a" "asia" 5);
             Registered (SampleHandles.handle "a" "eu" 7);
             Unregistered (of_string "b")] in
  well_keyed (after_calls cs SampleRegistry.manager)
  /\ NoDup (List.map id (Dict.values
              (Mgr._buckets (after_calls cs SampleRegistry.manager)))).
Proof.
  intros cs. apply (manager_ids_unique cs SampleRegistry.manager). reflexivity.
Defined.

(** X15. After [unregistered(id)] a manager that held its handles under
    their own ids holds no handle of that id, and every handle it holds it
    held before. *)
Theorem unregistered_forgets (i : str) (m : Mgr.Manager) :
  well_keyed m ->
  let m' := (Mgr.Manager_unregistered i m).1 in
  (Mgr.Manager_unregistered i m).2 = Ok tt
  /\ Dict.get i (Mgr._buckets m') = None
  /\ Forall (fun c => id c <> i /\ c ∈ Dict.values (Mgr._buckets m))
            (Dict.values (Mgr._buckets m')).
Proof.
  intros [Hnd Hid] m'. subst m'. simpl.
  destruct (Dict_pop_keys i (Mgr._buckets m) Hnd) as (Hn & Hk & Hsub).
  split; [done|]. split; [by apply Dict_get_None|].
  apply Forall_forall. intros c Hc. unfold Dict.values in *.
  apply list_elem_of_fmap in Hc as ([k c'] & -> & Hin). simpl.
  rewrite Forall_forall in Hid. specialize (Hid _ (Hsub _ Hin)). simpl in Hid.
  split.
  - intros Heq. apply Hk. apply list_elem_of_fmap. exists (k, c').
    split; [simpl; congruence|done].
  - apply list_elem_of_fmap. exists (k, c'). split; [done|]. by apply Hsub.
Qed.

Lemma unregistered_forgets_witness :
  let m := after_calls [Registered (SampleHandles.handle "a" "asia" 5);
                        Registered (SampleHandles.handle "e" "eu" 7)]
                       SampleRegistry.manager in
  let m' := (Mgr.Manager_unregistered (of_string "a") m).1 in
  (Mgr.Manager_unregistered (of_string "a") m).2 = Ok tt
  /\ Dict.get (of_string "a") (Mgr._buckets m') = None
  /\ Forall (fun c => id c <> of_string "a" /\ c ∈ Dict.values (Mgr._buckets m))
            (Dict.values (Mgr._buckets m')).
Proof.
  intros m. apply (unregistered_forgets (of_string "a") m).
  change m with
    (invoke (Registered (SampleHandles.handle "e" "eu" 7))
       (invoke (Registered (SampleHandles.handle "a" "asia" 5))
               SampleRegistry.manager).1).1.
  apply invoke_well_keyed, invoke_well_keyed. split; constructor.
Defined.

(** X16. [updated(id, spec)] raises exactly when the manager holds no
    handle under that id: the exception is [KeyError] and the manager is
    left as it was.  Otherwise it gives that handle the new spec and
    changes nothing else: the ids and their order and the handles under
    the other ids are as before, and the handle itself keeps its files. *)
Theorem updated_raises_iff (i : str) (sp : Spec) (m : Mgr.Manager) :
  let out := Mgr.Manager_updated i sp m in
  match Dict.get i (Mgr._buckets m) with
  | None => out = (m, Raise KeyError)
  | Some b =>
      out.2 = Ok tt
      /\ (Mgr._buckets out.1).*1 = (Mgr._buckets m).*1
      /\ Dict.get i (Mgr._buckets out.1) = Some (set_spec sp b)
      /\ files (set_spec sp b) = files b
      /\ forall j, j <> i ->
           Dict.get j (Mgr._buckets out.1) = Dict.get j (Mgr._buckets m)
  end.
Proof.
  intros out. subst out. unfold Mgr.Manager_updated.
  destruct (Dict.get i (Mgr._buckets m)) as [b|] eqn:Hb; [|done]. simpl.
  split; [done|]. split.
  - rewrite Dict_set_keys. rewrite decide_True; [done|].
    apply Dict_get_elem in Hb. apply list_elem_of_fmap. by exists (i, b).
  - split; [apply Dict_get_set_eq|]. split; [done|].
    intros j Hj. by apply Dict_get_set_ne.
Qed.

End ManagerObserver.

(** ** The registry *)

Section RegistryEvents.

Context {O : Type} `{Observer O}.

(** A turn of the registry on a readable line is its dispatch, followed
    by the closing of the connection. *)
Lemma listen_once_dispatch (s : Registry.State O) (accepted : Connection)
    (text : str) :
  closed accepted = false ->
  decode (received accepted) = Some text ->
  exists c,
    closed c = false
    /\ listen_once accepted s
       = (let '(command, args) := unpack (split SPACE (strip text)) in
          let '(s', r) :=
            dispatch command args
              {| _observers := _observers s; bucket_server := c;
                 calls := calls s |} in
          ((on_bucket_server close s').1, r)).
Proof.
  intros Hopen Hdec.
  destruct (receive_open _ Hopen) as (c & Hr & _ & Hc & _).
  exists c. split; [done|]. unfold listen_once.
  cbv beta iota delta [mbind M_bind mret M_ret or_raise on_bucket_server zoom].
  cbn [_observers bucket_server calls].
  rewrite Hr. cbv beta iota. rewrite Hdec. cbv beta iota.
  by destruct (unpack (split SPACE (strip text))) as [command args].
Qed.

(** X17. A line whose first word is none of [register], [unregister] and
    [update] is read and dropped: no observer is called, the observers are
    as before, the connection is closed and the loop goes on. *)
Theorem unknown_event_ignored (s : Registry.State O) (accepted : Connection)
    (text : str) :
  closed accepted = false ->
  decode (received accepted) = Some text ->
  let command := (unpack (split SPACE (strip text))).1 in
  command <> of_string "register" ->
  command <> of_string "unregister" ->
  command <> of_string "update" ->
  exists c,
    closed c = true
    /\ listen_once accepted s
       = ({| _observers := _observers s; bucket_server := c; calls := calls s |},
          Ok tt).
Proof.
  intros Hopen Hdec command H1 H2 H3. subst command.
  destruct (listen_once_dispatch s accepted text Hopen Hdec) as (c & Hc & ->).
  destruct (unpack (split SPACE (strip text))) as [command args]. simpl in *.
  unfold dispatch. rewrite !decide_False by done.
  eexists. split; [|reflexivity]. reflexivity.
Qed.

(** X18. An [update] event with its four fields, numeric counters, and
    observers that take the call: one [updated] call per observer, in
    subscription order, with the id and the three numbers transmitted. *)
Theorem update_fans_out (s : Registry.State O) (accepted : Connection)
    (text id files_count available_space used_space : str) (f a u : Z) :
  closed accepted = false ->
  decode (received accepted) = Some text ->
  split SPACE (strip text)
  = [of_string "update"; id; files_count; available_space; used_space] ->
  int files_count = Some f ->
  int available_space = Some a ->
  int used_space = Some u ->
  let sp := {| files_count := f; available_space := a; used_space := u |} in
  Forall (fun o => (updated id sp o).2 = Ok tt) (_observers s) ->
  exists s',
    listen_once accepted s = (s', Ok tt)
    /\ calls s'
       = calls s ++ List.map (fun j => (j, Updated id sp))
                             (seq 0 (length (_observers s)))
    /\ _observers s' = List.map (fun o => (updated id sp o).1) (_observers s).
Proof.
  intros Hopen Hdec Hsplit Hf Ha Hu sp Hall.
  destruct (listen_once_dispatch s accepted text Hopen Hdec) as (c & Hc & ->).
  rewrite Hsplit. cbn [unpack]. unfold dispatch.
  rewrite decide_False by (by vm_compute).
  rewrite decide_False by (by vm_compute).
  rewrite decide_True by done.
  unfold spec_of, to_int. rewrite Hf, Ha, Hu. fold sp.
  unfold notify. cbn [_observers bucket_server calls].
  rewrite (for_observers_all (Updated id sp) (_observers s) 0 Hall).
  eexists. split; [reflexivity|]. by split.
Qed.

(** An [unregister] event: one [unregistered] call per observer, in
    subscription order, with the first field as id; further fields are
    ignored, and a line without any field raises [IndexError]. *)
Theorem unregister_fans_out (s : Registry.State O) (accepted : Connection)
    (text : str) (fields : list str) :
  closed accepted = false ->
  decode (received accepted) = Some text ->
  split SPACE (strip text) = of_string "unregister" :: fields ->
  match fields with
  | [] => (listen_once accepted s).2 = Raise IndexError
  | id :: _ =>
      Forall (fun o => (unregistered id o).2 = Ok tt) (_observers s) ->
      exists s',
        listen_once accepted s = (s', Ok tt)
        /\ calls s'
           = calls s ++ List.map (fun j => (j, Unregistered id))
                                 (seq 0 (length (_observers s)))
        /\ _observers s'
           = List.map (fun o => (unregistered id o).1) (_observers s)
  end.
Proof.
  intros Hopen Hdec Hsplit.
  destruct (listen_once_dispatch s accepted text Hopen Hdec) as (c & Hc & ->).
  rewrite Hsplit. cbn [unpack]. unfold dispatch.
  rewrite decide_False by (by vm_compute).
  rewrite decide_True by done.
  destruct fields as [|id extra]; [done|]. intros Hall.
  unfold notify. cbn [_observers bucket_server calls].
  rewrite (for_observers_all (Unregistered id) (_observers s) 0 Hall).
  eexists. split; [reflexivity|]. by split.
Qed.

End RegistryEvents.

Lemma unknown_event_ignored_witness :
  exists c,
    closed c = true
    /\ listen_once (Sample.request ["hello b1"%string]) SampleRegistry.subject
       = ({| _observers := _observers SampleRegistry.subject;
             bucket_server := c; calls := calls SampleRegistry.subject |},
          Ok tt).
Proof.
  apply (unknown_event_ignored SampleRegistry.subject
           (Sample.request ["hello b1"%string]) (of_string "hello b1"));
    by vm_compute.
Defined.

Lemma update_fans_out_witness :
  let sp := {| files_count := 1; available_space := 5; used_space := 6 |} in
  let first :=
    after_calls [Registered (SampleHandles.handle "b1" "eu" 9)]
                SampleRegistry.manager in
  let second :=
    after_calls [Registered (SampleHandles.handle "b2" "asia" 7);
                 Registered (SampleHandles.handle "b1" "eu" 9)]
                SampleRegistry.second in
  let s := {| _observers := [first; second];
              bucket_server := Sample.request []; calls := [] |} in
  exists s',
    listen_once (Sample.request ["update b1 1 5 6"%string]) s = (s', Ok tt)
    /\ calls s' = [(0%nat, Updated (of_string "b1") sp);
                   (1%nat, Updated (of_string "b1") sp)]
    /\ _observers s'
       = [(updated (of_string "b1") sp first).1;
          (updated (of_string "b1") sp second).1].
Proof.
  intros sp first second s.
  apply (update_fans_out s (Sample.request ["update b1 1 5 6"%string])
           (of_string "update b1 1 5 6") (of_string "b1")
           (of_string "1") (of_string "5") (of_string "6") 1 5 6);
    try (vm_compute; reflexivity).
  repeat constructor.
Defined.

Lemma unregister_fans_out_witness :
  exists s',
    listen_once (Sample.request ["unregister b1 now"%string])
                SampleRegistry.subject = (s', Ok tt)
    /\ calls s'
       = [(0%nat, Unregistered (of_string "b1"));
          (1%nat, Unregistered (of_string "b1"))]
    /\ _observers s'
       = List.map (fun o => (unregistered (of_string "b1") o).1)
                  (_observers SampleRegistry.subject).
Proof.
  apply (unregister_fans_out SampleRegistry.subject
           (Sample.request ["unregister b1 now"%string])
           (of_string "unregister b1 now") [of_string "b1"; of_string "now"]);
    try (vm_compute; reflexivity).
  repeat constructor.
Defined.

(** ** More on the storage node *)

Section NodeBookkeeping.

#[local] Arguments send_str : simpl never.
#[local] Arguments send : simpl never.
#[local] Arguments receive : simpl never.
#[local] Arguments StatusCode_value : simpl never.

Ltac node_exec :=
  cbv beta iota delta [mbind M_bind mret M_ret or_raise gets modify raise
                       first_arg update_spec on_client on_files zoom head
                       fst snd path_exists read_bytes write_bytes st_size
                       unlink].

(** X19. GET, LIST and SPEC only read: on every path, also when they
    raise, the directory, the files outside of it, the instance with its
    spec, and what was pushed to the registries are as before. *)
Theorem reading_commands_change_nothing (args : list str) (s : Node.State) :
  Forall (fun h : list str -> M Node.State StatusCode =>
            let s' := (h args s).1 in
            disk s' = disk s /\ self s' = self s /\ pushed s' = pushed s
            /\ outside s' = outside s)
         [handle_get; handle_list; handle_spec].
Proof.
  repeat constructor;
    unfold handle_get, handle_list, handle_spec; node_exec;
    repeat case_match; simplify_eq; done.
Qed.

Lemma handle_delete_missing (s : Node.State) (filename : str)
    (rest : list str) :
  closed (client s) = false ->
  match target filename with
  | Entry _ | Outside _ => file_at s filename = None
  | Missing | Refused _ => True
  | _ => False
  end ->
  handle_delete (filename :: rest) s
  = (set_client (set_sent (sent (client s) ++ [status_bytes NOT_FOUND])
                          (client s)) s,
     Ok NOT_FOUND).
Proof.
  intros Hc Hd. unfold handle_delete.
  cbv beta iota delta [mbind M_bind mret M_ret or_raise gets modify raise
                       first_arg update_spec on_client zoom head fst snd].
  rewrite files_exists. unfold file_at in Hd.
  destruct (target filename) as [name| | |e| |key] eqn:Ht; try done;
    rewrite ?Hd, ?bool_decide_eq_false_2 by (by intros [? ?]);
    by rewrite (send_status_open _ NOT_FOUND Hc).
Qed.

(** X20. For a file name that denotes an entry of the directory at which
    there is no file, GET and DELETE both reply NOT_FOUND, send nothing
    else, and leave the directory and the spec as they are. *)
Theorem missing_file_not_found (s : Node.State) (filename name : str)
    (rest : list str) :
  closed (client s) = false ->
  target filename = Entry name ->
  disk s !! name = None ->
  let answered :=
    set_client (set_sent (sent (client s) ++ [status_bytes NOT_FOUND])
                         (client s)) s in
  handle_get (filename :: rest) s = (answered, Ok NOT_FOUND)
  /\ handle_delete (filename :: rest) s = (answered, Ok NOT_FOUND).
Proof.
  intros Hc Ht Hd answered. subst answered. split.
  - apply handle_get_missing; [done|]. unfold file_at. by rewrite Ht.
  - apply handle_delete_missing; [done|]. unfold file_at. by rewrite Ht.
Qed.

Lemma missing_file_not_found_witness :
  let s := Sample.node (Sample.request []) in
  let answered :=
    set_client (set_sent (sent (client s) ++ [status_bytes NOT_FOUND])
                         (client s)) s in
  handle_get [of_string "a.txt"] s = (answered, Ok NOT_FOUND)
  /\ handle_delete [of_string "a.txt"] s = (answered, Ok NOT_FOUND).
Proof.
  exact (missing_file_not_found (Sample.node (Sample.request []))
           (of_string "a.txt") (of_string "a.txt") [] eq_refl eq_refl eq_refl).
Defined.

(** X21. After a DELETE that replied OK, a GET of the same name on the
    next connection replies NOT_FOUND. *)
Theorem delete_then_get (s s1 : Node.State) (filename : str)
    (rest rest' : list str) (next : Connection) :
  closed next = false ->
  handle_delete (filename :: rest) s = (s1, Ok OK) ->
  handle_get (filename :: rest') (set_client next s1)
  = (set_client (set_sent (sent next ++ [status_bytes NOT_FOUND]) next) s1,
     Ok NOT_FOUND).
Proof.
  intros Hnext Hdel.
  apply handle_delete_OK in Hdel as (content & Hwas & Hgone & _).
  rewrite (handle_get_missing (set_client next s1) filename rest' Hnext).
  - reflexivity.
  - rewrite file_at_set_client. unfold file_at in *.
    by destruct (target filename).
Qed.

Lemma delete_then_get_witness :
  let s := (handle_put [of_string "a.txt"]
              (Sample.node (Sample.request ["hello"%string]))).1 in
  let s1 := (handle_delete [of_string "a.txt"]
               (set_client (Sample.request []) s)).1 in
  handle_get [of_string "a.txt"] (set_client (Sample.request []) s1)
  = (set_client (set_sent ([] ++ [status_bytes NOT_FOUND]) (Sample.request []))
                s1,
     Ok NOT_FOUND).
Proof.
  intros s s1.
  apply (delete_then_get (set_client (Sample.request []) s) s1
           (of_string "a.txt") [] [] (Sample.request []) eq_refl).
  vm_compute. reflexivity.
Defined.

Lemma get_directory_size_insert (d : gmap (list N) (list byte)) (k : list N)
    (c : list byte) :
  d !! k = None ->
  get_directory_size (<[k := c]> d) = get_directory_size d + len c.
Proof.
  intros Hk. unfold get_directory_size.
  rewrite map_fold_insert_L; [done| |done]. intros. lia.
Qed.

Lemma get_directory_size_delete (d : gmap (list N) (list byte)) (k : list N)
    (c : list byte) :
  d !! k = Some c ->
  get_directory_size d = get_directory_size (delete k d) + len c.
Proof.
  intros Hk. unfold get_directory_size.
  rewrite (map_fold_delete_L _ _ k c d); [done| |done]. intros. lia.
Qed.

(** X22. After a PUT that replied OK, of a file name that denotes an
    entry of the directory, [used_space] is the size of the directory;
    and [available_space] plus [used_space] is what [available_space] plus
    the size of the directory was before, less the size of the file that
    the PUT has overwritten, if it has overwritten one: an overwritten
    file is paid for a second time. *)
Theorem put_accounting (s s' : Node.State) (filename name : str)
    (rest : list str) :
  target filename = Entry name ->
  handle_put (filename :: rest) s = (s', Ok OK) ->
  let old := default [] (disk s !! name) in
  used_space (_spec (self s')) = get_directory_size (disk s')
  /\ avail s' + used_space (_spec (self s'))
     = avail s + get_directory_size (disk s) - len old.
Proof.
  intros Ht Hput old.
  apply handle_put_OK in Hput as (c & _ & _ & _ & _ & _ & _ & _ & _ & _ & Hs).
  rewrite Ht in Hs. subst s'.
  split; [done|]. unfold avail at 1. simpl.
  set (content := received (client s)).
  destruct (disk s !! name) as [previous|] eqn:Hd; subst old; simpl.
  - rewrite <- (insert_delete_eq (disk s)).
    rewrite get_directory_size_insert by apply lookup_delete_eq.
    rewrite (get_directory_size_delete (disk s) name previous Hd). lia.
  - rewrite get_directory_size_insert by done. unfold len at 3. simpl. lia.
Qed.

Lemma put_accounting_witness :
  let s := (handle_put [of_string "a.txt"]
              (Sample.node (Sample.request ["hello"%string]))).1 in
  let s' := (handle_put [of_string "./a.txt"]
               (set_client (Sample.request ["hi"%string]) s)).1 in
  used_space (_spec (self s')) = get_directory_size (disk s')
  /\ avail s' + used_space (_spec (self s'))
     = avail s + get_directory_size (disk s)
       - len (default [] (disk s !! of_string "a.txt")).
Proof.
  intros s s'.
  apply (put_accounting (set_client (Sample.request ["hi"%string]) s) s'
           (of_string "./a.txt") (of_string "a.txt") []).
  - reflexivity.
  - vm_compute. reflexivity.
Defined.

Lemma kept_refl (s : Node.State) : kept s s.
Proof. unfold kept. repeat split; [done|lia]. Qed.

Lemma kept_trans (s1 s2 s3 : Node.State) : kept s1 s2 -> kept s2 s3 -> kept s1 s3.
Proof.
  unfold kept. intros (? & ? & ? & ? & ? & ?) (? & ? & ? & ? & ? & ?).
  repeat split; try congruence; [auto|lia].
Qed.

Lemma kept_client (c : Connection) (s : Node.State) : kept s (set_client c s).
Proof. unfold kept, avail, count. simpl. repeat split; [done|lia]. Qed.

Ltac same_spec :=
  unfold kept, avail, count, len; simpl; repeat split; try done; lia.

Lemma handlers_keep (name : str) (h : list str -> M Node.State StatusCode)
    (args : list str) (s : Node.State) :
  getattr_handle name = Some h -> kept s (h args s).1.
Proof.
  unfold getattr_handle. repeat case_decide; intros [= <-].
  - unfold handle_get; node_exec; repeat case_match; simplify_eq; same_spec.
  - unfold handle_put; node_exec; repeat case_match; simplify_eq;
      try same_spec;
      (unfold kept, avail, count; simpl; repeat split; try done;
       [|lia];
       match goal with
       | H : (_ >? _) = false |- _ =>
           rewrite Z.gtb_ltb in H; apply Z.ltb_ge in H; simpl in H; lia
       end).
  - unfold handle_delete; node_exec; repeat case_match; simplify_eq;
      try same_spec;
      cbn [volume inside beyond set_outside set_disk disk outside] in *;
      repeat match goal with
             | H : _ <$> _ = Some _ |- _ => apply fmap_Some in H as (? & ? & ->)
             end;
      (unfold kept, avail, count, len; simpl; repeat split; try done; lia).
  - unfold handle_list; node_exec; repeat case_match; simplify_eq; same_spec.
  - unfold handle_spec; node_exec; repeat case_match; simplify_eq; same_spec.
Qed.

Lemma serve_keeps (s : Node.State) : kept s (serve s).1.
Proof.
  unfold serve.
  cbv beta iota delta [mbind M_bind mret M_ret or_raise on_client zoom].
  destruct (receive (client s)) as [c [data|e]]; [|apply kept_client].
  destruct (decode data) as [text|]; [|apply kept_client].
  destruct (unpack (split SPACE (strip text))) as [command args].
  destruct (getattr_handle (lower command)) as [h|] eqn:Hh; [|apply kept_client].
  apply (kept_trans _ (set_client c s)); [apply kept_client|].
  by apply (handlers_keep (lower command)).
Qed.

(** The loop over the subjects pushes to those before the first that does
    not listen, and raises at that one. *)
Lemma send_to_each_spec (message : str) (subjects : list (str * Z))
    (s : Node.State) :
  encodable message ->
  send_to_each message subjects s
  = (set_pushed (pushed s
                 ++ List.map (fun '(h, p) => (h, p, message))
                             (heard (listening s) subjects)) s,
     if all_listen (listening s) subjects then Ok tt else Raise OSError).
Proof.
  intros Henc. destruct (encodable_encode _ Henc) as [octets Ho].
  revert s. induction subjects as [|[host port] later IH]; intros s.
  - simpl. rewrite app_nil_r. by destruct s.
  - simpl.
    cbv beta iota delta [mbind M_bind mret M_ret or_raise gets modify raise].
    destruct (listening s host port) eqn:Hup.
    + rewrite Ho. cbv beta iota. rewrite IH. cbn [listening set_pushed pushed].
      cbn [andb List.map]. f_equal. unfold set_pushed. cbn. f_equal.
      by rewrite <- app_assoc.
    + cbn. rewrite app_nil_r. by destruct s.
Qed.

Lemma update_message_encodable (b : Bucket) :
  encodable (_id b) -> encodable (Events.update_message b).
Proof.
  intros Hid. unfold Events.update_message, spec_message, str_of_int.
  repeat apply encodable_app; auto using encodable_of_string.
Qed.

Lemma try_update_spec (s : Node.State) :
  encodable (_id (self s)) ->
  try_update s
  = (set_pushed (pushed s
                 ++ updates_to (self s)
                      (heard (listening s) (_subjects (self s)))) s,
     if all_listen (listening s) (_subjects (self s)) then Ok tt
     else Raise OSError).
Proof.
  intros Hid. unfold try_update.
  cbv beta iota delta [mbind M_bind gets].
  exact (send_to_each_spec _ _ s (update_message_encodable _ Hid)).
Qed.

(** The loop over the subjects changes nothing but what was pushed. *)
Lemma send_to_each_pushes (message : str) (subjects : list (str * Z))
    (s : Node.State) :
  exists p, (send_to_each message subjects s).1 = set_pushed p s.
Proof.
  revert s. induction subjects as [|[host port] later IH]; intros s.
  - exists (pushed s). by destruct s.
  - simpl.
    cbv beta iota delta [mbind M_bind mret M_ret or_raise gets modify raise].
    destruct (listening s host port); [|exists (pushed s); by destruct s].
    destruct (encode message); [|exists (pushed s); by destruct s].
    cbv beta iota.
    destruct (IH (set_pushed (pushed s ++ [(host, port, message)]) s))
      as [p Hp].
    exists p.
    destruct (send_to_each message later _) as [s2 r2]. simpl in *.
    rewrite Hp. by destruct r2.
Qed.

(** X23. One turn of [Bucket.run], on a node whose id can be encoded,
    always closes the accepted connection.  When the request raised, the
    turn raises the same exception and nothing is pushed.  When the
    request was served, the [update] message, which carries the id and the
    spec as they are after the request, goes to the subjects in their
    order, up to the first that does not accept a connection: the turn
    returns when every subject listens and raises at the first that does
    not. *)
Theorem run_once_closes_and_updates (accepted : Connection) (s : Node.State) :
  encodable (_id (self s)) ->
  let out := run_once accepted s in
  closed (client out.1) = true
  /\ match (serve (set_client accepted s)).2 with
     | Raise e => out.2 = Raise e /\ pushed out.1 = pushed s
     | Ok _ =>
         pushed out.1
         = pushed s
           ++ updates_to (self out.1)
                (heard (listening s) (_subjects (self s)))
         /\ out.2 = (if all_listen (listening s) (_subjects (self s))
                     then Ok tt else Raise OSError)
     end.
Proof.
  intros Hid. unfold run_once, with_client.
  cbv beta iota delta [mbind M_bind mret M_ret modify on_client zoom].
  pose proof (serve_keeps (set_client accepted s)) as (Hp & Hsub & Hi & Hl & _).
  destruct (serve (set_client accepted s)) as [s1 [st|e]]; simpl in *;
    [|done].
  rewrite try_update_spec by (simpl; by rewrite Hi).
  simpl. by rewrite Hp, Hsub, Hl.
Qed.

Lemma run_once_closes_and_updates_witness :
  let deaf :=
    {| self := Bucket_init (of_string ".data") (of_string "localhost") 3001
                 (of_string "eu") (of_string "b1")
                 [(of_string "r1", 3000); (of_string "r2", 3000);
                  (of_string "r3", 3000)];
       disk := ∅; client := Sample.request []; pushed := [];
       outside := ∅; dir_size := 4096;
       listening := fun host _ => negb (bool_decide (host = of_string "r2")) |}
  in
  let out := run_once (Sample.request ["SPEC"%string]) deaf in
  closed (client out.1) = true
  /\ pushed out.1
     = [(of_string "r1", 3000, Events.update_message (self deaf))]
  /\ out.2 = Raise OSError.
Proof.
  intros deaf.
  destruct (run_once_closes_and_updates (Sample.request ["SPEC"%string]) deaf)
    as [Hclosed Hrest].
  - apply encodable_of_string.
  - split; [exact Hclosed|]. exact Hrest.
Defined.

(** X24. Over any run of [Bucket.run], whatever the requests and however
    it ends, [available_space] does not fall below zero if it was not
    below zero at the start, and [files_count] never decreases. *)
Theorem run_keeps_space (arrivals : list Connection) (s : Node.State) :
  0 <= avail s ->
  let s' := (Node.run arrivals s).1 in
  0 <= avail s' /\ count s <= count s'.
Proof.
  intros Hs s'. subst s'.
  assert ((0 <= avail s -> 0 <= avail (Node.run arrivals s).1)
          /\ count s <= count (Node.run arrivals s).1) as [Ha Hc]; [|auto].
  clear Hs. revert s. induction arrivals as [|accepted later IH]; intros s.
  - simpl. split; [done|lia].
  - assert ((0 <= avail s -> 0 <= avail (run_once accepted s).1)
            /\ count s <= count (run_once accepted s).1) as [Ha1 Hc1].
    { unfold run_once, with_client.
      cbv beta iota delta [mbind M_bind mret M_ret modify on_client zoom].
      pose proof (serve_keeps (set_client accepted s))
        as (_ & _ & _ & _ & Ha & Hc).
      destruct (serve (set_client accepted s)) as [s1 [st|e]]; simpl in *;
        [|by split].
      destruct (send_to_each_pushes
                  (of_string "update " ++ _id (self s1) ++ of_string " "
                   ++ spec_message (self s1))
                  (_subjects (self s1))
                  (set_client
                     {| incoming := incoming (client s1);
                        sent := sent (client s1); closed := true |} s1))
        as [p Hp].
      unfold try_update. cbv beta iota delta [mbind M_bind gets].
      cbn [self set_client] in *. rewrite Hp. by split. }
    simpl. unfold mbind, M_bind.
    destruct (run_once accepted s) as [s1 [[]|e]]; simpl in *; [|by split].
    destruct (IH s1) as [Ha2 Hc2]. split; [auto|lia].
Qed.

Lemma run_keeps_space_witness :
  let s := Sample.node (Sample.request []) in
  let s' := (Node.run [Sample.request ["PUT a"%string; "hello"%string];
                       Sample.request ["DELETE ."%string];
                       Sample.request ["FROB"%string]] s).1 in
  0 <= avail s' /\ count s <= count s'.
Proof.
  intros s.
  apply (run_keeps_space
           [Sample.request ["PUT a"%string; "hello"%string];
            Sample.request ["DELETE ."%string];
            Sample.request ["FROB"%string]] s).
  by vm_compute.
Defined.

End NodeBookkeeping.

(** ** From one process to the next *)

Section Lines.

Lemma join_cons (w : str) (ws : list str) :
  ws <> [] -> join (of_string " ") (w :: ws) = w ++ SPACE :: join (of_string " ") ws.
Proof. destruct ws; [done|]. reflexivity. Qed.

(** Words joined by single spaces are split into the same words. *)
Lemma split_join (ws : list str) :
  ws <> [] -> Forall word ws -> split SPACE (join (of_string " ") ws) = ws.
Proof.
  intros Hne Hws. induction Hws as [|w ws Hw Hws IH]; [done|].
  destruct ws as [|w' ws'].
  - simpl. by apply split_word.
  - rewrite join_cons by done. rewrite split_word_app by done.
    by rewrite IH.
Qed.

Lemma trimmed_ends (c : N) (mid tail : str) :
  isspace c = false -> tail <> [] ->
  Forall (fun x => isspace x = false) tail ->
  trimmed (c :: mid ++ tail).
Proof.
  intros Hc Hne Ht. split; [done|].
  change (c :: mid ++ tail) with ((c :: mid) ++ tail).
  rewrite rev_app_distr. apply Forall_rev in Ht.
  destruct (rev tail) as [|z r] eqn:Hr.
  - destruct Hne. by rewrite <- (rev_involutive tail), Hr.
  - simpl. by apply Forall_cons in Ht as [Hz _].
Qed.

Lemma encode_nonempty (s : str) (b : bytes) : encode s = Some b -> s <> [] -> b <> [].
Proof.
  destruct s as [|c s]; [done|]. simpl.
  destruct (encode_char c) as [bs|] eqn:Hc; [|discriminate].
  destruct (encode s) as [r|]; [|discriminate]. intros [= <-] _.
  unfold encode_char in Hc. repeat case_match; simplify_eq; done.
Qed.

(** A frame that fits a chunk and arrives as a segment of its own is what
    the receiver gets. *)
Lemma received_delivered (frame : bytes) (later : list bytes) :
  frame <> [] -> len frame <= CHUNK_SIZE ->
  received (Requests.delivered (frame :: later)) = frame.
Proof.
  intros Hne Hlen. destruct frame as [|b frame]; [done|].
  unfold received, len in *. cbn [Requests.delivered incoming pending hd].
  rewrite take_ge; [done|lia].
Qed.

(** A number that is a word of a message which fits a chunk has no more
    digits than [int] converts. *)
Lemma field_converts (words : list str) (frame : bytes) (n : Z) :
  str_of_int n ∈ words ->
  encode (join (of_string " ") words) = Some frame ->
  len frame <= CHUNK_SIZE ->
  int (str_of_int n) = Some n.
Proof.
  intros Hin Henc Hlen. apply int_str_of_int.
  pose proof (join_length (of_string " ") words _ Hin).
  pose proof (encode_length _ _ Henc).
  unfold INT_MAX_STR_DIGITS, CHUNK_SIZE in *. lia.
Qed.

Lemma word_str_of_int (n : Z) : word (str_of_int n).
Proof. apply no_space_word, str_of_int_no_space. Qed.

End Lines.

Section NodeToRegistry.

Context {O : Type} `{Observer O}.

Lemma update_message_words (b : Bucket) :
  Events.update_message b
  = join (of_string " ")
      [of_string "update"; _id b; str_of_int (files_count (_spec b));
       str_of_int (available_space (_spec b)); str_of_int (used_space (_spec b))].
Proof.
  unfold Events.update_message, spec_message. simpl.
  rewrite <- ?app_assoc. reflexivity.
Qed.

Lemma update_message_trimmed (b : Bucket) : trimmed (Events.update_message b).
Proof.
  unfold Events.update_message, spec_message.
  change (of_string "update " ++ ?x) with (117%N :: (of_string "pdate " ++ x)).
  rewrite !app_assoc. apply trimmed_ends; [done| |].
  - apply str_of_int_nonempty.
  - apply str_of_int_no_space.
Qed.

(** X25. The [update] message a storage node pushes after a request, when
    its id holds no space and the message fits a chunk, is read by the
    registry as that id and exactly the node's three spec numbers: every
    observer that takes the call is told the node's current spec. *)
Theorem update_message_round_trip (s : Registry.State O) (b : Bucket)
    (frame : bytes) :
  word (_id b) ->
  encode (Events.update_message b) = Some frame ->
  len frame <= CHUNK_SIZE ->
  Forall (fun o => (updated (_id b) (_spec b) o).2 = Ok tt) (_observers s) ->
  exists s',
    listen_once (Requests.delivered [frame]) s = (s', Ok tt)
    /\ calls s'
       = calls s ++ List.map (fun j => (j, Updated (_id b) (_spec b)))
                             (seq 0 (length (_observers s)))
    /\ _observers s'
       = List.map (fun o => (updated (_id b) (_spec b) o).1) (_observers s).
Proof.
  intros Hid Henc Hlen Hall.
  assert (decode (received (Requests.delivered [frame]))
          = Some (Events.update_message b)) as Hdec.
  { rewrite received_delivered; [by apply decode_encode| |done].
    apply (encode_nonempty _ _ Henc). by rewrite update_message_words. }
  pose proof Henc as Hwords. rewrite update_message_words in Hwords.
  destruct (listen_once_dispatch s (Requests.delivered [frame]) _ eq_refl Hdec)
    as (c & Hc & ->).
  rewrite (strip_trimmed _ (update_message_trimmed b)).
  rewrite update_message_words, split_join; [|done|].
  2:{ apply Forall_cons; split; [by apply word_of_string_no_32|].
      apply Forall_cons; split; [done|].
      repeat (apply Forall_cons; split; [apply word_str_of_int|]).
      apply Forall_nil_2. }
  cbn [unpack]. unfold dispatch.
  rewrite decide_False by (by vm_compute).
  rewrite decide_False by (by vm_compute).
  rewrite decide_True by done.
  unfold spec_of, to_int.
  rewrite !(fun n Hin => field_converts _ frame n Hin Hwords Hlen)
    by (apply list_elem_of_In; simpl; tauto).
  replace {| files_count := files_count (_spec b);
             available_space := available_space (_spec b);
             used_space := used_space (_spec b) |} with (_spec b)
    by (by destruct (_spec b)).
  unfold notify. cbn [_observers bucket_server calls].
  rewrite (for_observers_all (Updated (_id b) (_spec b)) (_observers s) 0 Hall).
  eexists. split; [reflexivity|]. by split.
Qed.

End NodeToRegistry.

Section RegisterRoundTrip.

Context {O : Type} `{Observer O}.

Lemma register_message_words (b : Bucket) (resolved : str) :
  Events.register_message b resolved
  = join (of_string " ")
      [of_string "register"; _id b; _host b; str_of_int (_port b); _region b;
       resolved; str_of_int (files_count (_spec b));
       str_of_int (available_space (_spec b)); str_of_int (used_space (_spec b))].
Proof.
  unfold Events.register_message, spec_message. simpl.
  rewrite <- ?app_assoc. simpl. rewrite <- ?app_assoc. reflexivity.
Qed.

Lemma register_message_trimmed (b : Bucket) (resolved : str) :
  trimmed (Events.register_message b resolved).
Proof.
  unfold Events.register_message, spec_message.
  change (of_string "register " ++ ?x) with (114%N :: (of_string "egister " ++ x)).
  rewrite !app_assoc. apply trimmed_ends; [done| |].
  - apply str_of_int_nonempty.
  - apply str_of_int_no_space.
Qed.

(** X26. The [register] message of a storage node whose id, host, region
    and resolved path hold no space, when it fits a chunk, is read by the
    registry as a handle with that id, host, port, region, path and spec,
    given to every observer once. *)
Theorem register_message_round_trip (s : Registry.State O) (b : Bucket)
    (resolved : str) (frame : bytes) :
  word (_id b) -> word (_host b) -> word (_region b) -> word resolved ->
  encode (Events.register_message b resolved) = Some frame ->
  len frame <= CHUNK_SIZE ->
  let handle :=
    handle_for (_id b) (_host b) (_port b) (_region b) resolved (_spec b) in
  Forall (fun o => (registered handle o).2 = Ok tt) (_observers s) ->
  exists s',
    listen_once (Requests.delivered [frame]) s = (s', Ok tt)
    /\ calls s'
       = calls s ++ List.map (fun j => (j, Registered handle))
                             (seq 0 (length (_observers s)))
    /\ _observers s'
       = List.map (fun o => (registered handle o).1) (_observers s).
Proof.
  intros Hid Hhost Hregion Hpath Henc Hlen handle Hall.
  assert (decode (received (Requests.delivered [frame]))
          = Some (Events.register_message b resolved)) as Hdec.
  { rewrite received_delivered; [by apply decode_encode| |done].
    apply (encode_nonempty _ _ Henc). by rewrite register_message_words. }
  pose proof Henc as Hwords. rewrite register_message_words in Hwords.
  destruct (listen_once_dispatch s (Requests.delivered [frame]) _ eq_refl Hdec)
    as (c & Hc & ->).
  rewrite (strip_trimmed _ (register_message_trimmed b resolved)).
  rewrite register_message_words, split_join; [|done|].
  2:{ apply Forall_cons; split; [by apply word_of_string_no_32|].
      repeat (apply Forall_cons; split;
              [first [done | apply word_str_of_int]|]).
      apply Forall_nil_2. }
  cbn [unpack]. unfold dispatch. rewrite decide_True by done.
  unfold handle_of, spec_of, to_int.
  rewrite !(fun n Hin => field_converts _ frame n Hin Hwords Hlen)
    by (apply list_elem_of_In; simpl; tauto).
  replace {| files_count := files_count (_spec b);
             available_space := available_space (_spec b);
             used_space := used_space (_spec b) |} with (_spec b)
    by (by destruct (_spec b)).
  change (set_spec _ (Client_init _ _ _ _ _)) with handle.
  unfold notify. cbn [_observers bucket_server calls].
  rewrite (for_observers_all (Registered handle) (_observers s) 0 Hall).
  eexists. split; [reflexivity|]. by split.
Qed.

End RegisterRoundTrip.

Lemma update_message_round_trip_witness :
  let s := {| _observers :=
                [after_calls
                   [Registered (handle_for (of_string "b1") (of_string "localhost")
                                  3001 (of_string "eu") (of_string "/d/b1")
                                  (_spec Sample.bucket))]
                   SampleRegistry.manager];
              bucket_server := Sample.request []; calls := [] |} in
  exists s',
    listen_once
      (Requests.delivered
         [List.map byte_of (Events.update_message Sample.bucket)]) s
    = (s', Ok tt)
    /\ calls s' = [(0%nat, Updated (of_string "b1") (_spec Sample.bucket))]
    /\ _observers s'
       = List.map (fun o => (updated (of_string "b1") (_spec Sample.bucket) o).1)
                  (_observers s).
Proof.
  intros s.
  apply (update_message_round_trip s Sample.bucket
           (List.map byte_of (Events.update_message Sample.bucket))).
  - by apply word_of_string_no_32.
  - vm_compute. reflexivity.
  - by vm_compute.
  - repeat constructor.
Defined.

Lemma register_message_round_trip_witness :
  let handle :=
    handle_for (of_string "b1") (of_string "localhost") 3001 (of_string "eu")
      (of_string "/d/b1") (_spec Sample.bucket) in
  exists s',
    listen_once
      (Requests.delivered
         [List.map byte_of
            (Events.register_message Sample.bucket (of_string "/d/b1"))])
      SampleRegistry.subject
    = (s', Ok tt)
    /\ calls s' = [(0%nat, Registered handle); (1%nat, Registered handle)]
    /\ _observers s'
       = List.map (fun o => (registered handle o).1)
                  (_observers SampleRegistry.subject).
Proof.
  intros handle.
  apply (register_message_round_trip SampleRegistry.subject Sample.bucket
           (of_string "/d/b1")
           (List.map byte_of
              (Events.register_message Sample.bucket (of_string "/d/b1"))));
    try (by apply word_of_string_no_32).
  - vm_compute. reflexivity.
  - by vm_compute.
  - repeat constructor.
Defined.

Section HandleToNode.

#[local] Arguments send_str : simpl never.
#[local] Arguments send : simpl never.
#[local] Arguments receive : simpl never.
#[local] Arguments StatusCode_value : simpl never.

Lemma put_request_words (file : File) :
  Requests.put_request file
  = join (of_string " ") [of_string "PUT"; name file; str_of_int (size file)].
Proof. unfold Requests.put_request. simpl. rewrite <- ?app_assoc. reflexivity. Qed.

Lemma put_request_trimmed (file : File) : trimmed (Requests.put_request file).
Proof.
  unfold Requests.put_request.
  change (of_string "PUT " ++ ?x) with (80%N :: (of_string "UT " ++ x)).
  rewrite !app_assoc. apply trimmed_ends; [done| |].
  - apply str_of_int_nonempty.
  - apply str_of_int_no_space.
Qed.

(** The request of [Client.put], read by the serving loop, is the PUT of
    the file's name. *)
Lemma serve_put_request (s : Node.State) (file : File) (frame : bytes)
    (later : list bytes) :
  word (name file) ->
  encode (Requests.put_request file) = Some frame ->
  len frame <= CHUNK_SIZE ->
  serve (set_client (Requests.delivered (frame :: later)) s)
  = handle_put [name file; str_of_int (size file)]
               (set_client (Requests.delivered later) s).
Proof.
  intros Hname Henc Hlen. unfold serve.
  cbv beta iota delta [mbind M_bind mret M_ret or_raise on_client zoom].
  change (client (set_client ?c s)) with c.
  rewrite (receive_frame (Requests.delivered (frame :: later)) frame later);
    [|done|done| |done].
  2:{ apply (encode_nonempty _ _ Henc). by rewrite put_request_words. }
  cbv beta iota. rewrite (decode_encode _ _ Henc). cbv beta iota.
  rewrite (strip_trimmed _ (put_request_trimmed file)).
  rewrite put_request_words, split_join; [|done|].
  2:{ apply Forall_cons; split; [by apply word_of_string_no_32|].
      apply Forall_cons; split; [done|].
      apply Forall_cons; split; [apply word_str_of_int|apply Forall_nil_2]. }
  reflexivity.
Qed.

(** X27. What [Client.put] writes, a storage node serves as a PUT of the
    same name, when the name holds no space and denotes an entry of the
    node's directory, the content is not empty, the command line fits a
    chunk and the two sends arrive apart.  The node stores the first
    [CHUNK_SIZE] bytes of the content and answers OK, which [Client.put]
    takes as success, unless these bytes exceed its [available_space]: then
    it stores nothing and answers INSUFFICIENT_SPACE, which [Client.put]
    turns into an error. *)
Theorem put_request_served (s : Node.State) (file : File) (frame : bytes)
    (key : str) (remote : Remote) (b : Client) :
  word (name file) ->
  target (name file) = Entry key ->
  content file <> [] ->
  encode (Requests.put_request file) = Some frame ->
  len frame <= CHUNK_SIZE ->
  let kept_bytes := take (Z.to_nat CHUNK_SIZE) (content file) in
  let out := serve (set_client (Requests.delivered [frame; content file]) s) in
  (put_reply remote b file = Ok (sent (client out.1)) ->
   put_succeeds remote b file = negb (len kept_bytes >? avail s))
  /\ if len kept_bytes >? avail s
     then out.2 = Ok INSUFFICIENT_SPACE
          /\ disk out.1 = disk s /\ _spec (self out.1) = _spec (self s)
     else out.2 = Ok OK
          /\ disk out.1 = <[key := kept_bytes]> (disk s)
          /\ avail out.1 = avail s - len kept_bytes.
Proof.
  intros Hname Hkey Hcontent Henc Hlen kept_bytes out. subst out.
  rewrite (serve_put_request s file frame [content file] Hname Henc Hlen).
  destruct (handle_put_open (set_client (Requests.delivered [content file]) s)
              (name file) key [str_of_int (size file)] eq_refl Hkey)
    as (c & _ & Hs & _ & _ & ->).
  assert (received (client (set_client (Requests.delivered [content file]) s))
          = kept_bytes) as ->.
  { subst kept_bytes. unfold received. simpl.
    by destruct (content file). }
  change (avail (set_client (Requests.delivered [content file]) s)) with (avail s).
  simpl in Hs.
  destruct (len kept_bytes >? avail s); simpl.
  - split; [|done]. intros Hreply. unfold put_succeeds.
    rewrite Hreply, Hs. reflexivity.
  - split; [|done]. intros Hreply. unfold put_succeeds.
    rewrite Hreply, Hs. reflexivity.
Qed.

End HandleToNode.

Lemma put_request_served_witness :
  let file := {| name := of_string "a.txt"; content := Sample.ascii "hello" |} in
  let s := Sample.node (Sample.request []) in
  let out :=
    serve (set_client
             (Requests.delivered
                [List.map byte_of (Requests.put_request file); content file])
             s) in
  out.2 = Ok OK
  /\ disk out.1 = <[of_string "a.txt" := Sample.ascii "hello"]> (disk s)
  /\ avail out.1 = avail s - 5.
Proof.
  intros file s.
  destruct (put_request_served s file
              (List.map byte_of (Requests.put_request file))
              (of_string "a.txt")
              SampleHandles.willing (SampleHandles.handle "b1" "eu" 9))
    as [_ Hserved].
  - by apply word_of_string_no_32.
  - reflexivity.
  - done.
  - vm_compute. reflexivity.
  - by vm_compute.
  - exact Hserved.
Defined.

Section ClientToManager.

Lemma parse_two_positional (p f : str) :
  contains 61%N p = false -> contains 61%N f = false ->
  parse_parameters [p; f] = Ok ([p; f], []).
Proof.
  intros Hp Hf. unfold parse_parameters. simpl. by rewrite Hp, Hf.
Qed.

Lemma ascii_no_space_trimmed_tail (s : str) :
  Forall (fun c => isspace c = false) s -> s <> [] ->
  forall (c : N) (mid : str), isspace c = false -> trimmed (c :: mid ++ s).
Proof. intros Hs Hne c mid Hc. by apply trimmed_ends. Qed.

(** X28. The header that the [upload] command of the client writes for a
    path and a file name is read by the manager as an upload with exactly
    these two positional arguments and no keyword argument, and the
    payload is left for the handler: this when path and name are ASCII
    text without [=], the path without space, the name not empty and
    without white space, and the header no longer than a chunk. *)
Theorem upload_header_dispatched (m : Mgr.Manager) (path filename : str)
    (payload : list bytes) :
  let header :=
    Commands.prepare_header (of_string "upload") [path; filename] [] in
  is_ascii path -> is_ascii filename ->
  word path -> Forall (fun c => isspace c = false) filename -> filename <> [] ->
  contains 61%N path = false -> contains 61%N filename = false ->
  len header <= CHUNK_SIZE ->
  let written := sent (send_chunk header (Requests.delivered [])).1 in
  Mgr.dispatch m (Requests.delivered (written ++ payload))
  = (Requests.delivered payload,
     Ok {| Mgr.handler_class := UploadHandler;
           Mgr.job_context :=
             {| region := Mgr.REGION;
                buckets := Dict.values (Mgr._buckets m);
                connection := Requests.delivered payload |};
           Mgr.job_args := [path; filename];
           Mgr.job_kwargs := [] |}).
Proof.
  intros header Hap Haf Hwp Hsf Hnef Hep Hef Hlen written.
  assert (header = of_string "upload" ++ SPACE :: path ++ SPACE :: filename)
    as Hheader by reflexivity.
  assert (is_ascii header) as Ha.
  { rewrite Hheader. apply Forall_app_2; [repeat constructor|].
    constructor; [done|]. apply Forall_app_2; [done|]. by constructor. }
  assert (written = [chunk header]) as ->.
  { subst written.
    by rewrite (send_chunk_frame header (Requests.delivered []) Ha Hlen eq_refl). }
  cbn [app]. unfold Mgr.dispatch.
  cbv beta iota delta [mbind M_bind mret M_ret or_raise gets].
  rewrite (receive_frame (Requests.delivered (chunk header :: payload))
             (chunk header) payload eq_refl eq_refl).
  2:{ intros Hnil. pose proof (chunk_length header Hlen) as Hl.
      rewrite Hnil in Hl. done. }
  2:{ by rewrite chunk_length. }
  cbv beta iota. rewrite (decode_chunk header Ha). cbv beta iota.
  unfold ljust. rewrite strip_padded.
  rewrite strip_trimmed.
  2:{ rewrite Hheader.
      replace (of_string "upload" ++ SPACE :: path ++ SPACE :: filename)
        with (117%N :: (of_string "pload" ++ SPACE :: path ++ [SPACE]) ++ filename).
      - by apply trimmed_ends.
      - simpl. by rewrite <- app_assoc. }
  change header
    with (join (of_string " ") [of_string "upload"; path; filename]).
  rewrite split_join; [|done|].
  2:{ apply Forall_cons; split; [by apply word_of_string_no_32|].
      apply Forall_cons; split; [done|].
      apply Forall_cons; split; [by apply no_space_word|apply Forall_nil_2]. }
  cbn [unpack]. change (HandlerRegistry_get (of_string "upload")) with (Some UploadHandler).
  cbv beta iota. rewrite (parse_two_positional path filename Hep Hef).
  reflexivity.
Qed.

End ClientToManager.

Lemma upload_header_dispatched_witness :
  let path := of_string "docs" in
  let filename := of_string "a.txt" in
  let payload := [Sample.ascii "hello"] in
  let header :=
    Commands.prepare_header (of_string "upload") [path; filename] [] in
  let written := sent (send_chunk header (Requests.delivered [])).1 in
  Mgr.dispatch SampleRegistry.manager (Requests.delivered (written ++ payload))
  = (Requests.delivered payload,
     Ok {| Mgr.handler_class := UploadHandler;
           Mgr.job_context :=
             {| region := Mgr.REGION;
                buckets := Dict.values (Mgr._buckets SampleRegistry.manager);
                connection := Requests.delivered payload |};
           Mgr.job_args := [path; filename];
           Mgr.job_kwargs := [] |}).
Proof.
  intros path filename payload.
  apply (upload_header_dispatched SampleRegistry.manager path filename payload).
  - by apply encodable_of_string || (repeat constructor).
  - repeat constructor.
  - by apply word_of_string_no_32.
  - repeat constructor.
  - done.
  - reflexivity.
  - reflexivity.
  - by vm_compute.
Defined.

(** ** The commands of the client *)

Section ClientCommands.


Lemma Status_value_OK (s : Status) :
  Status_value s = Status_value Status_OK <-> s = Status_OK.
Proof. destruct s; split; intros Heq; done. Qed.


End ClientCommands.


Section UploadCommand.



End UploadCommand.

